(** * pyBEMT: blade element momentum solver (pybemt/solver.py)

    A shallow embedding of [Section], [Rotor], [Fluid] and [Solver] of
    pybemt/solver.py, and the properties of the per-section solve, of the
    aggregation into rotor totals and of the coaxial coupling.

    Numbers.  Python floats are modelled by the real numbers [R] with exact
    arithmetic; rounding, overflow to infinity and signed zeros are not part
    of the model.  What Python's float and [math] operations raise is part
    of it: [x / 0.0] raises ZeroDivisionError, [math.sqrt] and [math.acos]
    raise ValueError outside their domain, and [math.exp] raises
    OverflowError above ln(max double).  The airfoil, the one collaborator
    of the solver that lives in another module, is a pair of functions
    returning Python floats, as its interface says; [sin], [cos] and the
    other functions of [math] return Python floats whatever they are given,
    so every division of a section is a division of Python floats.  numpy
    appears only in [brute_solve] and [run_sweep]: its arrays can hold
    infinities and NaN, which the model of the residual array keeps.

    State.  Sections and rotors are mutable Python objects; every method is
    a computation [M S A] over the object it mutates, and an exception keeps
    the mutations made before it was raised, as in Python.

    Left out: the reading of the configuration file ([Rotor.__init__] is
    modelled from the values it holds once they are split and converted,
    [Solver.__init__] and [Fluid.__init__] only store what they read), the
    [print] calls, and the search of [optimize_pitch], scipy's differential
    evolution, of which the objective [run_bemt] is modelled. *)

From Stdlib Require Import Reals Lra Lia List String ZArith Bool Arith.
Import ListNotations.
Open Scope R_scope.

(** ** Exceptions and the state-and-exception monad *)

Inductive exn : Set :=
| ZeroDivisionError
| ValueError
| OverflowError
| NameError
| AttributeError
| IndexError.

Inductive result (A : Type) : Type :=
| Ok (a : A)
| Raise (e : exn).
Arguments Ok {A} a.
Arguments Raise {A} e.

Definition M (S A : Type) : Type := S -> result A * S.

Definition ret {S A} (a : A) : M S A := fun s => (Ok a, s).

Definition bind {S A B} (m : M S A) (k : A -> M S B) : M S B :=
  fun s => match m s with
           | (Ok a, s') => k a s'
           | (Raise e, s') => (Raise e, s')
           end.

Definition raise {S A} (e : exn) : M S A := fun s => (Raise e, s).

Definition gets {S A} (f : S -> A) : M S A := fun s => (Ok (f s), s).

Definition modify {S} (f : S -> S) : M S unit := fun s => (Ok tt, f s).

(** [try: m except ValueError: h] *)
Definition except_ValueError {S A} (m : M S A) (h : M S A) : M S A :=
  fun s => match m s with
           | (Raise ValueError, s') => h s'
           | r => r
           end.

(** A method of a sub-object run from the object that holds it. *)
Definition zoom {S T A} (get : S -> T) (set : T -> S -> S) (m : M T A) : M S A :=
  fun s => let (r, t') := m (get s) in (r, set t' s).

Declare Scope py_scope.
Delimit Scope py_scope with py.
Notation "x <- c ;; k" := (bind c (fun x => k))
  (at level 61, c at next level, right associativity) : py_scope.
Notation "' pat <- c ;; k" := (bind c (fun x => match x with pat => k end))
  (at level 61, pat pattern, c at next level, right associativity) : py_scope.
Notation "c ;;; k" := (bind c (fun _ => k))
  (at level 61, right associativity) : py_scope.
Open Scope py_scope.

(** ** Python's float operations and the [math] module *)

Module Py.

(** [x / y] on floats. *)
Definition div {S} (x y : R) : M S R :=
  if Req_dec_T y 0 then raise ZeroDivisionError else ret (x / y).

(** [math.sqrt] *)
Definition sqrt {S} (x : R) : M S R :=
  if Rlt_dec x 0 then raise ValueError else ret (R_sqrt.sqrt x).

(** [math.acos] *)
Definition acos {S} (x : R) : M S R :=
  if Rlt_dec x (-1) then raise ValueError
  else if Rlt_dec 1 x then raise ValueError
  else ret (Ratan.acos x).

(** The largest argument of [math.exp], ln(max double) = 709.78... *)
Definition exp_max : R := 709.782712893384.

(** [math.exp] *)
Definition exp {S} (x : R) : M S R :=
  if Rlt_dec exp_max x then raise OverflowError else ret (Rtrigo_def.exp x).

(** [math.radians] *)
Definition radians (x : R) : R := x * PI / 180.

(** [min(a, b)]: [b] when [b < a], else [a]. *)
Definition min (a b : R) : R := if Rlt_dec b a then b else a.

End Py.

(** ** The parts of numpy that the solver uses *)

Module Np.

(** A float64 as numpy sees it: arrays may hold infinities and NaN, which
    numpy's own arithmetic produces where Python's raises. *)
Inductive float64 : Type :=
| Finite (x : R)
| PosInf
| NegInf
| NaN.

Definition isnan (v : float64) : bool :=
  match v with NaN => true | _ => false end.

(** [abs] on an array element *)
Definition fabs (v : float64) : float64 :=
  match v with
  | Finite x => Finite (Rabs x)
  | PosInf | NegInf => PosInf
  | NaN => NaN
  end.

(** [a < b]; false as soon as a NaN is involved *)
Definition ltb (a b : float64) : bool :=
  match a, b with
  | NaN, _ | _, NaN => false
  | _, NegInf => false
  | NegInf, _ => true
  | PosInf, _ => false
  | Finite _, PosInf => true
  | Finite x, Finite y => if Rlt_dec x y then true else false
  end.


(** [np.linspace(start, stop, num)]: [num] evenly spaced samples, the last
    one set to [stop]. *)
Definition linspace (start stop : R) (num : nat) : list R :=
  match num with
  | O => []
  | S O => [start]
  | S (S k as d) =>
      map (fun i => INR i * ((stop - start) / INR d) + start) (seq 0 d)
        ++ [stop]
  end.

(** The scan of [np.argmin]: the first index of the least element; a NaN
    is taken as soon as it is met. *)
Fixpoint argmin_from (best_i : nat) (best : float64) (i : nat)
         (l : list float64) : nat :=
  match l with
  | [] => best_i
  | x :: l' =>
      if isnan best then best_i
      else if (isnan x || ltb x best)%bool
           then argmin_from i x (S i) l'
           else argmin_from best_i best (S i) l'
  end.

(** [np.argmin]; ValueError on an empty array *)
Definition argmin {S} (l : list float64) : M S nat :=
  match l with
  | [] => raise ValueError
  | x :: l' => ret (argmin_from 0 x 1 l')
  end.

End Np.

(** ** Airfoil and fluid *)

(** The airfoil of a section, loaded by [load_airfoil] of pybemt/airfoil.py:
    the solver only calls its [Cl] and [Cd] at an angle of attack. *)
Record Airfoil : Type := {
  airfoil_Cl : R -> R;
  airfoil_Cd : R -> R
}.

(** class Fluid *)
Record Fluid : Type := {
  rho : R;
  mu : R
}.

(** The attributes of a rotor that its sections read through their
    [self.rotor] reference. *)
Record RotorGeometry : Type := {
  n_blades : Z;
  diameter : R;
  radius_hub : R;
  blade_radius : R;
  area : R
}.

(** ** class Section *)

Module BladeSection.

Record t : Type := {
  airfoil : Airfoil;
  radius : R;
  width : R;
  pitch : R;
  chord : R;
  C : R;
  v : R;
  v_theta : R;
  v_rel : R;
  a : R;
  ap : R;
  Re : R;
  alpha : R;
  dT : R;
  dQ : R;
  F : R;
  Cl : R;
  Cd : R;
  sigma : R
}.

Definition set_sigma (x : R) (s : t) : t :=
  {| airfoil := airfoil s; radius := radius s; width := width s;
     pitch := pitch s; chord := chord s; C := C s; v := v s;
     v_theta := v_theta s; v_rel := v_rel s; a := a s; ap := ap s;
     Re := Re s; alpha := alpha s; dT := dT s; dQ := dQ s; F := F s;
     Cl := Cl s; Cd := Cd s; sigma := x |}.

Definition set_F (x : R) (s : t) : t :=
  {| airfoil := airfoil s; radius := radius s; width := width s;
     pitch := pitch s; chord := chord s; C := C s; v := v s;
     v_theta := v_theta s; v_rel := v_rel s; a := a s; ap := ap s;
     Re := Re s; alpha := alpha s; dT := dT s; dQ := dQ s; F := x;
     Cl := Cl s; Cd := Cd s; sigma := sigma s |}.

Definition set_a (x : R) (s : t) : t :=
  {| airfoil := airfoil s; radius := radius s; width := width s;
     pitch := pitch s; chord := chord s; C := C s; v := v s;
     v_theta := v_theta s; v_rel := v_rel s; a := x; ap := ap s;
     Re := Re s; alpha := alpha s; dT := dT s; dQ := dQ s; F := F s;
     Cl := Cl s; Cd := Cd s; sigma := sigma s |}.

Definition set_ap (x : R) (s : t) : t :=
  {| airfoil := airfoil s; radius := radius s; width := width s;
     pitch := pitch s; chord := chord s; C := C s; v := v s;
     v_theta := v_theta s; v_rel := v_rel s; a := a s; ap := x;
     Re := Re s; alpha := alpha s; dT := dT s; dQ := dQ s; F := F s;
     Cl := Cl s; Cd := Cd s; sigma := sigma s |}.

Definition set_Re (x : R) (s : t) : t :=
  {| airfoil := airfoil s; radius := radius s; width := width s;
     pitch := pitch s; chord := chord s; C := C s; v := v s;
     v_theta := v_theta s; v_rel := v_rel s; a := a s; ap := ap s;
     Re := x; alpha := alpha s; dT := dT s; dQ := dQ s; F := F s;
     Cl := Cl s; Cd := Cd s; sigma := sigma s |}.

Definition set_dT (x : R) (s : t) : t :=
  {| airfoil := airfoil s; radius := radius s; width := width s;
     pitch := pitch s; chord := chord s; C := C s; v := v s;
     v_theta := v_theta s; v_rel := v_rel s; a := a s; ap := ap s;
     Re := Re s; alpha := alpha s; dT := x; dQ := dQ s; F := F s;
     Cl := Cl s; Cd := Cd s; sigma := sigma s |}.

Definition set_dQ (x : R) (s : t) : t :=
  {| airfoil := airfoil s; radius := radius s; width := width s;
     pitch := pitch s; chord := chord s; C := C s; v := v s;
     v_theta := v_theta s; v_rel := v_rel s; a := a s; ap := ap s;
     Re := Re s; alpha := alpha s; dT := dT s; dQ := x; F := F s;
     Cl := Cl s; Cd := Cd s; sigma := sigma s |}.

Definition set_pitch (x : R) (s : t) : t :=
  {| airfoil := airfoil s; radius := radius s; width := width s;
     pitch := x; chord := chord s; C := C s; v := v s;
     v_theta := v_theta s; v_rel := v_rel s; a := a s; ap := ap s;
     Re := Re s; alpha := alpha s; dT := dT s; dQ := dQ s; F := F s;
     Cl := Cl s; Cd := Cd s; sigma := sigma s |}.

(** The sign convention chosen in [__init__]: -1 for a turbine, 1 for
    every other mode. *)
Definition C_of_mode (mode : string) : R :=
  if String.eqb mode "turbine" then -1 else 1.

(** def precalc(self) *)
Definition precalc (rotor : RotorGeometry) : M t unit :=
  c <- gets chord ;;
  r <- gets radius ;;
  sg <- Py.div (IZR (n_blades rotor) * c) (2 * PI * r) ;;
  modify (set_sigma sg).

(** def __init__(self, airfoil, radius, width, pitch, chord, rotor, mode):
    the new object, or the exception of its [precalc]. *)
Definition init (af : Airfoil) (radius width pitch chord : R)
           (rotor : RotorGeometry) (mode : string) : result t :=
  let self :=
    {| airfoil := af; radius := radius; width := width; pitch := pitch;
       chord := chord; C := C_of_mode mode;
       v := 0; v_theta := 0; v_rel := 0; a := 0; ap := 0; Re := 0;
       alpha := 0; dT := 0; dQ := 0; F := 0; Cl := 0; Cd := 0;
       sigma := 0 |} in
  match precalc rotor self with
  | (Ok _, self') => Ok self'
  | (Raise e, _) => Raise e
  end.

(** The branch of [prandtl] that evaluates the formula,
    [2*acos(min(1.0, exp(-f)))/pi]. *)
Definition prandtl_formula {S} (f : R) : M S R :=
  e <- Py.exp (- f) ;;
  ac <- Py.acos (Py.min 1 e) ;;
  Py.div (2 * ac) PI.

(** The inner function [prandtl(dr, r, phi)] of [tip_loss]. *)
Definition prandtl {S} (rotor : RotorGeometry) (dr r phi : R) : M S R :=
  f <- Py.div (IZR (n_blades rotor) * dr) (2 * r * sin phi) ;;
  if Rgt_dec (- f) 500 then ret 1
  else prandtl_formula f.

(** def tip_loss(self, phi) *)
Definition tip_loss (rotor : RotorGeometry) (phi : R) : M t R :=
  F <- (if Req_dec_T phi 0 then ret 1
        else
          r <- gets radius ;;
          Ftip <- prandtl rotor (blade_radius rotor - r) r phi ;;
          Fhub <- prandtl rotor (r - radius_hub rotor) r phi ;;
          ret (Ftip * Fhub)) ;;
  modify (set_F F) ;;;
  ret F.

(** The angle of attack of [airfoil_forces], as a function of the sign
    convention. *)
Definition angle_of_attack (C pitch phi : R) : R := C * (pitch - phi).

(** def airfoil_forces(self, phi) *)
Definition airfoil_forces (phi : R) : M t (R * R) :=
  C <- gets C ;;
  p <- gets pitch ;;
  let alpha := angle_of_attack C p phi in
  af <- gets airfoil ;;
  let Cl := airfoil_Cl af alpha in
  let Cd := airfoil_Cd af alpha in
  let CT := Cl * cos phi - C * Cd * sin phi in
  let CQ := Cl * sin phi + C * Cd * cos phi in
  ret (CT, CQ).

(** def induction_factors(self, phi) *)
Definition induction_factors (rotor : RotorGeometry) (phi : R)
  : M t (R * R) :=
  C <- gets C ;;
  F <- tip_loss rotor phi ;;
  '(CT, CQ) <- airfoil_forces phi ;;
  sg <- gets sigma ;;
  kappa <- Py.div (4 * F * sin phi ^ 2) (sg * CT) ;;
  kappap <- Py.div (4 * F * sin phi * cos phi) (sg * CQ) ;;
  a <- Py.div 1 (kappa - C) ;;
  ap <- Py.div 1 (kappap + C) ;;
  ret (a, ap).

(** def func(self, phi, v_inf, omega): the residual of one blade
    element. *)
Definition func (rotor : RotorGeometry) (phi v_inf omega : R) : M t R :=
  C <- gets C ;;
  '(a, ap) <- induction_factors rotor phi ;;
  r <- gets radius ;;
  x <- Py.div (sin phi) (1 + C * a) ;;
  y <- Py.div (v_inf * cos phi) (omega * r * (1 - C * ap)) ;;
  let resid := x - y in
  modify (set_a a) ;;;
  modify (set_ap ap) ;;;
  ret resid.

(** def forces(self, phi, v_inf, omega, fluid) *)
Definition forces (rotor : RotorGeometry) (phi v_inf omega : R)
           (fluid : Fluid) : M t (R * R) :=
  C <- gets C ;;
  r <- gets radius ;;
  let rho := rho fluid in
  '(a, ap) <- induction_factors rotor phi ;;
  '(CT, CQ) <- airfoil_forces phi ;;
  let v := (1 + C * a) * v_inf in
  let vp := (1 - C * ap) * omega * r in
  U <- Py.sqrt (v ^ 2 + vp ^ 2) ;;
  c <- gets chord ;;
  re <- Py.div (rho * U * c) (mu fluid) ;;
  modify (set_Re re) ;;;
  sg <- gets sigma ;;
  w <- gets width ;;
  modify (set_dT (sg * PI * rho * U ^ 2 * CT * r * w)) ;;;
  sg <- gets sigma ;;
  w <- gets width ;;
  modify (set_dQ (sg * PI * rho * U ^ 2 * CQ * r ^ 2 * w)) ;;;
  dT <- gets dT ;;
  dQ <- gets dQ ;;
  ret (dT, dQ).

(** [getattr(sec, param)] for the columns of the section summary. *)
Definition getattr (param : string) : M t R :=
  if String.eqb param "radius" then gets radius
  else if String.eqb param "chord" then gets chord
  else if String.eqb param "pitch" then gets pitch
  else if String.eqb param "Cl" then gets Cl
  else if String.eqb param "Cd" then gets Cd
  else if String.eqb param "dT" then gets dT
  else if String.eqb param "dQ" then gets dQ
  else if String.eqb param "F" then gets F
  else if String.eqb param "a" then gets a
  else if String.eqb param "ap" then gets ap
  else if String.eqb param "Re" then gets Re
  else if String.eqb param "width" then gets width
  else if String.eqb param "sigma" then gets sigma
  else if String.eqb param "alpha" then gets alpha
  else if String.eqb param "v" then gets v
  else if String.eqb param "v_theta" then gets v_theta
  else if String.eqb param "v_rel" then gets v_rel
  else if String.eqb param "C" then gets C
  else raise AttributeError.

End BladeSection.

(** ** Loops over a list of mutable objects *)

(** [for x in xs: acc = body(acc, x)], each [x] mutated in place; an
    exception leaves the objects after the current one untouched. *)
Fixpoint for_each {A B : Type} (body : B -> M A B) (acc : B) (xs : list A)
  : result B * list A :=
  match xs with
  | [] => (Ok acc, [])
  | x :: rest =>
      match body acc x with
      | (Ok acc', x') =>
          let (r, rest') := for_each body acc' rest in (r, x' :: rest')
      | (Raise e, x') => (Raise e, x' :: rest)
      end
  end.

(** [[f(x) for x in xs]] *)
Fixpoint comprehension {A B : Type} (f : M A B) (xs : list A)
  : result (list B) * list A :=
  match xs with
  | [] => (Ok [], [])
  | x :: rest =>
      match f x with
      | (Ok b, x') =>
          match comprehension f rest with
          | (Ok bs, rest') => (Ok (b :: bs), x' :: rest')
          | (Raise e, rest') => (Raise e, x' :: rest')
          end
      | (Raise e, x') => (Raise e, x' :: rest)
      end
  end.

(** [for k in ks: body(k)] over immutable keys, in the state of the loop. *)
Fixpoint for_keys {S K B : Type} (body : K -> M S B) (ks : list K)
  : M S (list B) :=
  match ks with
  | [] => ret []
  | k :: rest => b <- body k ;; bs <- for_keys body rest ;; ret (b :: bs)
  end.

(** [for k in ks: acc = body(acc, k)] over immutable keys. *)
Fixpoint fold_keys {S K B : Type} (body : B -> K -> M S B) (acc : B)
         (ks : list K) : M S B :=
  match ks with
  | [] => ret acc
  | k :: rest => acc' <- body acc k ;; fold_keys body acc' rest
  end.

(** [enumerate(xs)] *)
Definition enumerate {A : Type} (xs : list A) : list (nat * A) :=
  combine (seq 0 (List.length xs)) xs.

(** [xs[i]]: IndexError when [i] is out of range. *)
Definition index {S A : Type} (xs : list A) (i : nat) : M S A :=
  match nth_error xs i with
  | Some x => ret x
  | None => raise IndexError
  end.

(** The sum of a column. *)
Definition Rsum (l : list R) : R := fold_right Rplus 0 l.

(** ** class Rotor *)

(** A pandas table of floats, column by column. *)
Definition DataFrame : Type := list (string * list R).

Module Rotor.

Record t : Type := {
  geom : RotorGeometry;
  n_sections : nat;
  alpha : list R;
  sections : list BladeSection.t
}.

Definition set_geom (g : RotorGeometry) (r : t) : t :=
  {| geom := g; n_sections := n_sections r; alpha := alpha r;
     sections := sections r |}.

Definition set_sections (l : list BladeSection.t) (r : t) : t :=
  {| geom := geom r; n_sections := n_sections r; alpha := alpha r;
     sections := l |}.

Definition set_blade_radius (x : R) (g : RotorGeometry) : RotorGeometry :=
  {| n_blades := n_blades g; diameter := diameter g;
     radius_hub := radius_hub g; blade_radius := x; area := area g |}.

Definition set_area (x : R) (g : RotorGeometry) : RotorGeometry :=
  {| n_blades := n_blades g; diameter := diameter g;
     radius_hub := radius_hub g; blade_radius := blade_radius g;
     area := x |}.

(** def precalc(self) *)
Definition precalc : M t unit :=
  d <- gets (fun r => diameter (geom r)) ;;
  modify (fun r => set_geom (set_blade_radius (0.5 * d) (geom r)) r) ;;;
  br <- gets (fun r => blade_radius (geom r)) ;;
  modify (fun r => set_geom (set_area (PI * br ^ 2) (geom r)) r).

Definition columns : list string :=
  ["radius"; "chord"; "pitch"; "Cl"; "Cd"; "dT"; "dQ"; "F"; "a"; "ap";
   "Re"]%string.

(** def sections_dataframe(self) *)
Definition sections_dataframe : M t DataFrame :=
  for_keys
    (fun param =>
       array <- zoom sections set_sections
                  (comprehension (BladeSection.getattr param)) ;;
       ret (param, array))
    columns.

(** The rotor at the start of [__init__]: blade count and diameter are
    known, nothing else is set yet. *)
Definition blank (nblades : Z) (d : R) : t :=
  {| geom := {| n_blades := nblades; diameter := d; radius_hub := 0;
                blade_radius := 0; area := 0 |};
     n_sections := 0; alpha := []; sections := [] |}.

Definition set_n_sections (n : nat) (r : t) : t :=
  {| geom := geom r; n_sections := n; alpha := alpha r;
     sections := sections r |}.

Definition set_alpha (l : list R) (r : t) : t :=
  {| geom := geom r; n_sections := n_sections r; alpha := l;
     sections := sections r |}.

Definition set_radius_hub (x : R) (g : RotorGeometry) : RotorGeometry :=
  {| n_blades := n_blades g; diameter := diameter g; radius_hub := x;
     blade_radius := blade_radius g; area := area g |}.

(** One turn of the loop of [__init__]: the arguments of [Section(...)] are
    read from the lists in the order they are written, the section is built
    and appended. *)
Definition add_section (s : list Airfoil) (c r dr : list R) (mode : string)
           (i : nat) : M t unit :=
  af <- index s i ;;
  ri <- index r i ;;
  dri <- index dr i ;;
  al <- (self <- gets (fun self => self) ;; index (alpha self) i) ;;
  ci <- index c i ;;
  g <- gets geom ;;
  sec <- (fun self =>
            match BladeSection.init af ri dri (Py.radians al) ci g mode with
            | Ok sec => (Ok sec, self)
            | Raise e => (Raise e, self)
            end) ;;
  modify (fun self => set_sections (sections self ++ [sec]) self).

(** def __init__(self, cfg, name, mode), from the values that the
    configuration holds once they are split and converted: the blade count,
    the diameter, the airfoils of [section], the lists [chord], [radius] and
    [pitch], the list [dr] when the option is there, and [radius_hub]. *)
Definition init (nblades : Z) (d : R) (s : list Airfoil) (c r : list R)
           (dr : option (list R)) (pitch : list R) (hub : R) (mode : string)
  : result t :=
  let body : M t unit :=
    modify (set_n_sections (List.length s)) ;;;
    n <- gets n_sections ;;
    dr' <- match dr with
           | Some l => ret l
           | None => r1 <- index r 1 ;;
                     r0 <- index r 0 ;;
                     ret (repeat (r1 - r0) n)
           end ;;
    modify (set_alpha pitch) ;;;
    modify (set_sections []) ;;;
    for_keys (add_section s c r dr' mode) (seq 0 n) ;;;
    modify (fun self => set_geom (set_radius_hub hub (geom self)) self) ;;;
    precalc in
  match body (blank nblades d) with
  | (Ok _, self) => Ok self
  | (Raise e, _) => Raise e
  end.

End Rotor.

(** ** class Solver *)

(** What [run] returns: four values, or eight for a coaxial pair. *)
Inductive RunResult : Type :=
| Single (T Q P : R) (df : DataFrame)
| Coaxial (T Q P : R) (df : DataFrame) (T2 Q2 P2 : R) (df2 : DataFrame).

(** The table that [run_sweep] fills: a row is empty until it is set. *)
Record SweepFrame : Type := {
  sweep_columns : list string;
  sweep_rows : list (option (list R))
}.

Module Solver.

Record t : Type := {
  v_inf : R;
  rpm : R;
  coaxial : bool;
  mode : string;
  rotor : Rotor.t;
  fluid : Fluid;
  T : R;
  Q : R;
  P : R;
  rpm2 : R;
  rotor2 : Rotor.t;
  zD : R;
  T2 : R;
  Q2 : R;
  P2 : R;
  solver : string;
  Cs : R;
  r_s : R;
  v_s : R
}.

Definition set_rotor (x : Rotor.t) (s : t) : t :=
  {| v_inf := v_inf s; rpm := rpm s; coaxial := coaxial s; mode := mode s;
     rotor := x; fluid := fluid s; T := T s; Q := Q s; P := P s;
     rpm2 := rpm2 s; rotor2 := rotor2 s; zD := zD s; T2 := T2 s;
     Q2 := Q2 s; P2 := P2 s; solver := solver s; Cs := Cs s;
     r_s := r_s s; v_s := v_s s |}.

Definition set_rotor2 (x : Rotor.t) (s : t) : t :=
  {| v_inf := v_inf s; rpm := rpm s; coaxial := coaxial s; mode := mode s;
     rotor := rotor s; fluid := fluid s; T := T s; Q := Q s; P := P s;
     rpm2 := rpm2 s; rotor2 := x; zD := zD s; T2 := T2 s;
     Q2 := Q2 s; P2 := P2 s; solver := solver s; Cs := Cs s;
     r_s := r_s s; v_s := v_s s |}.

(** [self.T, self.Q, self.P = ...] *)
Definition set_TQP (x : R * R * R) (s : t) : t :=
  let '(t0, q0, p0) := x in
  {| v_inf := v_inf s; rpm := rpm s; coaxial := coaxial s; mode := mode s;
     rotor := rotor s; fluid := fluid s; T := t0; Q := q0; P := p0;
     rpm2 := rpm2 s; rotor2 := rotor2 s; zD := zD s; T2 := T2 s;
     Q2 := Q2 s; P2 := P2 s; solver := solver s; Cs := Cs s;
     r_s := r_s s; v_s := v_s s |}.

(** [self.T2, self.Q2, self.P2 = ...] *)
Definition set_TQP2 (x : R * R * R) (s : t) : t :=
  let '(t0, q0, p0) := x in
  {| v_inf := v_inf s; rpm := rpm s; coaxial := coaxial s; mode := mode s;
     rotor := rotor s; fluid := fluid s; T := T s; Q := Q s; P := P s;
     rpm2 := rpm2 s; rotor2 := rotor2 s; zD := zD s; T2 := t0;
     Q2 := q0; P2 := p0; solver := solver s; Cs := Cs s;
     r_s := r_s s; v_s := v_s s |}.

(** [self.r_s, self.v_s = ...] *)
Definition set_slipstream (x : R * R) (s : t) : t :=
  {| v_inf := v_inf s; rpm := rpm s; coaxial := coaxial s; mode := mode s;
     rotor := rotor s; fluid := fluid s; T := T s; Q := Q s; P := P s;
     rpm2 := rpm2 s; rotor2 := rotor2 s; zD := zD s; T2 := T2 s;
     Q2 := Q2 s; P2 := P2 s; solver := solver s; Cs := Cs s;
     r_s := fst x; v_s := snd x |}.

Definition set_case (vinf rpm1 rpm2' cs : R) (s : t) : t :=
  {| v_inf := vinf; rpm := rpm1; coaxial := coaxial s; mode := mode s;
     rotor := rotor s; fluid := fluid s; T := T s; Q := Q s; P := P s;
     rpm2 := rpm2'; rotor2 := rotor2 s; zD := zD s; T2 := T2 s;
     Q2 := Q2 s; P2 := P2 s; solver := solver s; Cs := cs;
     r_s := r_s s; v_s := v_s s |}.

(** [setattr(self, parameter, p)] for a float [p].  The scalar attributes
    that a solve reads are [v_inf], [rpm], [rpm2] and [Cs]; the outputs of
    the last run can be named too, and any other name makes a fresh
    attribute that nothing reads.  Naming an attribute that holds an object
    or a flag ([rotor], [rotor2], [fluid], [mode], [solver], [coaxial])
    replaces it by a float, which is not a sweep of a scalar parameter:
    the model stops there with the AttributeError of its next use. *)
Definition setattr (parameter : string) (p : R) : M t unit :=
  if String.eqb parameter "v_inf" then
    modify (fun s => set_case p (rpm s) (rpm2 s) (Cs s) s)
  else if String.eqb parameter "rpm" then
    modify (fun s => set_case (v_inf s) p (rpm2 s) (Cs s) s)
  else if String.eqb parameter "rpm2" then
    modify (fun s => set_case (v_inf s) (rpm s) p (Cs s) s)
  else if String.eqb parameter "Cs" then
    modify (fun s => set_case (v_inf s) (rpm s) (rpm2 s) p s)
  else if String.eqb parameter "T" then
    modify (fun s => set_TQP (p, Q s, P s) s)
  else if String.eqb parameter "Q" then
    modify (fun s => set_TQP (T s, p, P s) s)
  else if String.eqb parameter "P" then
    modify (fun s => set_TQP (T s, Q s, p) s)
  else if String.eqb parameter "T2" then
    modify (fun s => set_TQP2 (p, Q2 s, P2 s) s)
  else if String.eqb parameter "Q2" then
    modify (fun s => set_TQP2 (T2 s, p, P2 s) s)
  else if String.eqb parameter "P2" then
    modify (fun s => set_TQP2 (T2 s, Q2 s, p) s)
  else if String.eqb parameter "r_s" then
    modify (fun s => set_slipstream (p, v_s s) s)
  else if String.eqb parameter "v_s" then
    modify (fun s => set_slipstream (r_s s, p) s)
  else if (String.eqb parameter "rotor" || String.eqb parameter "rotor2"
           || String.eqb parameter "fluid" || String.eqb parameter "mode"
           || String.eqb parameter "solver"
           || String.eqb parameter "coaxial")%bool then
    raise AttributeError
  else ret tt.

(** A method that reads [self] before it runs. *)
Definition with_self {A} (f : t -> M t A) : M t A := fun s => f s s.

(** def rotor_coeffs(self, T, Q, P) *)
Definition rotor_coeffs (T Q P : R) : M t (R * R * R * R * R) :=
  D <- gets (fun s => diameter (Rotor.geom (rotor s))) ;;
  rho <- gets (fun s => rho (fluid s)) ;;
  rpm <- gets rpm ;;
  let n := rpm / 60 in
  vinf <- gets v_inf ;;
  J <- Py.div vinf (n * D) ;;
  CT <- Py.div T (rho * n ^ 2 * D ^ 4) ;;
  CQ <- Py.div Q (rho * n ^ 2 * D ^ 5) ;;
  let CP := 2 * PI * CQ in
  eta <- (if Req_dec_T J 0
          then Py.div CT CP
          else (x <- Py.div CT CP ;; ret (x * J))) ;;
  ret (J, CT, CQ, CP, eta).

(** def turbine_coeffs(self, T, Q, P) *)
Definition turbine_coeffs (T Q P : R) : M t (R * R * R) :=
  rho <- gets (fun s => rho (fluid s)) ;;
  V <- gets v_inf ;;
  rpm <- gets rpm ;;
  let omega := rpm * 2 * PI / 60 in
  br <- gets (fun s => blade_radius (Rotor.geom (rotor s))) ;;
  TSR <- Py.div (omega * br) V ;;
  ar <- gets (fun s => area (Rotor.geom (rotor s))) ;;
  CT <- Py.div T (0.5 * rho * ar * V ^ 2) ;;
  ar <- gets (fun s => area (Rotor.geom (rotor s))) ;;
  CP <- Py.div P (0.5 * rho * ar * V ^ 3) ;;
  ret (TSR, CP, CT).

(** The loop of [brute_solve] that fills [resid]: a NaN residual is
    stored as 1e30. *)
Fixpoint brute_residuals {S} (func : R -> R -> R -> M S Np.float64)
         (v omega : R) (phis : list R) : M S (list Np.float64) :=
  match phis with
  | [] => ret []
  | phi :: rest =>
      res <- func phi v omega ;;
      let x := if negb (Np.isnan res) then res else Np.Finite 1e30 in
      xs <- brute_residuals func v omega rest ;;
      ret (x :: xs)
  end.

(** def brute_solve(self, sec, v, omega, n=3600): [func] is the bound
    method [sec.func] of the section it is given. *)
Definition brute_solve {S} (func : R -> R -> R -> M S Np.float64)
           (v omega : R) (n : nat) : M S R :=
  let phis := Np.linspace (- 0.9 * PI) (0.9 * PI) n in
  resid <- brute_residuals func v omega phis ;;
  i <- Np.argmin (map Np.fabs resid) ;;
  ret (nth i phis 0).

(** def slipstream(self) *)
Definition slipstream : M t (R * R) :=
  br <- gets (fun s => blade_radius (Rotor.geom (rotor s))) ;;
  s2 <- Py.sqrt 2 ;;
  r_s <- Py.div br s2 ;;
  cs <- gets Cs ;;
  T <- gets T ;;
  rho <- gets (fun s => rho (fluid s)) ;;
  ar <- gets (fun s => area (Rotor.geom (rotor s))) ;;
  q <- Py.div (2 * T) (rho * ar) ;;
  sq <- Py.sqrt q ;;
  let v_s := cs * sq in
  ret (r_s, v_s).

(** The residual of a blade section as [brute_solve] stores it in its
    float64 array. *)
Definition section_func (rg : RotorGeometry) (phi v omega : R)
  : M BladeSection.t Np.float64 :=
  res <- BladeSection.func rg phi v omega ;;
  ret (Np.Finite res).

Section Scipy.

(** [scipy.optimize.bisect(f, a, b)]: it calls [f], which mutates the
    section, and raises ValueError when [f(a)] and [f(b)] have the same
    sign. *)
Variable bisect : forall S : Type, (R -> M S R) -> R -> R -> M S R.

(** The inflow velocity that [solve] gives to a section. *)
Definition inflow (radius v_inflow r_inflow : R) : R :=
  if Rlt_dec radius r_inflow then v_inflow else 0.

(** The choice of solver in the loop of [solve]: brute force when it
    is asked for, else bisection on [0.01*pi, 0.9*pi] with brute force
    when bisection raises ValueError. *)
Definition find_phi (self : t) (rg : RotorGeometry) (v omega : R)
  : M BladeSection.t R :=
  if String.eqb (solver self) "brute"
  then brute_solve (section_func rg) v omega 3600
  else except_ValueError
         (bisect _ (fun phi => BladeSection.func rg phi v omega)
                 (0.01 * PI) (0.9 * PI))
         (brute_solve (section_func rg) v omega 3600).

(** The body of the loop of [solve], for one section. *)
Definition solve_section (self : t) (rg : RotorGeometry)
           (omega v_inflow r_inflow : R) (acc : R * R)
  : M BladeSection.t (R * R) :=
  let '(T, Q) := acc in
  r <- gets BladeSection.radius ;;
  let v := inflow r v_inflow r_inflow in
  phi <- find_phi self rg v omega ;;
  '(dT, dQ) <- BladeSection.forces rg phi v omega (fluid self) ;;
  ret (T + dT, Q + dQ).

(** def solve(self, rotor, rpm, v_inflow, r_inflow), run on the rotor
    it is given. *)
Definition solve (self : t) (rpm v_inflow r_inflow : R)
  : M Rotor.t (R * R * R) :=
  Rotor.precalc ;;;
  let omega := rpm * 2 * PI / 60 in
  rg <- gets Rotor.geom ;;
  '(T, Q) <- zoom Rotor.sections Rotor.set_sections
               (for_each (solve_section self rg omega v_inflow r_inflow)
                         (0, 0)) ;;
  let P := Q * omega in
  ret (T, Q, P).

(** def run(self), without its prints *)
Definition run : M t RunResult :=
  tqp <- with_self (fun self =>
           zoom rotor set_rotor
             (solve self (rpm self) (v_inf self)
                    (diameter (Rotor.geom (rotor self))))) ;;
  modify (set_TQP tqp) ;;;
  cx <- gets coaxial ;;
  if cx : bool then
    rv <- slipstream ;;
    modify (set_slipstream rv) ;;;
    tqp2 <- with_self (fun self =>
              zoom rotor2 set_rotor2
                (solve self (rpm2 self) (v_s self) (r_s self))) ;;
    modify (set_TQP2 tqp2) ;;;
    T <- gets T ;; Q <- gets Q ;; P <- gets P ;;
    df <- zoom rotor set_rotor Rotor.sections_dataframe ;;
    T2 <- gets T2 ;; Q2 <- gets Q2 ;; P2 <- gets P2 ;;
    df2 <- zoom rotor2 set_rotor2 Rotor.sections_dataframe ;;
    ret (Coaxial T Q P df T2 Q2 P2 df2)
  else
    T <- gets T ;; Q <- gets Q ;; P <- gets P ;;
    df <- zoom rotor set_rotor Rotor.sections_dataframe ;;
    ret (Single T Q P df).

(** [T, Q, P, sec_df = self.run()] *)
Definition unpack4 (r : RunResult) : M t (R * R * R * DataFrame) :=
  match r with
  | Single T Q P df => ret (T, Q, P, df)
  | Coaxial _ _ _ _ _ _ _ _ => raise ValueError
  end.

(** [T, Q, P, sec_df, T2, Q2, P2, sec_df2 = self.run()] *)
Definition unpack8 (r : RunResult)
  : M t (R * R * R * DataFrame * (R * R * R * DataFrame)) :=
  match r with
  | Single _ _ _ _ => raise ValueError
  | Coaxial T Q P df T2 Q2 P2 df2 =>
      ret (T, Q, P, df, (T2, Q2, P2, df2))
  end.

(** [pd.DataFrame(columns=cols, index=range(n))] *)
Definition new_frame (cols : list string) (n : nat) : SweepFrame :=
  {| sweep_columns := cols; sweep_rows := repeat None n |}.

Fixpoint set_nth {A} (i : nat) (x : A) (l : list A) : list A :=
  match l, i with
  | [], _ => []
  | _ :: l', O => x :: l'
  | y :: l', S i' => y :: set_nth i' x l'
  end.

(** [df.iloc[i] = row]: the row must have one value per column. *)
Definition iloc_set (i : nat) (row : list R) (df : SweepFrame)
  : M t SweepFrame :=
  if negb (Nat.eqb (List.length row) (List.length (sweep_columns df)))
  then raise ValueError
  else if negb (Nat.ltb i (List.length (sweep_rows df)))
  then raise IndexError
  else ret {| sweep_columns := sweep_columns df;
              sweep_rows := set_nth i (Some row) (sweep_rows df) |}.

(** The columns of the table of [run_sweep]. *)
Definition sweep_cols (self : t) (parameter : string) : list string :=
  if String.eqb (mode self) "turbine" then
    [parameter; "T"; "Q"; "P"; "TSR"; "CT"; "CP"]%string
  else if coaxial self then
    [parameter; "T"; "Q"; "P"; "J"; "CT"; "CQ"; "CP"; "eta";
     "CT2"; "CQ2"; "CP2"; "eta2"]%string
  else
    [parameter; "T"; "Q"; "P"; "J"; "CT"; "CQ"; "CP"; "eta"]%string.

(** One iteration of the loop of [run_sweep].  In the coaxial branch the
    row that is built reads [eta2], a name that is never bound. *)
Definition sweep_step (parameter : string)
           (acc : SweepFrame * list DataFrame) (ip : nat * R)
  : M t (SweepFrame * list DataFrame) :=
  let '(df, sections) := acc in
  let '(i, p) := ip in
  setattr parameter p ;;;
  md <- gets mode ;;
  '(df', sec_df) <-
    (if String.eqb md "turbine" then
       r <- run ;;
       '(T, Q, P, sec_df) <- unpack4 r ;;
       '(TSR, CP, CT) <- turbine_coeffs T Q P ;;
       df' <- iloc_set i [p; T; Q; P; TSR; CT; CP] df ;;
       ret (df', sec_df)
     else
       cx <- gets coaxial ;;
       if cx : bool then
         r <- run ;;
         '(T, Q, P, sec_df, (T2, Q2, P2, sec_df2)) <- unpack8 r ;;
         '(J, CT, CQ, CP, eta) <- rotor_coeffs T Q P ;;
         '(J, CT2, CQ2, CP2, eta) <- rotor_coeffs T2 Q2 P2 ;;
         raise NameError
       else
         r <- run ;;
         '(T, Q, P, sec_df) <- unpack4 r ;;
         '(J, CT, CQ, CP, eta) <- rotor_coeffs T Q P ;;
         df' <- iloc_set i [p; T; Q; P; J; CT; CQ; CP; eta] df ;;
         ret (df', sec_df)) ;;
  ret (df', sections ++ [sec_df]).

(** def run_sweep(self, parameter, n, low, high) *)
Definition run_sweep (parameter : string) (n : nat) (low high : R)
  : M t (SweepFrame * list DataFrame) :=
  df <- with_self (fun self => ret (new_frame (sweep_cols self parameter) n)) ;;
  fold_keys (sweep_step parameter) (df, [])
            (enumerate (Np.linspace low high n)).

(** [for sec, pitch in zip(self.rotor.sections, x):
      sec.pitch = np.radians(pitch)] *)
Fixpoint set_pitches (x : list R) (secs : list BladeSection.t)
  : list BladeSection.t :=
  match secs, x with
  | sec :: secs', p :: x' =>
      BladeSection.set_pitch (Py.radians p) sec :: set_pitches x' secs'
  | _, _ => secs
  end.

(** The objective [run_bemt(x)] that [optimize_pitch] hands to the
    optimizer, without its print. *)
Definition run_bemt (x : list R) : M t R :=
  modify (fun self =>
            set_rotor (Rotor.set_sections
                         (set_pitches x (Rotor.sections (rotor self)))
                         (rotor self)) self) ;;;
  r <- run ;;
  '(T, Q, P, df) <- unpack4 r ;;
  md <- gets mode ;;
  if String.eqb md "turbine" then ret (- P) else ret (- T).

End Scipy.

End Solver.

(** ** The solve, as the specification words it

    Recompute the rotor geometry; for each section the inflow velocity is
    [v_inflow] if its radius is below [r_inflow] and 0 otherwise; find phi;
    compute the forces; thrust and torque are the sums of the sections'
    [dT] and [dQ], and the power is [Q * omega]. *)

Module Spec.

Section Scipy.

Variable bisect : forall S : Type, (R -> M S R) -> R -> R -> M S R.

Definition section_loads (self : Solver.t) (rg : RotorGeometry)
           (omega v_inflow r_inflow : R) : M BladeSection.t (R * R) :=
  r <- gets BladeSection.radius ;;
  let v := if Rlt_dec r r_inflow then v_inflow else 0 in
  phi <- Solver.find_phi bisect self rg v omega ;;
  BladeSection.forces rg phi v omega (Solver.fluid self).

Definition solve_spec (self : Solver.t) (rpm v_inflow r_inflow : R)
  : M Rotor.t (R * R * R) :=
  Rotor.precalc ;;;
  let omega := rpm * 2 * PI / 60 in
  rg <- gets Rotor.geom ;;
  loads <- zoom Rotor.sections Rotor.set_sections
             (comprehension
                (section_loads self rg omega v_inflow r_inflow)) ;;
  let T := Rsum (map fst loads) in
  let Q := Rsum (map snd loads) in
  ret (T, Q, Q * omega).

End Scipy.

End Spec.

(** ** A rotor to compute with

    Two blades, diameter 1 m, hub radius 0.1 m, chord 0.05 m, pitch 10
    degrees, an airfoil with constant coefficients Cl = 0.5 and Cd = 0.02,
    air of density 1.225 and viscosity 1.8e-5, 10 m/s at 3000 rpm. *)

Module Example.

Definition constant_airfoil : Airfoil :=
  {| airfoil_Cl := fun _ => 0.5; airfoil_Cd := fun _ => 0.02 |}.

Definition air : Fluid := {| rho := 1.225; mu := 1.8e-5 |}.

Definition geometry : RotorGeometry :=
  {| n_blades := 2; diameter := 1; radius_hub := 0.1;
     blade_radius := 0.5; area := PI * 0.5 ^ 2 |}.

(** The section at radius [r] as [Section.__init__] leaves it. *)
Definition section_at (r : R) (mode : string) : BladeSection.t :=
  {| BladeSection.airfoil := constant_airfoil;
     BladeSection.radius := r;
     BladeSection.width := 0.1;
     BladeSection.pitch := Py.radians 10;
     BladeSection.chord := 0.05;
     BladeSection.C := BladeSection.C_of_mode mode;
     BladeSection.v := 0; BladeSection.v_theta := 0;
     BladeSection.v_rel := 0; BladeSection.a := 0; BladeSection.ap := 0;
     BladeSection.Re := 0; BladeSection.alpha := 0; BladeSection.dT := 0;
     BladeSection.dQ := 0; BladeSection.F := 0; BladeSection.Cl := 0;
     BladeSection.Cd := 0;
     BladeSection.sigma := 2 * 0.05 / (2 * PI * r) |}.

(** The section in the middle of the blade and the one at its tip. *)
Definition mid_section : BladeSection.t := section_at 0.3 "rotor".
Definition tip_section : BladeSection.t := section_at 0.5 "rotor".

(** A rotor of one section, in propeller or in turbine mode. *)
Definition rotor_of (mode : string) : Rotor.t :=
  {| Rotor.geom := geometry; Rotor.n_sections := 1;
     Rotor.alpha := [10]; Rotor.sections := [section_at 0.3 mode] |}.

(** The solver on two such rotors, before its first run. *)
Definition case (mode : string) (coaxial : bool) (solver : string)
  : Solver.t :=
  {| Solver.v_inf := 10; Solver.rpm := 3000; Solver.coaxial := coaxial;
     Solver.mode := mode; Solver.rotor := rotor_of mode;
     Solver.fluid := air; Solver.T := 0; Solver.Q := 0; Solver.P := 0;
     Solver.rpm2 := 3000; Solver.rotor2 := rotor_of mode;
     Solver.zD := 0.5;
     Solver.T2 := 0; Solver.Q2 := 0; Solver.P2 := 0;
     Solver.solver := solver; Solver.Cs := 0.625;
     Solver.r_s := 0; Solver.v_s := 0 |}.

(** A root finder that answers pi/2 without evaluating the residual: the
    stand-in for [scipy.optimize.bisect] where a run is followed by
    hand. *)
Definition oracle (S : Type) (f : R -> M S R) (a b : R) : M S R :=
  ret (PI / 2).


End Example.

(** ** The quantities of one blade element, as expressions

    What [airfoil_forces], [induction_factors] and [forces] compute at an
    angle [phi] once the tip-loss factor [F] is known, written without the
    exceptions; the lemmas below say when the methods return them. *)

Module Element.

Import BladeSection.

Definition alpha_at (s : t) (phi : R) : R :=
  angle_of_attack (C s) (pitch s) phi.

Definition Cl_at (s : t) (phi : R) : R :=
  airfoil_Cl (airfoil s) (alpha_at s phi).

Definition Cd_at (s : t) (phi : R) : R :=
  airfoil_Cd (airfoil s) (alpha_at s phi).

Definition CT (s : t) (phi : R) : R :=
  Cl_at s phi * cos phi - C s * Cd_at s phi * sin phi.

Definition CQ (s : t) (phi : R) : R :=
  Cl_at s phi * sin phi + C s * Cd_at s phi * cos phi.

Definition kappa (s : t) (F phi : R) : R :=
  4 * F * sin phi ^ 2 / (sigma s * CT s phi).

Definition kappap (s : t) (F phi : R) : R :=
  4 * F * sin phi * cos phi / (sigma s * CQ s phi).

Definition a_at (s : t) (F phi : R) : R := 1 / (kappa s F phi - C s).

Definition ap_at (s : t) (F phi : R) : R := 1 / (kappap s F phi + C s).

Definition resid (s : t) (F phi v_inf omega : R) : R :=
  sin phi / (1 + C s * a_at s F phi)
  - v_inf * cos phi / (omega * radius s * (1 - C s * ap_at s F phi)).

Definition U (s : t) (F phi v_inf omega : R) : R :=
  sqrt (((1 + C s * a_at s F phi) * v_inf) ^ 2
        + ((1 - C s * ap_at s F phi) * omega * radius s) ^ 2).

Definition Re_at (s : t) (fluid : Fluid) (F phi v_inf omega : R) : R :=
  rho fluid * U s F phi v_inf omega * chord s / mu fluid.

Definition dT_at (s : t) (fluid : Fluid) (F phi v_inf omega : R) : R :=
  sigma s * PI * rho fluid * U s F phi v_inf omega ^ 2 * CT s phi
  * radius s * width s.

Definition dQ_at (s : t) (fluid : Fluid) (F phi v_inf omega : R) : R :=
  sigma s * PI * rho fluid * U s F phi v_inf omega ^ 2 * CQ s phi
  * radius s ^ 2 * width s.

(** The section after [forces] has stored its results. *)
Definition after_forces (s : t) (fluid : Fluid) (F phi v_inf omega : R)
  : t :=
  set_dQ (dQ_at s fluid F phi v_inf omega)
    (set_dT (dT_at s fluid F phi v_inf omega)
       (set_Re (Re_at s fluid F phi v_inf omega) (set_F F s))).

End Element.

(** ** The vocabulary of the properties *)

(** What a method leaves untouched.

    [respects rel m]: whatever [m] does, returning or raising, the state it
    leaves is related by [rel] to the state it started from. *)

Definition respects {S A} (rel : S -> S -> Prop) (m : M S A) : Prop :=
  forall s, rel s (snd (m s)).

(** The attributes of a section that only the solver's reporting reads
    ([Cl], [Cd]) or that only [func] writes ([a], [ap]), together with the
    geometry. *)
Definition unreported (s s' : BladeSection.t) : Prop :=
  BladeSection.Cl s' = BladeSection.Cl s
  /\ BladeSection.Cd s' = BladeSection.Cd s
  /\ BladeSection.a s' = BladeSection.a s
  /\ BladeSection.ap s' = BladeSection.ap s.

(** A rotor geometry that agrees with the example on what a section
    reads. *)
Definition like_example (g : RotorGeometry) : Prop :=
  n_blades g = 2%Z /\ radius_hub g = 0.1 /\ blade_radius g = 0.5.

(** The table that [sections_dataframe] builds from the attributes of the
    sections. *)
Definition summary_of (secs : list BladeSection.t) : DataFrame :=
  [("radius", map BladeSection.radius secs);
   ("chord", map BladeSection.chord secs);
   ("pitch", map BladeSection.pitch secs);
   ("Cl", map BladeSection.Cl secs);
   ("Cd", map BladeSection.Cd secs);
   ("dT", map BladeSection.dT secs);
   ("dQ", map BladeSection.dQ secs);
   ("F", map BladeSection.F secs);
   ("a", map BladeSection.a secs);
   ("ap", map BladeSection.ap secs);
   ("Re", map BladeSection.Re secs)]%string.

(** What a method guarantees when it returns. *)

Definition ensures {S A} (m : M S A) (post : A -> S -> Prop) : Prop :=
  forall s a s', m s = (Ok a, s') -> post a s'.

(** The rotor once [precalc] has recomputed blade radius and area. *)
Definition recomputed (rot : Rotor.t) : Rotor.t :=
  Rotor.set_geom
    (Rotor.set_area (PI * (0.5 * diameter (Rotor.geom rot)) ^ 2)
       (Rotor.set_blade_radius (0.5 * diameter (Rotor.geom rot))
          (Rotor.geom rot)))
    (Rotor.set_geom
       (Rotor.set_blade_radius (0.5 * diameter (Rotor.geom rot))
          (Rotor.geom rot)) rot).


(** The state of the solver once the primary rotor is solved and the
    totals are stored. *)
Definition after_primary (self : Solver.t) (tqp : R * R * R)
           (rot' : Rotor.t) : Solver.t :=
  Solver.set_TQP tqp (Solver.set_rotor rot' self).

(** The first call of [run]. *)
Definition primary_solve
           (bisect : forall S : Type, (R -> M S R) -> R -> R -> M S R)
           (self : Solver.t) : result (R * R * R) * Rotor.t :=
  Solver.solve bisect self (Solver.rpm self) (Solver.v_inf self)
    (diameter (Rotor.geom (Solver.rotor self))) (Solver.rotor self).

(** [fails m s]: run from [s], [m] raises. *)
Definition fails {S A} (m : M S A) (s : S) : Prop :=
  exists e s', m s = (Raise e, s').

(** The geometry of a section: what [__init__] sets and no method is meant
    to change. *)
Definition same_geometry (s s' : BladeSection.t) : Prop :=
  BladeSection.airfoil s' = BladeSection.airfoil s
  /\ BladeSection.radius s' = BladeSection.radius s
  /\ BladeSection.width s' = BladeSection.width s
  /\ BladeSection.pitch s' = BladeSection.pitch s
  /\ BladeSection.chord s' = BladeSection.chord s
  /\ BladeSection.C s' = BladeSection.C s
  /\ BladeSection.sigma s' = BladeSection.sigma s.

(** A root finder that touches the section only by calling the function
    it is given: whatever every call of [f] respects, the search
    respects. *)
Definition calls_only
           (bisect : forall S : Type, (R -> M S R) -> R -> R -> M S R)
  : Prop :=
  forall (S : Type) (rel : S -> S -> Prop),
    (forall s, rel s s) ->
    (forall s1 s2 s3, rel s1 s2 -> rel s2 s3 -> rel s1 s3) ->
    forall (f : R -> M S R) (a b : R),
      (forall x, respects rel (f x)) -> respects rel (bisect S f a b).

(** A section that [__init__] has just built for the mode [mode] of a rotor
    of [nb] blades. *)
Definition fresh_section (nb : Z) (mode : string) (sec : BladeSection.t)
  : Prop :=
  BladeSection.C sec = BladeSection.C_of_mode mode
  /\ BladeSection.sigma sec * (2 * PI * BladeSection.radius sec)
     = IZR nb * BladeSection.chord sec
  /\ BladeSection.a sec = 0 /\ BladeSection.ap sec = 0
  /\ BladeSection.Re sec = 0 /\ BladeSection.dT sec = 0
  /\ BladeSection.dQ sec = 0 /\ BladeSection.F sec = 0
  /\ BladeSection.Cl sec = 0 /\ BladeSection.Cd sec = 0.

(** What a solve keeps of a rotor: blade count, diameter, hub radius, the
    configured pitches, and section by section the geometry. *)
Definition rotor_kept (rot rot' : Rotor.t) : Prop :=
  n_blades (Rotor.geom rot') = n_blades (Rotor.geom rot)
  /\ diameter (Rotor.geom rot') = diameter (Rotor.geom rot)
  /\ radius_hub (Rotor.geom rot') = radius_hub (Rotor.geom rot)
  /\ Rotor.alpha rot' = Rotor.alpha rot
  /\ Rotor.n_sections rot' = Rotor.n_sections rot
  /\ Forall2 same_geometry (Rotor.sections rot) (Rotor.sections rot').

(** What a run keeps of the solver: the case (velocities, rotation speeds,
    mode, fluid, choice of solver, slipstream coefficient) and both
    rotors, up to the results stored on them. *)
Definition case_kept (s s' : Solver.t) : Prop :=
  Solver.v_inf s' = Solver.v_inf s /\ Solver.rpm s' = Solver.rpm s
  /\ Solver.rpm2 s' = Solver.rpm2 s
  /\ Solver.coaxial s' = Solver.coaxial s
  /\ Solver.mode s' = Solver.mode s /\ Solver.fluid s' = Solver.fluid s
  /\ Solver.solver s' = Solver.solver s /\ Solver.Cs s' = Solver.Cs s
  /\ Solver.zD s' = Solver.zD s
  /\ rotor_kept (Solver.rotor s) (Solver.rotor s')
  /\ rotor_kept (Solver.rotor2 s) (Solver.rotor2 s').

(** The column of a table. *)
Definition column (name : string) (df : DataFrame) : list R :=
  match find (fun col => String.eqb (fst col) name) df with
  | Some col => snd col
  | None => []
  end.

(** The row that an iteration stores. *)
Definition row_stored (df : SweepFrame) (i : nat) (p : R)
           (df' : SweepFrame) : Prop :=
  exists rest,
    List.length (p :: rest) = List.length (sweep_columns df)
    /\ (i < List.length (sweep_rows df))%nat
    /\ df' = {| sweep_columns := sweep_columns df;
                sweep_rows := Solver.set_nth i (Some (p :: rest))
                                (sweep_rows df) |}.

(** A filled row: its first value is the sample of the parameter and it
    has one value per column. *)
Definition row_of (cols : list string) (row : option (list R)) (p : R)
  : Prop :=
  exists rest,
    row = Some (p :: rest)
    /\ List.length (p :: rest) = List.length cols.

(** A parameter of a sweep that names a number of the case: not one of
    the attributes of the solver that hold an object, a flag or a name,
    which [setattr] would replace by a float. *)
Definition scalar_parameter (parameter : string) : Prop :=
  ~ In parameter ["rotor"; "rotor2"; "fluid"; "mode"; "solver";
                  "coaxial"]%string.

(** * Properties *)

(** ** Stepping through a computation *)

Lemma bind_ok {S A B} (m : M S A) (k : A -> M S B) s a s' :
  m s = (Ok a, s') -> bind m k s = k a s'.
Proof. intros H. unfold bind. now rewrite H. Qed.

Lemma bind_raise {S A B} (m : M S A) (k : A -> M S B) s e s' :
  m s = (Raise e, s') -> bind m k s = (Raise e, s').
Proof. intros H. unfold bind. now rewrite H. Qed.

Lemma bind_ret {S A B} (a : A) (k : A -> M S B) s :
  bind (ret a) k s = k a s.
Proof. reflexivity. Qed.

Lemma bind_gets {S A B} (f : S -> A) (k : A -> M S B) s :
  bind (gets f) k s = k (f s) s.
Proof. reflexivity. Qed.

Lemma bind_modify {S B} (f : S -> S) (k : unit -> M S B) s :
  bind (modify f) k s = k tt (f s).
Proof. reflexivity. Qed.

Lemma div_ok {S} (x y : R) (s : S) :
  y <> 0 -> Py.div x y s = (Ok (x / y), s).
Proof.
  intros H. unfold Py.div. destruct (Req_dec_T y 0); [contradiction|reflexivity].
Qed.

Lemma div_zero {S} (x y : R) (s : S) :
  y = 0 -> Py.div x y s = (Raise ZeroDivisionError, s).
Proof.
  intros H. unfold Py.div. destruct (Req_dec_T y 0); [reflexivity|contradiction].
Qed.

Lemma sqrt_ok {S} (x : R) (s : S) :
  0 <= x -> Py.sqrt x s = (Ok (sqrt x), s).
Proof.
  intros H. unfold Py.sqrt. destruct (Rlt_dec x 0); [lra|reflexivity].
Qed.

Lemma sqrt_negative {S} (x : R) (s : S) :
  x < 0 -> Py.sqrt x s = (Raise ValueError, s).
Proof.
  intros H. unfold Py.sqrt. destruct (Rlt_dec x 0); [reflexivity|lra].
Qed.

Lemma acos_ok {S} (x : R) (s : S) :
  -1 <= x <= 1 -> Py.acos x s = (Ok (acos x), s).
Proof.
  intros H. unfold Py.acos.
  destruct (Rlt_dec x (-1)); [lra|]. destruct (Rlt_dec 1 x); [lra|reflexivity].
Qed.

Lemma exp_ok {S} (x : R) (s : S) :
  x <= Py.exp_max -> Py.exp x s = (Ok (exp x), s).
Proof.
  intros H. unfold Py.exp. destruct (Rlt_dec Py.exp_max x); [lra|reflexivity].
Qed.

Lemma exp_overflow {S} (x : R) (s : S) :
  Py.exp_max < x -> Py.exp x s = (Raise OverflowError, s).
Proof.
  intros H. unfold Py.exp. destruct (Rlt_dec Py.exp_max x); [reflexivity|lra].
Qed.

Lemma exp_max_bounds : 500 < Py.exp_max < 710.
Proof. unfold Py.exp_max. lra. Qed.

(** ** The Prandtl factor *)

Lemma acos_lt_PI2 x : 0 < x < 1 -> 0 < acos x < PI / 2.
Proof.
  intros Hx.
  destruct (acos_bound_lt x ltac:(lra)) as [H0 HPI].
  split; [exact H0|].
  destruct (Rlt_dec (acos x) (PI / 2)) as [|Hge]; [assumption|exfalso].
  assert (Hc : cos (acos x) <= 0) by (apply cos_le_0; lra).
  rewrite cos_acos in Hc by lra. lra.
Qed.

Lemma exp_neg_lt_1 f : 0 < f -> 0 < exp (- f) < 1.
Proof.
  intros Hf. split; [apply exp_pos|].
  rewrite <- exp_0. apply exp_increasing. lra.
Qed.

Lemma exp_nonneg_ge_1 x : 0 <= x -> 1 <= exp x.
Proof.
  intros [Hx | <-].
  - left. rewrite <- exp_0. now apply exp_increasing.
  - rewrite exp_0. lra.
Qed.

(** The formula on a positive [f] lies strictly between 0 and 1. *)
Lemma prandtl_formula_pos {S} (f : R) (s : S) :
  0 < f ->
  exists x, BladeSection.prandtl_formula f s = (Ok x, s) /\ 0 < x < 1.
Proof.
  intros Hf. pose proof exp_max_bounds as Hm.
  destruct (exp_neg_lt_1 f Hf) as [He0 He1].
  unfold BladeSection.prandtl_formula.
  rewrite (bind_ok _ _ _ _ _ (exp_ok (- f) s ltac:(lra))).
  assert (Hmin : Py.min 1 (exp (- f)) = exp (- f)).
  { unfold Py.min. destruct (Rlt_dec (exp (- f)) 1); [reflexivity|lra]. }
  rewrite Hmin.
  rewrite (bind_ok _ _ _ _ _ (acos_ok (exp (- f)) s ltac:(lra))).
  rewrite (div_ok _ _ s PI_neq0).
  destruct (acos_lt_PI2 (exp (- f)) ltac:(lra)) as [Ha0 Ha1].
  pose proof PI_RGT_0 as HPI.
  eexists; split; [reflexivity|]. split.
  - apply Rdiv_lt_0_compat; lra.
  - apply Rmult_lt_reg_r with PI; [lra|].
    unfold Rdiv. rewrite Rmult_assoc, Rinv_l by lra. lra.
Qed.

(** The formula on an [f] that is not positive is 0, as long as [exp]
    does not overflow. *)
Lemma prandtl_formula_nonpos {S} (f : R) (s : S) :
  f <= 0 -> - f <= Py.exp_max ->
  BladeSection.prandtl_formula f s = (Ok 0, s).
Proof.
  intros Hf Hm. unfold BladeSection.prandtl_formula.
  rewrite (bind_ok _ _ _ _ _ (exp_ok (- f) s Hm)).
  pose proof (exp_nonneg_ge_1 (- f) ltac:(lra)) as He.
  assert (Hmin : Py.min 1 (exp (- f)) = 1).
  { unfold Py.min. destruct (Rlt_dec (exp (- f)) 1); [lra|reflexivity]. }
  rewrite Hmin.
  rewrite (bind_ok _ _ _ _ _ (acos_ok 1 s ltac:(lra))).
  rewrite acos_1, (div_ok _ _ s PI_neq0). f_equal. f_equal. unfold Rdiv. ring.
Qed.

Lemma prandtl_formula_overflow {S} (f : R) (s : S) :
  Py.exp_max < - f ->
  BladeSection.prandtl_formula f s = (Raise OverflowError, s).
Proof.
  intros H. unfold BladeSection.prandtl_formula.
  now rewrite (bind_raise _ _ _ _ _ (exp_overflow (- f) s H)).
Qed.

(** Beyond the guard [prandtl] answers 1 whatever [exp] would do. *)
Lemma prandtl_guard {S} rotor (dr r phi : R) (s : S) :
  2 * r * sin phi <> 0 ->
  - (IZR (n_blades rotor) * dr / (2 * r * sin phi)) > 500 ->
  BladeSection.prandtl rotor dr r phi s = (Ok 1, s).
Proof.
  intros Hd Hf. unfold BladeSection.prandtl.
  rewrite (bind_ok _ _ _ _ _ (div_ok _ _ s Hd)).
  destruct (Rgt_dec _ 500); [reflexivity|contradiction].
Qed.

Lemma prandtl_below_guard {S} rotor (dr r phi : R) (s : S) :
  2 * r * sin phi <> 0 ->
  - (IZR (n_blades rotor) * dr / (2 * r * sin phi)) <= 500 ->
  BladeSection.prandtl rotor dr r phi s =
  BladeSection.prandtl_formula
    (IZR (n_blades rotor) * dr / (2 * r * sin phi)) s.
Proof.
  intros Hd Hf. unfold BladeSection.prandtl.
  rewrite (bind_ok _ _ _ _ _ (div_ok _ _ s Hd)).
  destruct (Rgt_dec _ 500); [lra|reflexivity].
Qed.

(** A positive gap seen under a positive sine gives a factor in (0, 1). *)
Lemma prandtl_interior {S} rotor (dr r phi : R) (s : S) :
  (1 <= n_blades rotor)%Z -> 0 < dr -> 0 < r -> 0 < sin phi ->
  exists x, BladeSection.prandtl rotor dr r phi s = (Ok x, s) /\ 0 < x < 1.
Proof.
  intros Hn Hdr Hr Hs.
  assert (HnR : 1 <= IZR (n_blades rotor)) by now apply IZR_le.
  assert (Hd : 0 < 2 * r * sin phi)
    by (apply Rmult_lt_0_compat; [lra|assumption]).
  assert (Hf : 0 < IZR (n_blades rotor) * dr / (2 * r * sin phi)).
  { apply Rdiv_lt_0_compat; [|assumption].
    apply Rmult_lt_0_compat; lra. }
  rewrite prandtl_below_guard by lra.
  now apply prandtl_formula_pos.
Qed.

(** No gap, no lift: at the tip and at the hub the factor is 0. *)
Lemma prandtl_zero_gap {S} rotor (r phi : R) (s : S) :
  2 * r * sin phi <> 0 ->
  BladeSection.prandtl rotor 0 r phi s = (Ok 0, s).
Proof.
  intros Hd. pose proof exp_max_bounds.
  assert (Hf : IZR (n_blades rotor) * 0 / (2 * r * sin phi) = 0)
    by (unfold Rdiv; ring).
  rewrite prandtl_below_guard by (try assumption; rewrite Hf; lra).
  rewrite Hf. apply prandtl_formula_nonpos; lra.
Qed.

(** A gap seen under a negative sine, short of the guard, gives 0. *)
Lemma prandtl_negative_sine {S} rotor (dr r phi : R) (s : S) :
  2 * r * sin phi <> 0 ->
  IZR (n_blades rotor) * dr / (2 * r * sin phi) <= 0 ->
  - (IZR (n_blades rotor) * dr / (2 * r * sin phi)) <= 500 ->
  BladeSection.prandtl rotor dr r phi s = (Ok 0, s).
Proof.
  intros Hd Hneg Hg. pose proof exp_max_bounds.
  rewrite prandtl_below_guard by assumption.
  apply prandtl_formula_nonpos; lra.
Qed.

(** Just beyond the guard the value jumps: for [-f] between 500 and the
    overflow threshold of [exp] the formula evaluates to 0, and [prandtl]
    answers 1. *)
Lemma prandtl_guard_jump {S} rotor (dr r phi : R) (s : S) :
  2 * r * sin phi <> 0 ->
  500 < - (IZR (n_blades rotor) * dr / (2 * r * sin phi)) <= Py.exp_max ->
  BladeSection.prandtl rotor dr r phi s = (Ok 1, s)
  /\ BladeSection.prandtl_formula
       (IZR (n_blades rotor) * dr / (2 * r * sin phi)) s = (Ok 0, s).
Proof.
  intros Hd [Hlo Hhi]. split.
  - apply prandtl_guard; [assumption|lra].
  - apply prandtl_formula_nonpos; lra.
Qed.

(** The formula tends to 1 as [f] grows. *)
Lemma prandtl_formula_limit (eps : R) :
  0 < eps ->
  exists m, forall (S : Type) (f : R) (s : S), m < f ->
    exists y, BladeSection.prandtl_formula f s = (Ok y, s)
              /\ Rabs (y - 1) < eps.
Proof.
  intros Heps. pose proof PI_RGT_0 as HPI.
  set (delta := Rmin (eps * PI / 2) (PI / 4)).
  assert (Hd0 : 0 < delta).
  { unfold delta. apply Rmin_glb_lt; [|lra].
    apply Rdiv_lt_0_compat; [apply Rmult_lt_0_compat; lra|lra]. }
  assert (Hd1 : delta <= eps * PI / 2) by apply Rmin_l.
  assert (Hd2 : delta <= PI / 4) by apply Rmin_r.
  set (theta := PI / 2 - delta).
  assert (Hc0 : 0 < cos theta) by (apply cos_gt_0; unfold theta; lra).
  assert (Hc1 : cos theta < 1).
  { rewrite <- cos_0. apply cos_decreasing_1; unfold theta; lra. }
  exists (Rmax 0 (- ln (cos theta))). intros S f s Hf.
  assert (Hf0 : 0 < f) by (pose proof (Rmax_l 0 (- ln (cos theta))); lra).
  assert (Hfl : - ln (cos theta) < f)
    by (pose proof (Rmax_r 0 (- ln (cos theta))); lra).
  destruct (prandtl_formula_pos f s Hf0) as [y [Hy [Hy0 Hy1]]].
  exists y. split; [exact Hy|].
  (* recover the value of y *)
  pose proof exp_max_bounds as Hm.
  destruct (exp_neg_lt_1 f Hf0) as [He0 He1].
  unfold BladeSection.prandtl_formula in Hy.
  rewrite (bind_ok _ _ _ _ _ (exp_ok (- f) s ltac:(lra))) in Hy.
  assert (Hmin : Py.min 1 (exp (- f)) = exp (- f)).
  { unfold Py.min. destruct (Rlt_dec (exp (- f)) 1); [reflexivity|lra]. }
  rewrite Hmin in Hy.
  rewrite (bind_ok _ _ _ _ _ (acos_ok (exp (- f)) s ltac:(lra))) in Hy.
  rewrite (div_ok _ _ s PI_neq0) in Hy.
  injection Hy as Hy.
  assert (Hex : exp (- f) < cos theta).
  { rewrite <- (exp_ln (cos theta)) by assumption.
    apply exp_increasing. lra. }
  destruct (acos_lt_PI2 (exp (- f)) ltac:(lra)) as [Ha0 Ha1].
  assert (Hth : theta < acos (exp (- f))).
  { destruct (Rlt_dec theta (acos (exp (- f)))) as [|Hge]; [assumption|].
    exfalso.
    assert (Hle : acos (exp (- f)) <= theta) by lra.
    assert (Hcc : cos theta <= cos (acos (exp (- f)))).
    { apply cos_decr_1; unfold theta in *; lra. }
    rewrite cos_acos in Hcc by lra. lra. }
  rewrite Rabs_left by lra.
  subst y. unfold theta in Hth.
  apply Rmult_lt_reg_r with PI; [lra|].
  replace (- (2 * acos (exp (- f)) / PI - 1) * PI)
    with (PI - 2 * acos (exp (- f))) by (field; lra).
  assert (2 * delta <= eps * PI) by lra. lra.
Qed.

(** ** The tip-loss factor *)

Lemma tip_loss_zero rotor (s : BladeSection.t) :
  BladeSection.tip_loss rotor 0 s = (Ok 1, BladeSection.set_F 1 s).
Proof.
  unfold BladeSection.tip_loss.
  destruct (Req_dec_T 0 0) as [_|H]; [reflexivity|now elim H].
Qed.

Lemma tip_loss_product rotor phi (s : BladeSection.t) x y :
  phi <> 0 ->
  BladeSection.prandtl rotor
    (blade_radius rotor - BladeSection.radius s) (BladeSection.radius s) phi s
  = (Ok x, s) ->
  BladeSection.prandtl rotor
    (BladeSection.radius s - radius_hub rotor) (BladeSection.radius s) phi s
  = (Ok y, s) ->
  BladeSection.tip_loss rotor phi s = (Ok (x * y), BladeSection.set_F (x * y) s).
Proof.
  intros Hphi Hx Hy. unfold BladeSection.tip_loss.
  destruct (Req_dec_T phi 0) as [H|_]; [contradiction|].
  unfold bind, gets, modify, ret. cbv beta.
  rewrite Hx, Hy. reflexivity.
Qed.

(** When a Prandtl factor raises, so does [tip_loss], and [F] is not
    stored. *)
Lemma tip_loss_fails_tip rotor phi (s : BladeSection.t) e :
  phi <> 0 ->
  BladeSection.prandtl rotor
    (blade_radius rotor - BladeSection.radius s) (BladeSection.radius s) phi s
  = (Raise e, s) ->
  BladeSection.tip_loss rotor phi s = (Raise e, s).
Proof.
  intros Hphi Hx. unfold BladeSection.tip_loss.
  destruct (Req_dec_T phi 0) as [H|_]; [contradiction|].
  unfold bind, gets, modify, ret. cbv beta.
  now rewrite Hx.
Qed.

Lemma sin_pos_neq0 phi : 0 < phi < PI -> 0 < sin phi /\ phi <> 0.
Proof. intros [H0 H1]. split; [now apply sin_gt_0|lra]. Qed.

(** The factor of a section strictly between hub and tip. *)
Lemma tip_loss_interior rotor (s : BladeSection.t) phi :
  (1 <= n_blades rotor)%Z ->
  0 < BladeSection.radius s ->
  radius_hub rotor < BladeSection.radius s < blade_radius rotor ->
  0 < phi < PI ->
  exists F, BladeSection.tip_loss rotor phi s = (Ok F, BladeSection.set_F F s)
            /\ 0 < F < 1.
Proof.
  intros Hn Hr [Hh Ht] Hphi.
  destruct (sin_pos_neq0 phi Hphi) as [Hs Hne].
  destruct (prandtl_interior rotor
              (blade_radius rotor - BladeSection.radius s)
              (BladeSection.radius s) phi s Hn ltac:(lra) Hr Hs)
    as [x [Hx [Hx0 Hx1]]].
  destruct (prandtl_interior rotor
              (BladeSection.radius s - radius_hub rotor)
              (BladeSection.radius s) phi s Hn ltac:(lra) Hr Hs)
    as [y [Hy [Hy0 Hy1]]].
  exists (x * y). split; [now apply tip_loss_product|].
  split; [now apply Rmult_lt_0_compat|]. nra.
Qed.

(** The factor of a section that sits on the tip or on the hub is 0. *)
Lemma tip_loss_boundary rotor (s : BladeSection.t) phi :
  (1 <= n_blades rotor)%Z ->
  0 < BladeSection.radius s ->
  radius_hub rotor <= BladeSection.radius s <= blade_radius rotor ->
  BladeSection.radius s = blade_radius rotor
  \/ BladeSection.radius s = radius_hub rotor ->
  0 < phi < PI ->
  BladeSection.tip_loss rotor phi s = (Ok 0, BladeSection.set_F 0 s).
Proof.
  intros Hn Hr [Hh Ht] Hb Hphi.
  destruct (sin_pos_neq0 phi Hphi) as [Hs Hne].
  assert (Hd : 2 * BladeSection.radius s * sin phi <> 0).
  { apply Rgt_not_eq. apply Rmult_lt_0_compat; lra. }
  assert (Hany : forall dr, 0 <= dr ->
            exists x, BladeSection.prandtl rotor dr (BladeSection.radius s)
                        phi s = (Ok x, s)).
  { intros dr [Hdr | <-].
    - destruct (prandtl_interior rotor dr _ phi s Hn Hdr Hr Hs) as [x [Hx _]].
      now exists x.
    - exists 0. now apply prandtl_zero_gap. }
  destruct Hb as [Hb | Hb].
  - destruct (Hany (BladeSection.radius s - radius_hub rotor) ltac:(lra))
      as [y Hy].
    replace 0 with (0 * y) by ring.
    apply tip_loss_product; [assumption| |assumption].
    rewrite <- Hb, Rminus_diag. now apply prandtl_zero_gap.
  - destruct (Hany (blade_radius rotor - BladeSection.radius s) ltac:(lra))
      as [x Hx].
    replace 0 with (x * 0) by ring.
    apply tip_loss_product; [assumption|assumption|].
    rewrite <- Hb, Rminus_diag. now apply prandtl_zero_gap.
Qed.

(** C2 (amended): for a section whose radius is positive and lies strictly
    between the hub radius and the blade radius, for at least one blade and
    for every phi in (0, pi), [tip_loss] returns a factor F with
    0 < F <= 1 and stores it on the section; on the tip or on the hub
    itself the factor is 0; for phi = 0 it is exactly 1. *)
Theorem tip_loss_range rotor (s : BladeSection.t) :
  BladeSection.tip_loss rotor 0 s = (Ok 1, BladeSection.set_F 1 s)
  /\ (forall phi,
        (1 <= n_blades rotor)%Z ->
        0 < BladeSection.radius s ->
        radius_hub rotor < BladeSection.radius s < blade_radius rotor ->
        0 < phi < PI ->
        exists F,
          BladeSection.tip_loss rotor phi s = (Ok F, BladeSection.set_F F s)
          /\ 0 < F <= 1)
  /\ (forall phi,
        (1 <= n_blades rotor)%Z ->
        0 < BladeSection.radius s ->
        radius_hub rotor <= BladeSection.radius s <= blade_radius rotor ->
        BladeSection.radius s = blade_radius rotor
        \/ BladeSection.radius s = radius_hub rotor ->
        0 < phi < PI ->
        BladeSection.tip_loss rotor phi s = (Ok 0, BladeSection.set_F 0 s)).
Proof.
  split; [apply tip_loss_zero|]. split.
  - intros phi Hn Hr Hb Hphi.
    destruct (tip_loss_interior rotor s phi Hn Hr Hb Hphi) as [F [HF HF01]].
    exists F. split; [exact HF|lra].
  - intros phi. apply tip_loss_boundary.
Qed.

(** The middle section of the example rotor at phi = pi/2. *)
Lemma tip_loss_range_witness :
  exists F,
    BladeSection.tip_loss Example.geometry (PI / 2) Example.mid_section
    = (Ok F, BladeSection.set_F F Example.mid_section)
    /\ 0 < F <= 1.
Proof.
  pose proof PI_RGT_0.
  apply (proj1 (proj2 (tip_loss_range Example.geometry Example.mid_section)));
    simpl; try lia; lra.
Defined.

(** C2 as stated fails: the section at the blade tip lies within
    [hub_radius, blade_radius], and its factor at phi = pi/2 is 0. *)
Lemma tip_loss_range_counterexample :
  ~ (forall rotor (s : BladeSection.t) phi,
       (1 <= n_blades rotor)%Z ->
       radius_hub rotor <= BladeSection.radius s <= blade_radius rotor ->
       0 < phi < PI ->
       exists F, fst (BladeSection.tip_loss rotor phi s) = Ok F
                 /\ 0 < F <= 1).
Proof.
  intros Hclaim. pose proof PI_RGT_0.
  destruct (Hclaim Example.geometry Example.tip_section (PI / 2))
    as [F [HF [HF0 _]]]; simpl; try lia; try lra.
  assert (H0 : BladeSection.tip_loss Example.geometry (PI / 2)
                 Example.tip_section
               = (Ok 0, BladeSection.set_F 0 Example.tip_section)).
  { apply tip_loss_boundary; simpl; try lia; lra. }
  rewrite H0 in HF. simpl in HF. injection HF as HF. lra.
Qed.

(** C4: whenever [-f > 500], [prandtl] returns exactly 1 and does so without
    evaluating [exp], which raises OverflowError once [-f] exceeds
    ln(max double); and 1 is the limit of the formula
    [2*acos(min(1, exp(-f)))/pi] as [f] tends to infinity. *)
Theorem prandtl_overflow_guard :
  (forall (S : Type) rotor (dr r phi : R) (s : S),
     2 * r * sin phi <> 0 ->
     - (IZR (n_blades rotor) * dr / (2 * r * sin phi)) > 500 ->
     BladeSection.prandtl rotor dr r phi s = (Ok 1, s))
  /\ (forall (S : Type) (f : R) (s : S),
        Py.exp_max < - f ->
        BladeSection.prandtl_formula f s = (Raise OverflowError, s))
  /\ (forall eps, 0 < eps ->
        exists m, forall (S : Type) (f : R) (s : S), m < f ->
          exists y, BladeSection.prandtl_formula f s = (Ok y, s)
                    /\ Rabs (y - 1) < eps).
Proof.
  split; [|split].
  - intros S rotor dr r phi s. apply prandtl_guard.
  - intros S f s. apply prandtl_formula_overflow.
  - apply prandtl_formula_limit.
Qed.

(** The guard on the example rotor: the tip gap of the middle section seen
    under phi = -1/1000. *)
Lemma prandtl_overflow_guard_witness :
  BladeSection.prandtl Example.geometry 0.2 0.3 (- (1 / 1000)) tt
  = (Ok 1, tt).
Proof.
  assert (Hs : 0 < sin (1 / 1000) < 1 / 1000).
  { pose proof PI_RGT_0. pose proof PI2_3_2.
    split; [apply sin_gt_0; lra|apply sin_lt_x; lra]. }
  apply (proj1 prandtl_overflow_guard); rewrite sin_neg; simpl.
  - lra.
  - apply Rlt_gt.
    set (x := 2 * 0.2). set (d := 2 * 0.3 * - sin (1 / 1000)).
    assert (Hd : d < 0) by (unfold d; lra).
    apply Rmult_lt_reg_r with (- d); [lra|].
    replace (- (x / d) * - d) with x by (field; lra).
    unfold x, d. lra.
Defined.

(** ** Propeller and turbine sign conventions *)

Lemma init_fields af r w p c rotor mode s :
  BladeSection.init af r w p c rotor mode = Ok s ->
  BladeSection.C s = BladeSection.C_of_mode mode
  /\ BladeSection.pitch s = p
  /\ BladeSection.airfoil s = af
  /\ BladeSection.radius s = r
  /\ BladeSection.sigma s = IZR (n_blades rotor) * c / (2 * PI * r).
Proof.
  unfold BladeSection.init, BladeSection.precalc, bind, gets, modify, ret.
  cbv beta. simpl. unfold Py.div.
  destruct (Req_dec_T (2 * PI * r) 0); simpl; [discriminate|].
  intros H. injection H as <-. simpl. repeat split.
Qed.

Lemma init_ok af r w p c rotor mode :
  r <> 0 ->
  exists s, BladeSection.init af r w p c rotor mode = Ok s.
Proof.
  intros Hr.
  unfold BladeSection.init, BladeSection.precalc, bind, gets, modify, ret.
  cbv beta. simpl. unfold Py.div.
  destruct (Req_dec_T (2 * PI * r) 0) as [H0|_]; simpl.
  - exfalso. pose proof PI_RGT_0. nra.
  - eexists. reflexivity.
Qed.

Lemma airfoil_forces_value phi (s : BladeSection.t) :
  let alpha :=
    BladeSection.angle_of_attack (BladeSection.C s) (BladeSection.pitch s) phi
  in
  let cl := airfoil_Cl (BladeSection.airfoil s) alpha in
  let cd := airfoil_Cd (BladeSection.airfoil s) alpha in
  BladeSection.airfoil_forces phi s
  = (Ok (cl * cos phi - BladeSection.C s * cd * sin phi,
         cl * sin phi + BladeSection.C s * cd * cos phi), s).
Proof. reflexivity. Qed.

(** C8: two sections built from the same geometry, one in propeller mode
    (C = +1) and one in turbine mode (C = -1), query their airfoil in
    [airfoil_forces] at angles of attack that are exact negations of each
    other, for every pitch and every phi. *)
Theorem alpha_propeller_turbine af r w p c rotor (sp st : BladeSection.t) :
  BladeSection.init af r w p c rotor "rotor" = Ok sp ->
  BladeSection.init af r w p c rotor "turbine" = Ok st ->
  BladeSection.C sp = 1 /\ BladeSection.C st = -1
  /\ forall phi,
       let alpha_p := BladeSection.angle_of_attack 1 p phi in
       let alpha_t := BladeSection.angle_of_attack (-1) p phi in
       alpha_p = - alpha_t
       /\ BladeSection.airfoil_forces phi sp
          = (Ok (airfoil_Cl af alpha_p * cos phi
                 - 1 * airfoil_Cd af alpha_p * sin phi,
                 airfoil_Cl af alpha_p * sin phi
                 + 1 * airfoil_Cd af alpha_p * cos phi), sp)
       /\ BladeSection.airfoil_forces phi st
          = (Ok (airfoil_Cl af alpha_t * cos phi
                 - -1 * airfoil_Cd af alpha_t * sin phi,
                 airfoil_Cl af alpha_t * sin phi
                 + -1 * airfoil_Cd af alpha_t * cos phi), st).
Proof.
  intros Hp Ht.
  destruct (init_fields _ _ _ _ _ _ _ _ Hp) as [HCp [Hpp [Hap _]]].
  destruct (init_fields _ _ _ _ _ _ _ _ Ht) as [HCt [Hpt [Hat _]]].
  assert (HCp1 : BladeSection.C sp = 1) by (rewrite HCp; reflexivity).
  assert (HCt1 : BladeSection.C st = -1) by (rewrite HCt; reflexivity).
  repeat split; try assumption.
  - unfold BladeSection.angle_of_attack. ring.
  - rewrite airfoil_forces_value. cbv zeta. now rewrite HCp1, Hpp, Hap.
  - rewrite airfoil_forces_value. cbv zeta. now rewrite HCt1, Hpt, Hat.
Qed.

Lemma init_example r mode :
  r <> 0 ->
  BladeSection.init Example.constant_airfoil r 0.1 (Py.radians 10) 0.05
    Example.geometry mode
  = Ok (Example.section_at r mode).
Proof.
  intros Hr.
  unfold BladeSection.init, BladeSection.precalc, bind, gets, modify, ret.
  cbv beta. simpl. unfold Py.div.
  destruct (Req_dec_T (2 * PI * r) 0) as [H0|_]; simpl.
  - exfalso. pose proof PI_RGT_0. nra.
  - reflexivity.
Qed.

(** The example section at radius 0.3, built in both modes. *)
Lemma alpha_propeller_turbine_witness :
  BladeSection.angle_of_attack 1 (Py.radians 10) 0.2
  = - BladeSection.angle_of_attack (-1) (Py.radians 10) 0.2.
Proof.
  assert (H : 0.3 <> 0) by lra.
  exact (proj1 (proj2 (proj2
           (alpha_propeller_turbine _ _ _ _ _ _ _ _
              (init_example 0.3 "rotor" H) (init_example 0.3 "turbine" H)))
           0.2)).
Defined.

(** ** Induction factors, residual and forces *)

Lemma induction_factors_ok rotor phi (s : BladeSection.t) F :
  BladeSection.tip_loss rotor phi s = (Ok F, BladeSection.set_F F s) ->
  BladeSection.sigma s * Element.CT s phi <> 0 ->
  BladeSection.sigma s * Element.CQ s phi <> 0 ->
  Element.kappa s F phi - BladeSection.C s <> 0 ->
  Element.kappap s F phi + BladeSection.C s <> 0 ->
  BladeSection.induction_factors rotor phi s
  = (Ok (Element.a_at s F phi, Element.ap_at s F phi), BladeSection.set_F F s).
Proof.
  intros Htip H1 H2 H3 H4.
  unfold BladeSection.induction_factors.
  rewrite bind_gets, (bind_ok _ _ _ _ _ Htip).
  rewrite (bind_ok _ _ _ _ _ (airfoil_forces_value phi _)).
  cbv zeta. simpl BladeSection.C. simpl BladeSection.pitch.
  simpl BladeSection.airfoil. rewrite bind_gets. simpl BladeSection.sigma.
  fold (Element.alpha_at s phi). fold (Element.Cl_at s phi).
  fold (Element.Cd_at s phi). fold (Element.CT s phi).
  fold (Element.CQ s phi).
  rewrite (bind_ok _ _ _ _ _ (div_ok _ _ _ H1)).
  rewrite (bind_ok _ _ _ _ _ (div_ok _ _ _ H2)).
  fold (Element.kappa s F phi). fold (Element.kappap s F phi).
  rewrite (bind_ok _ _ _ _ _ (div_ok _ _ _ H3)).
  rewrite (bind_ok _ _ _ _ _ (div_ok _ _ _ H4)).
  reflexivity.
Qed.

Lemma func_after_induction rotor phi v_inf omega (s s1 : BladeSection.t) a ap :
  BladeSection.induction_factors rotor phi s = (Ok (a, ap), s1) ->
  BladeSection.func rotor phi v_inf omega s
  = (x <- Py.div (sin phi) (1 + BladeSection.C s * a) ;;
     y <- Py.div (v_inf * cos phi)
            (omega * BladeSection.radius s1 * (1 - BladeSection.C s * ap)) ;;
     modify (BladeSection.set_a a) ;;;
     modify (BladeSection.set_ap ap) ;;;
     ret (x - y)) s1.
Proof.
  intros Hi. unfold BladeSection.func.
  rewrite bind_gets, (bind_ok _ _ _ _ _ Hi). reflexivity.
Qed.



(** At rest the residual cannot be evaluated at all: [omega] is a factor of
    its second divisor. *)
Lemma func_raises_at_rest rotor phi v_inf (s : BladeSection.t) :
  exists e s', BladeSection.func rotor phi v_inf 0 s = (Raise e, s').
Proof.
  destruct (BladeSection.induction_factors rotor phi s) as [[[a ap]|e] s1] eqn:Hi.
  - rewrite (func_after_induction _ _ _ _ _ _ _ _ Hi).
    destruct (Req_dec_T (1 + BladeSection.C s * a) 0) as [H0|H0].
    + exists ZeroDivisionError, s1.
      now rewrite (bind_raise _ _ _ _ _ (div_zero _ _ _ H0)).
    + exists ZeroDivisionError, s1.
      rewrite (bind_ok _ _ _ _ _ (div_ok _ _ _ H0)).
      apply bind_raise. apply div_zero. ring.
  - exists e, s1. unfold BladeSection.func.
    now rewrite bind_gets, (bind_raise _ _ _ _ _ Hi).
Qed.

Lemma forces_ok rotor phi v_inf omega fluid (s : BladeSection.t) F :
  BladeSection.tip_loss rotor phi s = (Ok F, BladeSection.set_F F s) ->
  BladeSection.sigma s * Element.CT s phi <> 0 ->
  BladeSection.sigma s * Element.CQ s phi <> 0 ->
  Element.kappa s F phi - BladeSection.C s <> 0 ->
  Element.kappap s F phi + BladeSection.C s <> 0 ->
  mu fluid <> 0 ->
  BladeSection.forces rotor phi v_inf omega fluid s
  = (Ok (Element.dT_at s fluid F phi v_inf omega,
         Element.dQ_at s fluid F phi v_inf omega),
     Element.after_forces s fluid F phi v_inf omega).
Proof.
  intros Htip H1 H2 H3 H4 Hmu.
  unfold BladeSection.forces.
  rewrite !bind_gets.
  rewrite (bind_ok _ _ _ _ _ (induction_factors_ok _ _ _ _ Htip H1 H2 H3 H4)).
  rewrite (bind_ok _ _ _ _ _ (airfoil_forces_value phi _)).
  cbv zeta. simpl BladeSection.C. simpl BladeSection.pitch.
  simpl BladeSection.airfoil.
  fold (Element.alpha_at s phi). fold (Element.Cl_at s phi).
  fold (Element.Cd_at s phi). fold (Element.CT s phi).
  fold (Element.CQ s phi).
  rewrite (bind_ok _ _ _ _ _ (sqrt_ok _ _
             ltac:(apply Rplus_le_le_0_compat; apply pow2_ge_0))).
  fold (Element.U s F phi v_inf omega).
  rewrite bind_gets. simpl BladeSection.chord.
  rewrite (bind_ok _ _ _ _ _ (div_ok _ _ _ Hmu)).
  reflexivity.
Qed.


(** ** What a method leaves untouched *)

Section Respects.

Context {S : Type} (rel : S -> S -> Prop).
Hypothesis R_refl : forall s, rel s s.
Hypothesis R_trans :
  forall s1 s2 s3, rel s1 s2 -> rel s2 s3 -> rel s1 s3.

Lemma respects_ret {A} (a : A) : respects rel (ret a).
Proof. intros s. apply R_refl. Qed.

Lemma respects_raise {A} (e : exn) : respects rel (@raise S A e).
Proof. intros s. apply R_refl. Qed.

Lemma respects_gets {A} (f : S -> A) : respects rel (gets f).
Proof. intros s. apply R_refl. Qed.

Lemma respects_modify (f : S -> S) :
  (forall s, rel s (f s)) -> respects rel (modify f).
Proof. intros H s. apply H. Qed.

Lemma respects_bind {A B} (m : M S A) (k : A -> M S B) :
  respects rel m -> (forall a, respects rel (k a)) -> respects rel (bind m k).
Proof.
  intros Hm Hk s. unfold bind. specialize (Hm s).
  destruct (m s) as [[a|e] s1]; simpl in *.
  - eapply R_trans; [exact Hm|apply Hk].
  - exact Hm.
Qed.

Lemma respects_div (x y : R) : respects rel (Py.div x y).
Proof.
  unfold Py.div. destruct (Req_dec_T y 0);
    [apply respects_raise|apply respects_ret].
Qed.

Lemma respects_sqrt (x : R) : respects rel (Py.sqrt x).
Proof.
  unfold Py.sqrt. destruct (Rlt_dec x 0);
    [apply respects_raise|apply respects_ret].
Qed.

Lemma respects_acos (x : R) : respects rel (Py.acos x).
Proof.
  unfold Py.acos. destruct (Rlt_dec x (-1)); [apply respects_raise|].
  destruct (Rlt_dec 1 x); [apply respects_raise|apply respects_ret].
Qed.

Lemma respects_exp (x : R) : respects rel (Py.exp x).
Proof.
  unfold Py.exp. destruct (Rlt_dec Py.exp_max x);
    [apply respects_raise|apply respects_ret].
Qed.

Lemma respects_except {A} (m h : M S A) :
  respects rel m -> respects rel h -> respects rel (except_ValueError m h).
Proof.
  intros Hm Hh s. unfold except_ValueError. specialize (Hm s).
  destruct (m s) as [[a|e] s1]; simpl in *; [exact Hm|].
  destruct e; try exact Hm.
  eapply R_trans; [exact Hm|apply Hh].
Qed.

End Respects.

(** One step of a proof that a method respects a relation. *)
Ltac respects_step :=
  match goal with
  | |- respects ?r (bind _ _) =>
      refine (respects_bind r _ _ _ _ _); [assumption| |intros ?]
  | |- respects _ (ret _) => apply respects_ret; assumption
  | |- respects _ (raise _) => apply respects_raise; assumption
  | |- respects _ (gets _) => apply respects_gets; assumption
  | |- respects _ (Py.div _ _) => apply respects_div; assumption
  | |- respects _ (Py.sqrt _) => apply respects_sqrt; assumption
  | |- respects _ (Py.acos _) => apply respects_acos; assumption
  | |- respects _ (Py.exp _) => apply respects_exp; assumption
  | |- respects _ (match ?x with (_, _) => _ end) => destruct x
  | |- respects _ (if ?b then _ else _) => destruct b
  end.


Lemma unreported_refl s : unreported s s.
Proof. repeat split. Qed.

Lemma unreported_trans s1 s2 s3 :
  unreported s1 s2 -> unreported s2 s3 -> unreported s1 s3.
Proof.
  unfold unreported. intros (H1 & H2 & H3 & H4) (K1 & K2 & K3 & K4).
  repeat split; congruence.
Qed.

Lemma tip_loss_unreported rotor phi :
  respects unreported (BladeSection.tip_loss rotor phi).
Proof.
  pose proof unreported_refl as Hr. pose proof unreported_trans as Ht.
  unfold BladeSection.tip_loss, BladeSection.prandtl,
    BladeSection.prandtl_formula.
  repeat respects_step.
  all: apply respects_modify; intros s; repeat split.
Qed.

Lemma induction_factors_unreported rotor phi :
  respects unreported (BladeSection.induction_factors rotor phi).
Proof.
  pose proof unreported_refl as Hr. pose proof unreported_trans as Ht.
  unfold BladeSection.induction_factors, BladeSection.airfoil_forces.
  repeat (respects_step || apply tip_loss_unreported).
Qed.

Lemma forces_unreported rotor phi v_inf omega fluid :
  respects unreported (BladeSection.forces rotor phi v_inf omega fluid).
Proof.
  pose proof unreported_refl as Hr. pose proof unreported_trans as Ht.
  unfold BladeSection.forces, BladeSection.airfoil_forces.
  repeat (respects_step || apply induction_factors_unreported).
  all: apply respects_modify; intros s; repeat split.
Qed.

(** ** A blade element at phi = pi/2

    At a right inflow angle the thrust coefficient is [-C*Cd] and the
    tangential induction drops out, so the forces can be followed by hand:
    a propeller section brakes (dT < 0), a turbine section pulls. *)

Lemma Rdiv_pos_neg x y : 0 < x -> y < 0 -> x / y < 0.
Proof.
  intros Hx Hy. unfold Rdiv. pose proof (Rinv_neg y Hy). nra.
Qed.

Lemma Rinv_lt_1 x : 1 < x -> 0 < / x < 1.
Proof.
  intros Hx. split; [apply Rinv_0_lt_compat; lra|].
  rewrite <- Rinv_1. apply Rinv_lt_contravar; lra.
Qed.

Lemma Rinv_gt_m1 x : x < -1 -> -1 < / x < 0.
Proof.
  intros Hx. destruct (Rinv_lt_1 (- x) ltac:(lra)) as [H0 H1].
  rewrite Rinv_opp in H0, H1. lra.
Qed.

Section QuarterTurn.

Variables (rotor : RotorGeometry) (s : BladeSection.t) (F : R).
Variable fluid : Fluid.
Variables v_inf omega : R.

Hypothesis tip : BladeSection.tip_loss rotor (PI / 2) s
                 = (Ok F, BladeSection.set_F F s).
Hypothesis F_pos : 0 < F.
Hypothesis C_sign : BladeSection.C s = 1 \/ BladeSection.C s = -1.
Hypothesis sigma_pos : 0 < BladeSection.sigma s.
Hypothesis Cd_pos : 0 < Element.Cd_at s (PI / 2).
Hypothesis Cl_neq : Element.Cl_at s (PI / 2) <> 0.
Hypothesis mu_neq : mu fluid <> 0.

Lemma quarter_CT :
  Element.CT s (PI / 2) = - BladeSection.C s * Element.Cd_at s (PI / 2).
Proof. unfold Element.CT. rewrite sin_PI2, cos_PI2. ring. Qed.

Lemma quarter_CQ : Element.CQ s (PI / 2) = Element.Cl_at s (PI / 2).
Proof. unfold Element.CQ. rewrite sin_PI2, cos_PI2. ring. Qed.

Lemma quarter_kappap : Element.kappap s F (PI / 2) = 0.
Proof. unfold Element.kappap. rewrite cos_PI2. unfold Rdiv. ring. Qed.

(** [C * kappa] is negative: the axial induction opposes the stream. *)
Lemma quarter_kappa :
  BladeSection.C s * Element.kappa s F (PI / 2) < 0.
Proof.
  unfold Element.kappa. rewrite quarter_CT, sin_PI2.
  set (cd := Element.Cd_at s (PI / 2)) in *.
  set (sg := BladeSection.sigma s) in *.
  assert (Hsc : 0 < sg * cd) by now apply Rmult_lt_0_compat.
  destruct C_sign as [-> | ->].
  - pose proof (Rdiv_pos_neg (4 * F * 1 ^ 2) (sg * (- (1) * cd))
                  ltac:(lra) ltac:(lra)). lra.
  - assert (0 < 4 * F * 1 ^ 2 / (sg * (- -1 * cd)))
      by (apply Rdiv_lt_0_compat; lra). lra.
Qed.

Lemma quarter_axial :
  0 < 1 + BladeSection.C s * Element.a_at s F (PI / 2) < 1.
Proof.
  pose proof quarter_kappa as Hk. unfold Element.a_at.
  set (k := Element.kappa s F (PI / 2)) in *.
  destruct C_sign as [HC | HC]; rewrite HC in *.
  - pose proof (Rinv_gt_m1 (k - 1) ltac:(lra)). unfold Rdiv. lra.
  - pose proof (Rinv_lt_1 (k - -1) ltac:(lra)). unfold Rdiv. lra.
Qed.

Lemma quarter_forces :
  BladeSection.forces rotor (PI / 2) v_inf omega fluid s
  = (Ok (Element.dT_at s fluid F (PI / 2) v_inf omega,
         Element.dQ_at s fluid F (PI / 2) v_inf omega),
     Element.after_forces s fluid F (PI / 2) v_inf omega).
Proof.
  pose proof quarter_kappa as Hk.
  apply forces_ok; try assumption.
  - rewrite quarter_CT. destruct C_sign as [-> | ->]; nra.
  - rewrite quarter_CQ. nra.
  - destruct C_sign as [HC | HC]; rewrite HC in *; lra.
  - rewrite quarter_kappap. destruct C_sign as [-> | ->]; lra.
Qed.

(** The speed seen by the element is not zero when the inflow is not. *)
Lemma quarter_U2 :
  v_inf <> 0 -> 0 < Element.U s F (PI / 2) v_inf omega ^ 2.
Proof.
  intros Hv. destruct quarter_axial as [Ha _].
  unfold Element.U. rewrite pow2_sqrt.
  - assert (0 < ((1 + BladeSection.C s * Element.a_at s F (PI / 2))
                 * v_inf) ^ 2).
    { set (y := (1 + BladeSection.C s * Element.a_at s F (PI / 2))
                * v_inf).
      assert (Hy : y <> 0)
        by (apply Rmult_integral_contrapositive_currified; lra).
      destruct (Rdichotomy _ _ Hy); simpl; nra. }
    pose proof (pow2_ge_0
      ((1 - BladeSection.C s * Element.ap_at s F (PI / 2)) * omega
       * BladeSection.radius s)). lra.
  - apply Rplus_le_le_0_compat; apply pow2_ge_0.
Qed.

End QuarterTurn.

(** ** The example section at phi = pi/2 *)

Lemma C_of_mode_sign mode :
  BladeSection.C_of_mode mode = 1 \/ BladeSection.C_of_mode mode = -1.
Proof.
  unfold BladeSection.C_of_mode. destruct (String.eqb mode "turbine"); auto.
Qed.

Lemma example_sigma_pos r mode :
  0 < r -> 0 < BladeSection.sigma (Example.section_at r mode).
Proof.
  intros Hr. simpl. pose proof PI_RGT_0.
  apply Rdiv_lt_0_compat; [lra|]. apply Rmult_lt_0_compat; lra.
Qed.


Lemma example_tip_loss g mode :
  like_example g ->
  exists F,
    BladeSection.tip_loss g (PI / 2) (Example.section_at 0.3 mode)
    = (Ok F, BladeSection.set_F F (Example.section_at 0.3 mode))
    /\ 0 < F < 1.
Proof.
  intros (Hn & Hh & Hb). pose proof PI_RGT_0.
  apply tip_loss_interior; simpl; rewrite ?Hn, ?Hh, ?Hb; try lia; lra.
Qed.

Lemma example_forces g mode v_inf omega :
  like_example g ->
  exists F,
    0 < F < 1
    /\ BladeSection.tip_loss g (PI / 2) (Example.section_at 0.3 mode)
       = (Ok F, BladeSection.set_F F (Example.section_at 0.3 mode))
    /\ BladeSection.forces g (PI / 2) v_inf omega Example.air
         (Example.section_at 0.3 mode)
       = (Ok (Element.dT_at (Example.section_at 0.3 mode) Example.air F
                (PI / 2) v_inf omega,
              Element.dQ_at (Example.section_at 0.3 mode) Example.air F
                (PI / 2) v_inf omega),
          Element.after_forces (Example.section_at 0.3 mode) Example.air F
            (PI / 2) v_inf omega)
    /\ 0 < 1 + BladeSection.C_of_mode mode
             * Element.a_at (Example.section_at 0.3 mode) F (PI / 2) < 1
    /\ (v_inf <> 0 ->
        0 < Element.U (Example.section_at 0.3 mode) F (PI / 2) v_inf omega
            ^ 2).
Proof.
  intros Hg. destruct (example_tip_loss g mode Hg) as [F [HF HF01]].
  exists F.
  assert (HC := C_of_mode_sign mode).
  assert (Hs := example_sigma_pos 0.3 mode ltac:(lra)).
  assert (Hcd : 0 < Element.Cd_at (Example.section_at 0.3 mode) (PI / 2))
    by (unfold Element.Cd_at; simpl; lra).
  assert (Hcl : Element.Cl_at (Example.section_at 0.3 mode) (PI / 2) <> 0)
    by (unfold Element.Cl_at; simpl; lra).
  assert (Hmu : mu Example.air <> 0) by (simpl; lra).
  repeat split; try assumption; try lra.
  - apply quarter_forces; try assumption; lra.
  - apply (quarter_axial (Example.section_at 0.3 mode) F); try assumption; lra.
  - apply (quarter_axial (Example.section_at 0.3 mode) F); try assumption; lra.
  - intros Hv.
    apply quarter_U2; try assumption; lra.
Qed.

(** ** The section summary *)

Lemma comprehension_gets {A B} (f : A -> B) (l : list A) :
  comprehension (gets f) l = (Ok (map f l), l).
Proof.
  induction l as [|x l IH]; [reflexivity|].
  cbn [comprehension map]. rewrite IH. reflexivity.
Qed.


Lemma sections_dataframe_value (r : Rotor.t) :
  Rotor.sections_dataframe r = (Ok (summary_of (Rotor.sections r)), r).
Proof.
  unfold Rotor.sections_dataframe, Rotor.columns, summary_of.
  cbn [for_keys].
  change (BladeSection.getattr "radius") with (gets BladeSection.radius).
  change (BladeSection.getattr "chord") with (gets BladeSection.chord).
  change (BladeSection.getattr "pitch") with (gets BladeSection.pitch).
  change (BladeSection.getattr "Cl") with (gets BladeSection.Cl).
  change (BladeSection.getattr "Cd") with (gets BladeSection.Cd).
  change (BladeSection.getattr "dT") with (gets BladeSection.dT).
  change (BladeSection.getattr "dQ") with (gets BladeSection.dQ).
  change (BladeSection.getattr "F") with (gets BladeSection.F).
  change (BladeSection.getattr "a") with (gets BladeSection.a).
  change (BladeSection.getattr "ap") with (gets BladeSection.ap).
  change (BladeSection.getattr "Re") with (gets BladeSection.Re).
  unfold bind, zoom, ret. rewrite !comprehension_gets.
  destruct r; reflexivity.
Qed.

(** ** What [forces] stores *)

(** C5, evaluated on the freshly built middle section of the example rotor
    at phi = pi/2, 10 m/s and 3000 rpm: [forces] returns and stores [dT],
    [dQ] (and [Re], and [F] through [tip_loss]), but the section still holds
    Cl = 0 and Cd = 0 although the airfoil gives 0.5 and 0.02 at that phi,
    and still holds a = 0 and a' = 0 although the induction factors computed
    at that phi are non-zero and 1; the Cl column of the summary is 0. *)
Theorem forces_leaves_coefficients_stale :
  exists F dT dQ s',
    BladeSection.forces Example.geometry (PI / 2) 10 (3000 * 2 * PI / 60)
      Example.air Example.mid_section = (Ok (dT, dQ), s')
    /\ BladeSection.dT s' = dT /\ BladeSection.dQ s' = dQ
    /\ BladeSection.F s' = F
    /\ BladeSection.induction_factors Example.geometry (PI / 2)
         Example.mid_section
       = (Ok (Element.a_at Example.mid_section F (PI / 2),
              Element.ap_at Example.mid_section F (PI / 2)),
          BladeSection.set_F F Example.mid_section)
    /\ BladeSection.Cl s' = 0 /\ Element.Cl_at s' (PI / 2) = 0.5
    /\ BladeSection.Cd s' = 0 /\ Element.Cd_at s' (PI / 2) = 0.02
    /\ BladeSection.a s' = 0
    /\ Element.a_at Example.mid_section F (PI / 2) <> 0
    /\ BladeSection.ap s' = 0
    /\ Element.ap_at Example.mid_section F (PI / 2) = 1
    /\ In ("Cl"%string, [0]) (summary_of [s']).
Proof.
  assert (Hg : like_example Example.geometry) by (repeat split).
  destruct (example_forces Example.geometry "rotor" 10 (3000 * 2 * PI / 60) Hg)
    as (F & HF & Htip & Hforces & Hax & _).
  fold Example.mid_section in *.
  exists F. eexists. eexists. eexists.
  split; [exact Hforces|].
  assert (Hkp : Element.kappap Example.mid_section F (PI / 2) = 0)
    by apply quarter_kappap.
  assert (Hap : Element.ap_at Example.mid_section F (PI / 2) = 1).
  { unfold Element.ap_at. rewrite Hkp.
    change (BladeSection.C Example.mid_section) with 1. lra. }
  change (BladeSection.C_of_mode "rotor") with 1 in Hax.
  pose proof (example_sigma_pos 0.3 "rotor" ltac:(lra)) as Hs.
  fold Example.mid_section in Hs.
  assert (Hane : Element.a_at Example.mid_section F (PI / 2) <> 0).
  { intros H0. rewrite H0 in Hax. lra. }
  assert (Hind : BladeSection.induction_factors Example.geometry (PI / 2)
                   Example.mid_section
                 = (Ok (Element.a_at Example.mid_section F (PI / 2),
                        Element.ap_at Example.mid_section F (PI / 2)),
                    BladeSection.set_F F Example.mid_section)).
  { apply induction_factors_ok; try assumption.
    - rewrite quarter_CT.
      change (BladeSection.C Example.mid_section) with 1.
      change (Element.Cd_at Example.mid_section (PI / 2)) with 0.02. nra.
    - rewrite quarter_CQ.
      change (Element.Cl_at Example.mid_section (PI / 2)) with 0.5. nra.
    - change (BladeSection.C Example.mid_section) with 1.
      unfold Element.a_at in Hax.
      change (BladeSection.C Example.mid_section) with 1 in Hax.
      intros H0. rewrite H0 in Hax. unfold Rdiv in Hax.
      rewrite Rinv_0 in Hax. lra.
    - rewrite Hkp. change (BladeSection.C Example.mid_section) with 1. lra. }
  split; [reflexivity|]. split; [reflexivity|]. split; [reflexivity|].
  split; [exact Hind|].
  split; [reflexivity|]. split; [reflexivity|].
  split; [reflexivity|]. split; [reflexivity|].
  split; [reflexivity|]. split; [exact Hane|].
  split; [reflexivity|]. split; [exact Hap|].
  simpl. auto.
Qed.

(** ** The loop of [solve] *)

Section SolveLoop.

Variable bisect : forall S : Type, (R -> M S R) -> R -> R -> M S R.
Variables (self : Solver.t) (rg : RotorGeometry).
Variables omega v_inflow r_inflow : R.

Lemma solve_section_loads (T0 Q0 : R) (s : BladeSection.t) :
  Solver.solve_section bisect self rg omega v_inflow r_inflow (T0, Q0) s
  = match Spec.section_loads bisect self rg omega v_inflow r_inflow s with
    | (Ok (dT, dQ), s') => (Ok (T0 + dT, Q0 + dQ), s')
    | (Raise e, s') => (Raise e, s')
    end.
Proof.
  unfold Solver.solve_section, Spec.section_loads, Solver.inflow, bind, gets.
  destruct (Solver.find_phi _ _ _ _ _ s) as [[phi|e] s1]; [|reflexivity].
  destruct (BladeSection.forces _ _ _ _ _ s1) as [[[dT dQ]|e] s2];
    reflexivity.
Qed.

Lemma for_each_loads (l : list BladeSection.t) (T0 Q0 : R) :
  for_each (Solver.solve_section bisect self rg omega v_inflow r_inflow)
    (T0, Q0) l
  = match comprehension
            (Spec.section_loads bisect self rg omega v_inflow r_inflow) l
    with
    | (Ok loads, l') =>
        (Ok (T0 + Rsum (map fst loads), Q0 + Rsum (map snd loads)), l')
    | (Raise e, l') => (Raise e, l')
    end.
Proof.
  revert T0 Q0. induction l as [|s l IH]; intros T0 Q0.
  - cbn. now rewrite !Rplus_0_r.
  - cbn [for_each comprehension]. rewrite solve_section_loads.
    destruct (Spec.section_loads _ _ _ _ _ _ s) as [[[dT dQ]|e] s'];
      [|reflexivity].
    rewrite IH.
    destruct (comprehension _ l) as [[loads|e] l']; [|reflexivity].
    cbn [map fst snd Rsum fold_right]. now rewrite !Rplus_assoc.
Qed.

End SolveLoop.

Lemma solve_refines_spec bisect self rpm v_inflow r_inflow (rot : Rotor.t) :
  Solver.solve bisect self rpm v_inflow r_inflow rot
  = Spec.solve_spec bisect self rpm v_inflow r_inflow rot.
Proof.
  unfold Solver.solve, Spec.solve_spec, bind, zoom, gets.
  destruct (Rotor.precalc rot) as [[[]|e] rot1]; [|reflexivity].
  rewrite for_each_loads.
  destruct (comprehension _ (Rotor.sections rot1)) as [[loads|e] l'];
    [|reflexivity].
  unfold ret. now rewrite !Rplus_0_l.
Qed.


(** ** What a method guarantees when it returns *)

Lemma ensures_bind {S A B} (m : M S A) (k : A -> M S B) post :
  (forall a, ensures (k a) post) -> ensures (bind m k) post.
Proof.
  intros Hk s b s' H. unfold bind in H.
  destruct (m s) as [[a|e] s1]; [|discriminate].
  exact (Hk a s1 b s' H).
Qed.

Lemma forces_returns_stored rotor phi v_inf omega fluid :
  ensures (BladeSection.forces rotor phi v_inf omega fluid)
          (fun '(x, y) s' => BladeSection.dT s' = x /\ BladeSection.dQ s' = y).
Proof.
  unfold BladeSection.forces.
  repeat match goal with
         | |- ensures (bind (gets BladeSection.dT) _) _ => fail 1
         | |- ensures (bind _ _) _ =>
             apply ensures_bind; intros ?;
             try match goal with p : (_ * _)%type |- _ => destruct p end
         end.
  intros s [x y] s' H. injection H as <- <- <-. split; reflexivity.
Qed.

Lemma comprehension_ensures {A B} (f : M A B) (post : B -> A -> Prop) :
  ensures f post ->
  forall l bs l', comprehension f l = (Ok bs, l') -> Forall2 post bs l'.
Proof.
  intros Hf. induction l as [|x l IH]; intros bs l' H; cbn in H.
  - injection H as <- <-. constructor.
  - destruct (f x) as [[b|e] x'] eqn:Hx; [|discriminate].
    destruct (comprehension f l) as [[bs0|e] l0]; [|discriminate].
    injection H as <- <-. constructor; [exact (Hf _ _ _ Hx)|].
    now apply IH.
Qed.

Lemma comprehension_length {A B} (f : M A B) (l : list A) r l' :
  comprehension f l = (r, l') -> List.length l' = List.length l.
Proof.
  revert r l'. induction l as [|x l IH]; intros r l' H; cbn in H.
  - now injection H as <- <-.
  - destruct (f x) as [[b|e] x'].
    + destruct (comprehension f l) as [[bs0|e] l0] eqn:Hl;
        injection H as <- <-; cbn; f_equal; eapply IH; reflexivity.
    + now injection H as <- <-.
Qed.

Lemma section_loads_stored bisect self rg omega v_inflow r_inflow :
  ensures (Spec.section_loads bisect self rg omega v_inflow r_inflow)
          (fun '(x, y) s' => BladeSection.dT s' = x /\ BladeSection.dQ s' = y).
Proof.
  unfold Spec.section_loads.
  apply ensures_bind; intros r. apply ensures_bind; intros phi.
  apply forces_returns_stored.
Qed.

Lemma stored_columns (loads : list (R * R)) (l : list BladeSection.t) :
  Forall2 (fun '(x, y) s' => BladeSection.dT s' = x /\ BladeSection.dQ s' = y)
          loads l ->
  map fst loads = map BladeSection.dT l
  /\ map snd loads = map BladeSection.dQ l.
Proof.
  induction 1 as [|[x y] s' loads l [Hx Hy] _ [IH1 IH2]]; [now split|].
  cbn. now rewrite Hx, Hy, IH1, IH2.
Qed.


Lemma precalc_value (rot : Rotor.t) :
  Rotor.precalc rot = (Ok tt, recomputed rot).
Proof. reflexivity. Qed.

Lemma solve_spec_unfold bisect self rpm v_inflow r_inflow (rot : Rotor.t) :
  Solver.solve bisect self rpm v_inflow r_inflow rot
  = match comprehension
            (Spec.section_loads bisect self (Rotor.geom (recomputed rot))
               (rpm * 2 * PI / 60) v_inflow r_inflow) (Rotor.sections rot)
    with
    | (Ok loads, l') =>
        (Ok (Rsum (map fst loads), Rsum (map snd loads),
             Rsum (map snd loads) * (rpm * 2 * PI / 60)),
         Rotor.set_sections l' (recomputed rot))
    | (Raise e, l') => (Raise e, Rotor.set_sections l' (recomputed rot))
    end.
Proof.
  rewrite solve_refines_spec.
  unfold Spec.solve_spec, bind. rewrite precalc_value.
  unfold gets, zoom.
  change (Rotor.sections (recomputed rot)) with (Rotor.sections rot).
  destruct (comprehension _ (Rotor.sections rot)) as [[loads|e] l'];
    reflexivity.
Qed.

(** What [solve] has done when it returns. *)
Lemma solve_returns bisect self rpm v_inflow r_inflow rot T Q P rot' :
  Solver.solve bisect self rpm v_inflow r_inflow rot = (Ok (T, Q, P), rot') ->
  blade_radius (Rotor.geom rot') = 0.5 * diameter (Rotor.geom rot)
  /\ area (Rotor.geom rot') = PI * (0.5 * diameter (Rotor.geom rot)) ^ 2
  /\ T = Rsum (map BladeSection.dT (Rotor.sections rot'))
  /\ Q = Rsum (map BladeSection.dQ (Rotor.sections rot'))
  /\ P = Q * (rpm * 2 * PI / 60)
  /\ List.length (Rotor.sections rot') = List.length (Rotor.sections rot).
Proof.
  intros H. rewrite solve_spec_unfold in H.
  destruct (comprehension _ (Rotor.sections rot)) as [[loads|e] l'] eqn:Hc;
    [|discriminate].
  injection H as <- <- <- <-.
  pose proof (comprehension_ensures _ _ (section_loads_stored _ _ _ _ _ _)
                _ _ _ Hc) as Hst.
  destruct (stored_columns _ _ Hst) as [H1 H2].
  cbn. rewrite H1, H2. repeat split.
  eapply comprehension_length; exact Hc.
Qed.


(** ** The example rotor, solved at the oracle's phi = pi/2 *)

Lemma find_phi_oracle self rg v omega (s : BladeSection.t) :
  String.eqb (Solver.solver self) "brute" = false ->
  Solver.find_phi Example.oracle self rg v omega s = (Ok (PI / 2), s).
Proof. intros H. unfold Solver.find_phi. now rewrite H. Qed.

Lemma example_dT_sign mode F v omega :
  0 < Element.U (Example.section_at 0.3 mode) F (PI / 2) v omega ^ 2 ->
  Element.dT_at (Example.section_at 0.3 mode) Example.air F (PI / 2) v omega
  * BladeSection.C_of_mode mode < 0.
Proof.
  intros HU. unfold Element.dT_at. rewrite quarter_CT.
  pose proof (example_sigma_pos 0.3 mode ltac:(lra)) as Hs.
  pose proof PI_RGT_0 as HPI.
  set (U2 := Element.U _ _ _ _ _ ^ 2) in *.
  set (sg := BladeSection.sigma _) in *.
  change (Element.Cd_at (Example.section_at 0.3 mode) (PI / 2)) with 0.02.
  change (BladeSection.C (Example.section_at 0.3 mode))
    with (BladeSection.C_of_mode mode).
  change (rho Example.air) with 1.225.
  change (BladeSection.radius (Example.section_at 0.3 mode)) with 0.3.
  change (BladeSection.width (Example.section_at 0.3 mode)) with 0.1.
  assert (HK : 0 < sg * PI * U2).
  { apply Rmult_lt_0_compat; [apply Rmult_lt_0_compat|]; assumption. }
  set (K := sg * PI * U2) in *.
  replace (sg * PI * 1.225 * U2) with (K * 1.225) by (unfold K; ring).
  destruct (C_of_mode_sign mode) as [-> | ->]; lra.
Qed.

Lemma example_loads mode self g omega v r_inflow :
  String.eqb (Solver.solver self) "brute" = false ->
  Solver.fluid self = Example.air ->
  like_example g ->
  0.3 < r_inflow ->
  exists dT dQ s',
    Spec.section_loads Example.oracle self g omega v r_inflow
      (Example.section_at 0.3 mode) = (Ok (dT, dQ), s')
    /\ (v <> 0 -> dT * BladeSection.C_of_mode mode < 0).
Proof.
  intros Hsolver Hfluid Hg Hr.
  destruct (example_forces g mode v omega Hg)
    as (F & HF & Htip & Hforces & Hax & HU).
  do 3 eexists. split.
  - unfold Spec.section_loads. rewrite bind_gets.
    change (BladeSection.radius (Example.section_at 0.3 mode)) with 0.3.
    destruct (Rlt_dec 0.3 r_inflow) as [_|Hn]; [|contradiction].
    rewrite (bind_ok _ _ _ _ _ (find_phi_oracle self g v omega _ Hsolver)).
    rewrite Hfluid. exact Hforces.
  - intros Hv. apply example_dT_sign. now apply HU.
Qed.

Lemma example_solve mode self rpm v r_inflow :
  String.eqb (Solver.solver self) "brute" = false ->
  Solver.fluid self = Example.air ->
  0.3 < r_inflow ->
  exists T Q P rot',
    Solver.solve Example.oracle self rpm v r_inflow (Example.rotor_of mode)
    = (Ok (T, Q, P), rot')
    /\ (v <> 0 -> T * BladeSection.C_of_mode mode < 0).
Proof.
  intros Hsolver Hfluid Hr.
  assert (Hg : like_example (Rotor.geom (recomputed (Example.rotor_of mode)))).
  { repeat split; simpl; lra. }
  destruct (example_loads mode self _ (rpm * 2 * PI / 60) v r_inflow
              Hsolver Hfluid Hg Hr) as (dT & dQ & s' & Hl & Hsign).
  rewrite solve_spec_unfold.
  change (Rotor.sections (Example.rotor_of mode))
    with [Example.section_at 0.3 mode].
  cbn [comprehension]. rewrite Hl.
  do 4 eexists. split; [reflexivity|].
  intros Hv. cbn. specialize (Hsign Hv). lra.
Qed.


(** ** numpy: the order on float64, [linspace] and [argmin] *)








Lemma linspace_length a b n : List.length (Np.linspace a b n) = n.
Proof.
  destruct n as [|[|k]]; [reflexivity..|].
  unfold Np.linspace. rewrite length_app, length_map, length_seq. cbn. lia.
Qed.




(** ** Brute-force search *)




Lemma brute_residuals_raise {S} (func : R -> R -> R -> M S Np.float64)
      (v omega phi : R) (phis : list R) s e s' :
  func phi v omega s = (Raise e, s') ->
  Solver.brute_residuals func v omega (phi :: phis) s = (Raise e, s').
Proof.
  intros H. cbn [Solver.brute_residuals]. unfold bind. now rewrite H.
Qed.





Lemma linspace_cons a b k :
  exists phi rest, Np.linspace a b (S (S k)) = phi :: rest.
Proof.
  unfold Np.linspace. cbn [seq map app]. eauto.
Qed.

Lemma brute_solve_raises_at_rest rg v n (s : BladeSection.t) :
  (2 <= n)%nat ->
  exists e s', Solver.brute_solve (Solver.section_func rg) v 0 n s
               = (Raise e, s').
Proof.
  intros Hn. destruct n as [|[|k]]; [lia..|].
  destruct (linspace_cons (- 0.9 * PI) (0.9 * PI) k) as (phi & rest & Hl).
  destruct (func_raises_at_rest rg phi v s) as (e & s' & Hf).
  exists e, s'. unfold Solver.brute_solve. rewrite Hl.
  apply bind_raise. apply brute_residuals_raise.
  unfold Solver.section_func. now apply bind_raise.
Qed.



(** ** Brute force on a blade section

    Under a negative phi the Prandtl factor of a section between hub and tip
    is 0 short of the guard; the axial induction factor is then [-1/C], and
    the first divisor of the residual, [1 + C*a], is zero. *)

Lemma div_cases {S} (x y : R) (s : S) :
  Py.div x y s = (Raise ZeroDivisionError, s)
  \/ (y <> 0 /\ Py.div x y s = (Ok (x / y), s)).
Proof.
  destruct (Req_dec_T y 0) as [H|H].
  - left. now apply div_zero.
  - right. split; [exact H|now apply div_ok].
Qed.



Lemma sin_tenth_PI : 1 / 6 <= sin (0.1 * PI) <= 1.
Proof.
  pose proof PI_RGT_0 as HPI. split; [|apply SIN_bound].
  set (x := 0.1 * PI).
  assert (Hs : 0 <= sin x) by (apply sin_ge_0; unfold x; lra).
  assert (Hc : 0 <= cos x) by (apply cos_ge_0; unfold x; lra).
  pose proof (COS_bound x) as [_ Hc1].
  pose proof (COS_bound (2 * x)) as [_ Hc2].
  assert (H3 : sin (2 * x + x) <= 3 * sin x).
  { rewrite sin_plus, sin_2a.
    set (sn := sin x) in *. set (cs := cos x) in *.
    set (c2 := cos (2 * x)) in *.
    assert (H1 : sn * cs <= sn) by nra.
    assert (H2 : sn * cs * cs <= sn * cs) by nra.
    assert (H4 : c2 * sn <= sn) by nra.
    lra. }
  assert (H6 : sin (PI / 6) <= sin (2 * x + x)).
  { apply sin_incr_1; unfold x; lra. }
  rewrite sin_PI6 in H6. lra.
Qed.






(** ** The slipstream and the coaxial run *)

Lemma slipstream_value (s : Solver.t) :
  rho (Solver.fluid s) * area (Rotor.geom (Solver.rotor s)) <> 0 ->
  0 <= 2 * Solver.T s
       / (rho (Solver.fluid s) * area (Rotor.geom (Solver.rotor s))) ->
  Solver.slipstream s
  = (Ok (blade_radius (Rotor.geom (Solver.rotor s)) / sqrt 2,
         Solver.Cs s
         * sqrt (2 * Solver.T s
                 / (rho (Solver.fluid s)
                    * area (Rotor.geom (Solver.rotor s))))), s).
Proof.
  intros Hd Hq. unfold Solver.slipstream.
  rewrite bind_gets, (bind_ok _ _ _ _ _ (sqrt_ok 2 s ltac:(lra))).
  rewrite (bind_ok _ _ _ _ _ (div_ok _ _ s sqrt2_neq_0)).
  rewrite !bind_gets.
  rewrite (bind_ok _ _ _ _ _ (div_ok _ _ s Hd)).
  rewrite (bind_ok _ _ _ _ _ (sqrt_ok _ s Hq)).
  reflexivity.
Qed.

Lemma slipstream_negative (s : Solver.t) :
  rho (Solver.fluid s) * area (Rotor.geom (Solver.rotor s)) <> 0 ->
  2 * Solver.T s
  / (rho (Solver.fluid s) * area (Rotor.geom (Solver.rotor s))) < 0 ->
  Solver.slipstream s = (Raise ValueError, s).
Proof.
  intros Hd Hq. unfold Solver.slipstream.
  rewrite bind_gets, (bind_ok _ _ _ _ _ (sqrt_ok 2 s ltac:(lra))).
  rewrite (bind_ok _ _ _ _ _ (div_ok _ _ s sqrt2_neq_0)).
  rewrite !bind_gets.
  rewrite (bind_ok _ _ _ _ _ (div_ok _ _ s Hd)).
  now rewrite (bind_raise _ _ _ _ _ (sqrt_negative _ s Hq)).
Qed.

Lemma slipstream_no_area (s : Solver.t) :
  rho (Solver.fluid s) * area (Rotor.geom (Solver.rotor s)) = 0 ->
  Solver.slipstream s = (Raise ZeroDivisionError, s).
Proof.
  intros Hd. unfold Solver.slipstream.
  rewrite bind_gets, (bind_ok _ _ _ _ _ (sqrt_ok 2 s ltac:(lra))).
  rewrite (bind_ok _ _ _ _ _ (div_ok _ _ s sqrt2_neq_0)).
  rewrite !bind_gets.
  now rewrite (bind_raise _ _ _ _ _ (div_zero _ _ s Hd)).
Qed.


Lemma zoom_dataframe {S} (get : S -> Rotor.t) (set : Rotor.t -> S -> S)
      (s : S) :
  zoom get set Rotor.sections_dataframe s
  = (Ok (summary_of (Rotor.sections (get s))), set (get s) s).
Proof. unfold zoom. now rewrite sections_dataframe_value. Qed.

Section Run.

Variable bisect : forall S : Type, (R -> M S R) -> R -> R -> M S R.
Variable self : Solver.t.


Lemma run_single T Q P rot' :
  Solver.coaxial self = false ->
  primary_solve bisect self = (Ok (T, Q, P), rot') ->
  Solver.run bisect self
  = (Ok (Single T Q P (summary_of (Rotor.sections rot'))),
     after_primary self (T, Q, P) rot').
Proof.
  unfold primary_solve. intros Hc Hp.
  unfold Solver.run, Solver.with_self, bind at 1, zoom at 1.
  rewrite Hp. rewrite bind_modify, bind_gets.
  fold (after_primary self (T, Q, P) rot').
  change (Solver.coaxial (after_primary self (T, Q, P) rot'))
    with (Solver.coaxial self).
  rewrite Hc. rewrite !bind_gets. unfold bind, zoom.
  rewrite sections_dataframe_value. reflexivity.
Qed.

Lemma run_slipstream_raises T Q P rot' e :
  Solver.coaxial self = true ->
  primary_solve bisect self = (Ok (T, Q, P), rot') ->
  Solver.slipstream (after_primary self (T, Q, P) rot')
  = (Raise e, after_primary self (T, Q, P) rot') ->
  Solver.run bisect self = (Raise e, after_primary self (T, Q, P) rot').
Proof.
  unfold primary_solve. intros Hc Hp Hs.
  unfold Solver.run, Solver.with_self, bind at 1, zoom at 1.
  rewrite Hp. rewrite bind_modify, bind_gets.
  fold (after_primary self (T, Q, P) rot').
  change (Solver.coaxial (after_primary self (T, Q, P) rot'))
    with (Solver.coaxial self).
  rewrite Hc. apply bind_raise. exact Hs.
Qed.

Lemma run_coaxial T Q P rot' r_s v_s :
  Solver.coaxial self = true ->
  primary_solve bisect self = (Ok (T, Q, P), rot') ->
  Solver.slipstream (after_primary self (T, Q, P) rot')
  = (Ok (r_s, v_s), after_primary self (T, Q, P) rot') ->
  let s2 := Solver.set_slipstream (r_s, v_s)
              (after_primary self (T, Q, P) rot') in
  Solver.run bisect self
  = match Solver.solve bisect s2 (Solver.rpm2 self) v_s r_s
            (Solver.rotor2 self) with
    | (Ok (T2, Q2, P2), rot2') =>
        (Ok (Coaxial T Q P (summary_of (Rotor.sections rot'))
                     T2 Q2 P2 (summary_of (Rotor.sections rot2'))),
         Solver.set_TQP2 (T2, Q2, P2) (Solver.set_rotor2 rot2' s2))
    | (Raise e, rot2') => (Raise e, Solver.set_rotor2 rot2' s2)
    end.
Proof.
  intros Hc Hp Hs s2. unfold primary_solve in Hp.
  unfold Solver.run, Solver.with_self, bind at 1, zoom at 1.
  rewrite Hp. rewrite bind_modify, bind_gets.
  fold (after_primary self (T, Q, P) rot').
  change (Solver.coaxial (after_primary self (T, Q, P) rot'))
    with (Solver.coaxial self).
  rewrite Hc. rewrite (bind_ok _ _ _ _ _ Hs). rewrite bind_modify. fold s2.
  unfold bind at 1, zoom at 1.
  change (Solver.rpm2 s2) with (Solver.rpm2 self).
  change (Solver.v_s s2) with v_s. change (Solver.r_s s2) with r_s.
  change (Solver.rotor2 s2) with (Solver.rotor2 self).
  destruct (Solver.solve bisect s2 (Solver.rpm2 self) v_s r_s
              (Solver.rotor2 self)) as [[[[T2 Q2] P2]|e] rot2'];
    [|reflexivity].
  rewrite bind_modify, !bind_gets.
  rewrite (bind_ok _ _ _ _ _ (zoom_dataframe _ _ _)), !bind_gets.
  rewrite (bind_ok _ _ _ _ _ (zoom_dataframe _ _ _)).
  reflexivity.
Qed.

End Run.

Lemma area_after_solve (d : R) : d <> 0 -> 0 < PI * (0.5 * d) ^ 2.
Proof.
  intros Hd. pose proof PI_RGT_0.
  apply Rmult_lt_0_compat; [assumption|].
  destruct (Rdichotomy _ _ Hd); simpl; nra.
Qed.

(** C7: in coaxial mode, once the primary rotor is solved with a thrust
    T >= 0 (in a fluid of positive density, for a rotor of non-zero
    diameter), the slipstream radius is the blade radius divided by
    sqrt 2, the slipstream velocity is Cs*sqrt(2*T/(rho*area)), which
    scales as sqrt T, and [run] goes on exactly as the solve of the
    secondary rotor at its own rpm with these two as inflow velocity and
    inflow radius; what [run] returns for the primary rotor is what the
    primary solve produced. *)
Theorem coaxial_coupling
        (bisect : forall S : Type, (R -> M S R) -> R -> R -> M S R)
        (self : Solver.t) (T Q P : R) (rot' : Rotor.t) :
  Solver.coaxial self = true ->
  primary_solve bisect self = (Ok (T, Q, P), rot') ->
  0 <= T ->
  0 < rho (Solver.fluid self) ->
  diameter (Rotor.geom (Solver.rotor self)) <> 0 ->
  let r_s := blade_radius (Rotor.geom rot') / sqrt 2 in
  let v_s := Solver.Cs self
             * sqrt (2 * T / (rho (Solver.fluid self)
                              * area (Rotor.geom rot'))) in
  let s1 := after_primary self (T, Q, P) rot' in
  let s2 := Solver.set_slipstream (r_s, v_s) s1 in
  blade_radius (Rotor.geom rot')
  = 0.5 * diameter (Rotor.geom (Solver.rotor self))
  /\ Solver.slipstream s1 = (Ok (r_s, v_s), s1)
  /\ (forall k, 0 <= k ->
        Solver.Cs self
        * sqrt (2 * (k * T) / (rho (Solver.fluid self)
                               * area (Rotor.geom rot')))
        = sqrt k * v_s)
  /\ Solver.run bisect self
     = match Solver.solve bisect s2 (Solver.rpm2 self) v_s r_s
               (Solver.rotor2 self) with
       | (Ok (T2, Q2, P2), rot2') =>
           (Ok (Coaxial T Q P (summary_of (Rotor.sections rot'))
                        T2 Q2 P2 (summary_of (Rotor.sections rot2'))),
            Solver.set_TQP2 (T2, Q2, P2) (Solver.set_rotor2 rot2' s2))
       | (Raise e, rot2') => (Raise e, Solver.set_rotor2 rot2' s2)
       end.
Proof.
  intros Hc Hp HT Hrho Hd r_s v_s s1 s2.
  destruct (solve_returns bisect self _ _ _ _ _ _ _ _ Hp)
    as (Hbr & Har & _).
  pose proof (area_after_solve _ Hd) as Hpos. rewrite <- Har in Hpos.
  assert (Hra : 0 < rho (Solver.fluid self) * area (Rotor.geom rot'))
    by now apply Rmult_lt_0_compat.
  assert (Hq : 0 <= 2 * T / (rho (Solver.fluid self)
                              * area (Rotor.geom rot'))).
  { apply Rmult_le_pos; [lra|]. left. now apply Rinv_0_lt_compat. }
  assert (Hs : Solver.slipstream s1 = (Ok (r_s, v_s), s1)).
  { apply (slipstream_value s1).
    - apply Rgt_not_eq. exact Hra.
    - exact Hq. }
  split; [exact Hbr|]. split; [exact Hs|]. split.
  - intros k Hk. unfold v_s.
    replace (2 * (k * T) / (rho (Solver.fluid self)
                            * area (Rotor.geom rot')))
      with (k * (2 * T / (rho (Solver.fluid self)
                          * area (Rotor.geom rot'))))
      by (field; lra).
    rewrite sqrt_mult by assumption. ring.
  - exact (run_coaxial bisect self T Q P rot' r_s v_s Hc Hp Hs).
Qed.

(** The example turbine sections pull (T > 0) at the oracle's phi. *)
Lemma coaxial_coupling_witness :
  exists T Q P rot',
    primary_solve Example.oracle (Example.case "turbine" true "bisect")
    = (Ok (T, Q, P), rot')
    /\ Solver.slipstream
         (after_primary (Example.case "turbine" true "bisect") (T, Q, P) rot')
       = (Ok (blade_radius (Rotor.geom rot') / sqrt 2,
              0.625 * sqrt (2 * T / (1.225 * area (Rotor.geom rot')))),
          after_primary (Example.case "turbine" true "bisect") (T, Q, P) rot').
Proof.
  destruct (example_solve "turbine" (Example.case "turbine" true "bisect")
              3000 10 1 eq_refl eq_refl ltac:(lra))
    as (T & Q & P & rot' & H & Hsign).
  exists T, Q, P, rot'. split; [exact H|].
  assert (HT : 0 <= T).
  { assert (Hv : 10 <> 0) by lra. specialize (Hsign Hv).
    change (BladeSection.C_of_mode "turbine") with (-1) in Hsign. lra. }
  assert (Hrho : 0 < rho (Solver.fluid (Example.case "turbine" true "bisect")))
    by (simpl; lra).
  assert (Hd : diameter
                 (Rotor.geom
                    (Solver.rotor (Example.case "turbine" true "bisect")))
               <> 0) by (simpl; lra).
  exact (proj1 (proj2 (coaxial_coupling Example.oracle
                         (Example.case "turbine" true "bisect")
                         T Q P rot' eq_refl H HT Hrho Hd))).
Defined.

(** C10: in coaxial mode, if the primary solve produces a strictly negative
    thrust (in a fluid of positive density), [slipstream] raises, the
    ValueError of the square root of a negative number as soon as the rotor
    has a diameter, and [run] aborts with that exception without solving
    the secondary rotor. *)
Theorem negative_thrust_aborts
        (bisect : forall S : Type, (R -> M S R) -> R -> R -> M S R)
        (self : Solver.t) (T Q P : R) (rot' : Rotor.t) :
  Solver.coaxial self = true ->
  primary_solve bisect self = (Ok (T, Q, P), rot') ->
  T < 0 ->
  0 < rho (Solver.fluid self) ->
  let s1 := after_primary self (T, Q, P) rot' in
  exists e,
    Solver.slipstream s1 = (Raise e, s1)
    /\ Solver.run bisect self = (Raise e, s1)
    /\ (diameter (Rotor.geom (Solver.rotor self)) <> 0 -> e = ValueError).
Proof.
  intros Hc Hp HT Hrho s1.
  destruct (solve_returns bisect self _ _ _ _ _ _ _ _ Hp)
    as (_ & Har & _).
  destruct (Req_dec_T (diameter (Rotor.geom (Solver.rotor self))) 0)
    as [Hd|Hd].
  - exists ZeroDivisionError.
    assert (Hs : Solver.slipstream s1 = (Raise ZeroDivisionError, s1)).
    { apply (slipstream_no_area s1).
      change (area (Rotor.geom (Solver.rotor s1)))
        with (area (Rotor.geom rot')).
      rewrite Har, Hd. simpl. ring. }
    split; [exact Hs|]. split; [|contradiction].
    exact (run_slipstream_raises bisect self T Q P rot' _ Hc Hp Hs).
  - exists ValueError.
    pose proof (area_after_solve _ Hd) as Hpos. rewrite <- Har in Hpos.
    assert (Hra : 0 < rho (Solver.fluid self) * area (Rotor.geom rot'))
      by now apply Rmult_lt_0_compat.
    assert (Hs : Solver.slipstream s1 = (Raise ValueError, s1)).
    { apply (slipstream_negative s1).
      - apply Rgt_not_eq. exact Hra.
      - change (Solver.T s1) with T.
        change (rho (Solver.fluid s1) * area (Rotor.geom (Solver.rotor s1)))
          with (rho (Solver.fluid self) * area (Rotor.geom rot')).
        pose proof (Rinv_0_lt_compat _ Hra). unfold Rdiv. nra. }
    split; [exact Hs|]. split; [|reflexivity].
    exact (run_slipstream_raises bisect self T Q P rot' _ Hc Hp Hs).
Qed.

(** The example propeller sections brake (T < 0) at the oracle's phi, and
    the coaxial run aborts. *)
Lemma negative_thrust_aborts_witness :
  exists T Q P rot' e,
    primary_solve Example.oracle (Example.case "rotor" true "bisect")
    = (Ok (T, Q, P), rot')
    /\ T < 0
    /\ Solver.run Example.oracle (Example.case "rotor" true "bisect")
       = (Raise e,
          after_primary (Example.case "rotor" true "bisect") (T, Q, P) rot').
Proof.
  destruct (example_solve "rotor" (Example.case "rotor" true "bisect")
              3000 10 1 eq_refl eq_refl ltac:(lra))
    as (T & Q & P & rot' & H & Hsign).
  assert (HT : T < 0).
  { assert (Hv : 10 <> 0) by lra. specialize (Hsign Hv).
    change (BladeSection.C_of_mode "rotor") with 1 in Hsign. lra. }
  assert (Hrho : 0 < rho (Solver.fluid (Example.case "rotor" true "bisect")))
    by (simpl; lra).
  destruct (negative_thrust_aborts Example.oracle
              (Example.case "rotor" true "bisect") T Q P rot'
              eq_refl H HT Hrho) as (e & _ & Hrun & _).
  exists T, Q, P, rot', e. split; [exact H|]. split; [exact HT|exact Hrun].
Defined.

(** ** The inflow of the primary rotor *)

(** C9: [run] solves the primary rotor with the rotor diameter as inflow
    radius, so every section whose radius is at most the blade radius (half
    the diameter), the radius or the diameter being positive, takes the
    branch [radius < r_inflow]: it receives the full free-stream velocity,
    and its loads are those computed with [v_inf]. *)
Theorem primary_inflow_is_free_stream
        (bisect : forall S : Type, (R -> M S R) -> R -> R -> M S R)
        (self : Solver.t) :
  (exists k,
     Solver.run bisect
     = bind (Solver.with_self (fun self =>
               zoom Solver.rotor Solver.set_rotor
                 (Solver.solve bisect self (Solver.rpm self)
                    (Solver.v_inf self)
                    (diameter (Rotor.geom (Solver.rotor self)))))) k)
  /\ forall sec,
       In sec (Rotor.sections (Solver.rotor self)) ->
       0 < BladeSection.radius sec
       \/ 0 < diameter (Rotor.geom (Solver.rotor self)) ->
       BladeSection.radius sec
       <= blade_radius (Rotor.geom (recomputed (Solver.rotor self))) ->
       Solver.inflow (BladeSection.radius sec) (Solver.v_inf self)
         (diameter (Rotor.geom (Solver.rotor self)))
       = Solver.v_inf self
       /\ forall rg omega,
            Spec.section_loads bisect self rg omega (Solver.v_inf self)
              (diameter (Rotor.geom (Solver.rotor self))) sec
            = (phi <- Solver.find_phi bisect self rg (Solver.v_inf self)
                        omega ;;
               BladeSection.forces rg phi (Solver.v_inf self) omega
                 (Solver.fluid self)) sec.
Proof.
  split.
  - eexists. unfold Solver.run. reflexivity.
  - intros sec _ Hpos Hle. cbn in Hle.
    assert (Hlt : BladeSection.radius sec
                  < diameter (Rotor.geom (Solver.rotor self)))
      by (destruct Hpos; lra).
    split.
    + unfold Solver.inflow.
      destruct (Rlt_dec _ _); [reflexivity|contradiction].
    + intros rg omega. unfold Spec.section_loads. rewrite bind_gets.
      destruct (Rlt_dec _ _); [reflexivity|contradiction].
Qed.

(** The section of the example rotor, at radius 0.3 under a diameter of 1. *)
Lemma primary_inflow_is_free_stream_witness :
  Solver.inflow 0.3 10 1 = 10.
Proof.
  refine (proj1 (proj2 (primary_inflow_is_free_stream Example.oracle
                          (Example.case "rotor" false "bisect"))
                   (Example.section_at 0.3 "rotor") _ _ _)).
  - simpl. auto.
  - left. simpl. lra.
  - simpl. lra.
Defined.

(** ** The sweep *)


Lemma fails_raise {S A} (e : exn) (s : S) : fails (@raise S A e) s.
Proof. exists e, s. reflexivity. Qed.

Lemma fails_bind {S A B} (m : M S A) (k : A -> M S B) (s : S) :
  (forall a s1, m s = (Ok a, s1) -> fails (k a) s1) -> fails (bind m k) s.
Proof.
  intros H. unfold fails, bind.
  destruct (m s) as [[a|e] s1]; [now apply H|eauto].
Qed.

Lemma fails_gets_bind {S A B} (f : S -> A) (k : A -> M S B) (s : S) :
  fails (k (f s)) s -> fails (bind (gets f) k) s.
Proof. intros H. exact H. Qed.

Lemma setattr_keeps_mode parameter p (s s1 : Solver.t) :
  Solver.setattr parameter p s = (Ok tt, s1) ->
  Solver.mode s1 = Solver.mode s /\ Solver.coaxial s1 = Solver.coaxial s.
Proof.
  unfold Solver.setattr.
  repeat match goal with
         | |- context [if ?b then _ else _] => destruct b
         end;
    unfold modify, raise, ret; intros H; try discriminate;
    injection H as <-; split; reflexivity.
Qed.

(** The coaxial branch of an iteration never gets to store its row. *)
Lemma sweep_step_coaxial_fails bisect parameter acc ip (s : Solver.t) :
  Solver.coaxial s = true ->
  String.eqb (Solver.mode s) "turbine" = false ->
  fails (Solver.sweep_step bisect parameter acc ip) s.
Proof.
  intros Hc Hm. unfold Solver.sweep_step.
  destruct acc as [df sections]. destruct ip as [i p].
  apply fails_bind. intros [] s1 Hset.
  destruct (setattr_keeps_mode _ _ _ _ Hset) as [Hm1 Hc1].
  apply fails_gets_bind. rewrite Hm1, Hm.
  apply fails_bind. intros [df' sec_df] s2 H.
  exfalso. revert H.
  assert (Hf : fails
            (cx <- gets Solver.coaxial ;;
             if cx : bool then
               r <- Solver.run bisect ;;
               ' (T, Q, P, sec_df0, (T2, Q2, P2, _)) <- Solver.unpack8 r ;;
               ' (_, _, _, _, _) <- Solver.rotor_coeffs T Q P ;;
               ' (_, _, _, _, _) <- Solver.rotor_coeffs T2 Q2 P2 ;;
               @raise Solver.t (SweepFrame * DataFrame) NameError
             else
               r <- Solver.run bisect ;;
               ' (T, Q, P, sec_df0) <- Solver.unpack4 r ;;
               ' (J, CT, CQ, CP, eta) <- Solver.rotor_coeffs T Q P ;;
               df'0 <- Solver.iloc_set i [p; T; Q; P; J; CT; CQ; CP; eta]
                         df ;;
               ret (df'0, sec_df0)) s1).
  { apply fails_gets_bind. rewrite Hc1, Hc.
    apply fails_bind. intros r s3 _.
    apply fails_bind. intros [[[[T Q] P] d] [[[T2 Q2] P2] d2]] s4 _.
    apply fails_bind. intros [[[[J CT] CQ] CP] eta] s5 _.
    apply fails_bind. intros [[[[J' CT2] CQ2] CP2] eta'] s6 _.
    apply fails_raise. }
  destruct Hf as (e & s' & Hf). intros H. rewrite Hf in H. discriminate.
Qed.

(** When the run and the coefficients of both rotors are there, what stops
    the iteration is the unbound name [eta2]. *)
Lemma sweep_step_unbound_name bisect parameter df sections i p
      (s s1 s2 : Solver.t) T Q P d T2 Q2 P2 d2 c1 c2 :
  Solver.coaxial s = true ->
  String.eqb (Solver.mode s) "turbine" = false ->
  Solver.setattr parameter p s = (Ok tt, s1) ->
  Solver.run bisect s1 = (Ok (Coaxial T Q P d T2 Q2 P2 d2), s2) ->
  Solver.rotor_coeffs T Q P s2 = (Ok c1, s2) ->
  Solver.rotor_coeffs T2 Q2 P2 s2 = (Ok c2, s2) ->
  Solver.sweep_step bisect parameter (df, sections) (i, p) s
  = (Raise NameError, s2).
Proof.
  intros Hc Hm Hset Hrun Hc1 Hc2. unfold Solver.sweep_step.
  destruct (setattr_keeps_mode _ _ _ _ Hset) as [Hm1 Hcx1].
  rewrite (bind_ok _ _ _ _ _ Hset), bind_gets, Hm1, Hm.
  apply bind_raise. rewrite bind_gets, Hcx1, Hc.
  rewrite (bind_ok _ _ _ _ _ Hrun).
  unfold Solver.unpack8. rewrite bind_ret.
  rewrite (bind_ok _ _ _ _ _ Hc1).
  destruct c1 as [[[[J CT] CQ] CP] eta].
  rewrite (bind_ok _ _ _ _ _ Hc2).
  destruct c2 as [[[[J' CT2] CQ2] CP2] eta'].
  reflexivity.
Qed.

(** C6 fails in the code for a coaxial propeller: whatever the parameter
    and the range, a sweep of at least one value raises instead of
    returning its table, because the row of the first iteration cannot be
    built. *)
Theorem run_sweep_coaxial_raises
        (bisect : forall S : Type, (R -> M S R) -> R -> R -> M S R)
        (self : Solver.t) (parameter : string) (n : nat) (low high : R) :
  Solver.coaxial self = true ->
  String.eqb (Solver.mode self) "turbine" = false ->
  (1 <= n)%nat ->
  exists e s',
    Solver.run_sweep bisect parameter n low high self = (Raise e, s').
Proof.
  intros Hc Hm Hn.
  change (fails (Solver.run_sweep bisect parameter n low high) self).
  unfold Solver.run_sweep.
  apply fails_bind. intros df s1 Hdf.
  unfold Solver.with_self, ret in Hdf. injection Hdf as <- <-.
  assert (Hl : exists p rest,
             enumerate (Np.linspace low high n) = (0%nat, p) :: rest).
  { destruct n as [|[|k]]; [lia| |].
    - cbn. eauto.
    - destruct (linspace_cons low high k) as (p & rest & ->).
      unfold enumerate. cbn [List.length seq combine]. eauto. }
  destruct Hl as (p & rest & ->). cbn [fold_keys].
  apply fails_bind. intros acc s1 H. exfalso.
  destruct (sweep_step_coaxial_fails bisect parameter
              (Solver.new_frame (Solver.sweep_cols self parameter) n, [])
              (0%nat, p) self Hc Hm) as (e & s' & Hf).
  rewrite Hf in H. discriminate.
Qed.

(** A sweep of the rpm of the coaxial example from 1000 to 5000 in five
    steps. *)
Lemma run_sweep_coaxial_raises_witness :
  exists e s',
    Solver.run_sweep Example.oracle "rpm" 5 1000 5000
      (Example.case "rotor" true "bisect") = (Raise e, s').
Proof.
  apply run_sweep_coaxial_raises; [reflexivity|reflexivity|lia].
Defined.

(** * Further properties of the code *)

(** ** Building a section *)

(** X1: [Section.__init__] raises ZeroDivisionError exactly when the radius is
    0 (the solidity divides by it); otherwise it returns a section with the
    geometry it was given, the sign convention of its mode, a solidity
    sigma with sigma*2*pi*radius = n_blades*chord, and every per-solve
    attribute at 0. *)
Theorem section_init_total af r w p c rotor mode :
  (r = 0 ->
   BladeSection.init af r w p c rotor mode = Raise ZeroDivisionError)
  /\ (r <> 0 ->
      exists s,
        BladeSection.init af r w p c rotor mode = Ok s
        /\ BladeSection.airfoil s = af /\ BladeSection.radius s = r
        /\ BladeSection.width s = w /\ BladeSection.pitch s = p
        /\ BladeSection.chord s = c
        /\ BladeSection.C s = BladeSection.C_of_mode mode
        /\ BladeSection.sigma s * (2 * PI * r) = IZR (n_blades rotor) * c
        /\ BladeSection.a s = 0 /\ BladeSection.ap s = 0
        /\ BladeSection.Re s = 0 /\ BladeSection.dT s = 0
        /\ BladeSection.dQ s = 0 /\ BladeSection.F s = 0
        /\ BladeSection.Cl s = 0 /\ BladeSection.Cd s = 0).
Proof.
  unfold BladeSection.init, BladeSection.precalc, bind, gets, modify, ret.
  cbv beta. simpl. unfold Py.div. split; intros Hr.
  - destruct (Req_dec_T (2 * PI * r) 0) as [_|Hn]; [reflexivity|].
    exfalso. apply Hn. rewrite Hr. ring.
  - destruct (Req_dec_T (2 * PI * r) 0) as [H0|Hn]; simpl.
    + exfalso. pose proof PI_RGT_0. nra.
    + eexists. split; [reflexivity|]. simpl.
      repeat split. field. pose proof PI_RGT_0. split; lra.
Qed.

(** A section of radius 0 cannot be built. *)
Lemma section_init_total_witness :
  BladeSection.init Example.constant_airfoil 0 0.1 (Py.radians 10) 0.05
    Example.geometry "rotor" = Raise ZeroDivisionError.
Proof.
  exact (proj1 (section_init_total Example.constant_airfoil 0 0.1
                  (Py.radians 10) 0.05 Example.geometry "rotor") eq_refl).
Defined.

(** ** The geometry of a section is never written *)

Lemma same_geometry_refl s : same_geometry s s.
Proof. repeat split. Qed.

Lemma same_geometry_trans s1 s2 s3 :
  same_geometry s1 s2 -> same_geometry s2 s3 -> same_geometry s1 s3.
Proof.
  unfold same_geometry.
  intros (H1 & H2 & H3 & H4 & H5 & H6 & H7) (K1 & K2 & K3 & K4 & K5 & K6 & K7).
  repeat split; congruence.
Qed.

Lemma tip_loss_geometry rotor phi :
  respects same_geometry (BladeSection.tip_loss rotor phi).
Proof.
  pose proof same_geometry_refl as Hr. pose proof same_geometry_trans as Ht.
  unfold BladeSection.tip_loss, BladeSection.prandtl,
    BladeSection.prandtl_formula.
  repeat respects_step.
  all: apply respects_modify; intros s; repeat split.
Qed.

Lemma induction_factors_geometry rotor phi :
  respects same_geometry (BladeSection.induction_factors rotor phi).
Proof.
  pose proof same_geometry_refl as Hr. pose proof same_geometry_trans as Ht.
  unfold BladeSection.induction_factors, BladeSection.airfoil_forces.
  repeat (respects_step || apply tip_loss_geometry).
Qed.

Lemma func_geometry rotor phi v_inf omega :
  respects same_geometry (BladeSection.func rotor phi v_inf omega).
Proof.
  pose proof same_geometry_refl as Hr. pose proof same_geometry_trans as Ht.
  unfold BladeSection.func.
  repeat (respects_step || apply induction_factors_geometry).
  all: apply respects_modify; intros s; repeat split.
Qed.

Lemma forces_geometry rotor phi v_inf omega fluid :
  respects same_geometry (BladeSection.forces rotor phi v_inf omega fluid).
Proof.
  pose proof same_geometry_refl as Hr. pose proof same_geometry_trans as Ht.
  unfold BladeSection.forces, BladeSection.airfoil_forces.
  repeat (respects_step || apply induction_factors_geometry).
  all: apply respects_modify; intros s; repeat split.
Qed.

(** X2: Whether they return or raise, [tip_loss], [induction_factors], [func]
    and [forces] leave airfoil, radius, width, pitch, chord, sign convention
    and solidity of the section as they found them. *)
Theorem section_methods_keep_geometry rotor phi v_inf omega fluid
        (s : BladeSection.t) :
  same_geometry s (snd (BladeSection.tip_loss rotor phi s))
  /\ same_geometry s (snd (BladeSection.induction_factors rotor phi s))
  /\ same_geometry s (snd (BladeSection.func rotor phi v_inf omega s))
  /\ same_geometry s (snd (BladeSection.forces rotor phi v_inf omega fluid s)).
Proof.
  split; [apply tip_loss_geometry|].
  split; [apply induction_factors_geometry|].
  split; [apply func_geometry|apply forces_geometry].
Qed.

(** ** More on the tip-loss factor *)

(** X3: [tip_loss] sees phi through its sine only: mirroring the inflow angle,
    phi to pi - phi, changes neither the factor nor what is stored. *)
Theorem tip_loss_mirror rotor phi (s : BladeSection.t) :
  phi <> 0 -> phi <> PI ->
  BladeSection.tip_loss rotor (PI - phi) s = BladeSection.tip_loss rotor phi s.
Proof.
  intros H0 HPI. unfold BladeSection.tip_loss.
  destruct (Req_dec_T (PI - phi) 0) as [H|_]; [exfalso; lra|].
  destruct (Req_dec_T phi 0) as [H|_]; [contradiction|].
  unfold BladeSection.prandtl. rewrite sin_PI_x. reflexivity.
Qed.

(** The middle section of the example rotor at phi = 1. *)
Lemma tip_loss_mirror_witness :
  BladeSection.tip_loss Example.geometry (PI - 1) Example.mid_section
  = BladeSection.tip_loss Example.geometry 1 Example.mid_section.
Proof.
  pose proof PI2_3_2.
  apply tip_loss_mirror; lra.
Defined.

(** X4: Under a negative inflow angle a section strictly between hub and tip
    has a tip-loss factor of exactly 0, as long as neither gap reaches the
    overflow guard ([n_blades*gap/(2*r*|sin phi|) <= 500]). *)
Theorem tip_loss_negative_angle rotor phi (s : BladeSection.t) :
  (1 <= n_blades rotor)%Z ->
  0 < BladeSection.radius s ->
  radius_hub rotor < BladeSection.radius s < blade_radius rotor ->
  - PI < phi < 0 ->
  IZR (n_blades rotor) * (blade_radius rotor - BladeSection.radius s)
  <= 500 * (2 * BladeSection.radius s * - sin phi) ->
  IZR (n_blades rotor) * (BladeSection.radius s - radius_hub rotor)
  <= 500 * (2 * BladeSection.radius s * - sin phi) ->
  BladeSection.tip_loss rotor phi s = (Ok 0, BladeSection.set_F 0 s).
Proof.
  intros Hn Hr [Hh Ht] [Hlo Hhi] Hg1 Hg2.
  assert (HnR : 1 <= IZR (n_blades rotor)) by now apply IZR_le.
  assert (Hs : sin phi < 0).
  { apply sin_lt_0_var; lra. }
  set (d := 2 * BladeSection.radius s * sin phi).
  assert (Hd : d < 0) by (unfold d; nra).
  assert (Hi : / d < 0) by now apply Rinv_neg.
  assert (Hgap : forall dr, 0 < dr ->
            IZR (n_blades rotor) * dr
            <= 500 * (2 * BladeSection.radius s * - sin phi) ->
            BladeSection.prandtl rotor dr (BladeSection.radius s) phi s
            = (Ok 0, s)).
  { intros dr Hdr Hg. fold d in Hg.
    assert (Hnum : 0 < IZR (n_blades rotor) * dr) by nra.
    apply prandtl_negative_sine; fold d.
    - lra.
    - unfold Rdiv. nra.
    - apply Rmult_le_reg_r with (- d); [lra|].
      replace (- (IZR (n_blades rotor) * dr / d) * - d)
        with (IZR (n_blades rotor) * dr) by (field; lra).
      unfold d in *. lra. }
  replace 0 with (0 * 0) by ring.
  apply tip_loss_product; [lra| |].
  - apply Hgap; [lra|exact Hg1].
  - apply Hgap; [lra|exact Hg2].
Qed.

(** The middle section of the example rotor at phi = -0.9*pi. *)
Lemma tip_loss_negative_angle_witness :
  BladeSection.tip_loss Example.geometry (- (0.9 * PI)) Example.mid_section
  = (Ok 0, BladeSection.set_F 0 Example.mid_section).
Proof.
  pose proof PI_RGT_0 as HPI.
  assert (Hsin : sin (- (0.9 * PI)) = - sin (0.1 * PI)).
  { rewrite sin_neg. f_equal. rewrite <- sin_PI_x. f_equal. lra. }
  destruct sin_tenth_PI as [Hlo Hhi].
  apply tip_loss_negative_angle; simpl; rewrite ?Hsin; try lia; lra.
Defined.

(** ** Where the residual cannot be evaluated *)






(** ** What [func] returns and stores *)

Lemma prandtl_state {S} rotor dr r phi (s : S) :
  snd (BladeSection.prandtl rotor dr r phi s) = s.
Proof.
  assert (H : respects (fun s s' : S => s' = s)
                       (BladeSection.prandtl rotor dr r phi)).
  { assert (Hr : forall s : S, s = s) by reflexivity.
    assert (Ht : forall s1 s2 s3 : S, s2 = s1 -> s3 = s2 -> s3 = s1)
      by (intros; congruence).
    unfold BladeSection.prandtl, BladeSection.prandtl_formula.
    repeat respects_step. }
  apply H.
Qed.

(** [tip_loss] either raises and stores nothing, or returns a factor and
    stores it. *)
Lemma tip_loss_cases rotor phi (s : BladeSection.t) :
  (exists e, BladeSection.tip_loss rotor phi s = (Raise e, s))
  \/ exists F, BladeSection.tip_loss rotor phi s
               = (Ok F, BladeSection.set_F F s).
Proof.
  unfold BladeSection.tip_loss.
  destruct (Req_dec_T phi 0); [right; exists 1; reflexivity|].
  unfold bind, gets, modify, ret. cbv beta.
  pose proof (prandtl_state rotor
                (blade_radius rotor - BladeSection.radius s)
                (BladeSection.radius s) phi s) as H1.
  destruct (BladeSection.prandtl rotor _ _ phi s) as [[x|e] s2];
    simpl in H1; subst s2; [|left; eauto].
  pose proof (prandtl_state rotor
                (BladeSection.radius s - radius_hub rotor)
                (BladeSection.radius s) phi s) as H2.
  destruct (BladeSection.prandtl rotor _ _ phi s) as [[y|e] s3];
    simpl in H2; subst s3; [|left; eauto].
  right. eauto.
Qed.

(** The factor depends on the section through its radius only. *)
Lemma tip_loss_same_radius rotor phi (s s2 : BladeSection.t) F :
  BladeSection.radius s2 = BladeSection.radius s ->
  BladeSection.tip_loss rotor phi s = (Ok F, BladeSection.set_F F s) ->
  BladeSection.tip_loss rotor phi s2 = (Ok F, BladeSection.set_F F s2).
Proof.
  intros Hrad. unfold BladeSection.tip_loss.
  destruct (Req_dec_T phi 0).
  - unfold bind, modify, ret. intros H. injection H as <-. reflexivity.
  - unfold bind, gets, modify, ret. cbv beta. rewrite Hrad.
    set (r := BladeSection.radius s).
    pose proof (prandtl_state rotor (blade_radius rotor - r) r phi s) as H1.
    pose proof (prandtl_state rotor (blade_radius rotor - r) r phi s2) as H1'.
    assert (E1 : fst (BladeSection.prandtl rotor (blade_radius rotor - r) r
                        phi s2)
                 = fst (BladeSection.prandtl rotor (blade_radius rotor - r) r
                          phi s)).
    { unfold BladeSection.prandtl, BladeSection.prandtl_formula, bind,
        Py.div, Py.exp, Py.acos, ret, raise.
      repeat match goal with
             | |- context [if ?b then _ else _] => destruct b
             end; reflexivity. }
    pose proof (prandtl_state rotor (r - radius_hub rotor) r phi s) as H2.
    pose proof (prandtl_state rotor (r - radius_hub rotor) r phi s2) as H2'.
    assert (E2 : fst (BladeSection.prandtl rotor (r - radius_hub rotor) r
                        phi s2)
                 = fst (BladeSection.prandtl rotor (r - radius_hub rotor) r
                          phi s)).
    { unfold BladeSection.prandtl, BladeSection.prandtl_formula, bind,
        Py.div, Py.exp, Py.acos, ret, raise.
      repeat match goal with
             | |- context [if ?b then _ else _] => destruct b
             end; reflexivity. }
    destruct (BladeSection.prandtl rotor (blade_radius rotor - r) r phi s)
      as [x1 t1].
    destruct (BladeSection.prandtl rotor (blade_radius rotor - r) r phi s2)
      as [x1' t1'].
    simpl in H1, H1', E1. subst t1 t1' x1'.
    destruct x1 as [x|e]; [|discriminate].
    destruct (BladeSection.prandtl rotor (r - radius_hub rotor) r phi s)
      as [x2 t2].
    destruct (BladeSection.prandtl rotor (r - radius_hub rotor) r phi s2)
      as [x2' t2'].
    simpl in H2, H2', E2. subst t2 t2' x2'.
    destruct x2 as [y|e]; [|discriminate].
    intros H. injection H as <-. reflexivity.
Qed.

Lemma induction_factors_inv rotor phi (s s1 : BladeSection.t) a ap :
  BladeSection.induction_factors rotor phi s = (Ok (a, ap), s1) ->
  exists F,
    BladeSection.tip_loss rotor phi s = (Ok F, BladeSection.set_F F s)
    /\ BladeSection.sigma s * Element.CT s phi <> 0
    /\ BladeSection.sigma s * Element.CQ s phi <> 0
    /\ Element.kappa s F phi - BladeSection.C s <> 0
    /\ Element.kappap s F phi + BladeSection.C s <> 0
    /\ a = Element.a_at s F phi /\ ap = Element.ap_at s F phi
    /\ s1 = BladeSection.set_F F s.
Proof.
  intros H.
  destruct (tip_loss_cases rotor phi s) as [[e Htip]|[F Htip]].
  { exfalso. revert H. unfold BladeSection.induction_factors.
    rewrite bind_gets, (bind_raise _ _ _ _ _ Htip). discriminate. }
  exists F. split; [exact Htip|]. revert H.
  unfold BladeSection.induction_factors.
  rewrite bind_gets, (bind_ok _ _ _ _ _ Htip).
  rewrite (bind_ok _ _ _ _ _ (airfoil_forces_value phi _)).
  cbv zeta. simpl BladeSection.C. simpl BladeSection.pitch.
  simpl BladeSection.airfoil. rewrite bind_gets. simpl BladeSection.sigma.
  fold (Element.alpha_at s phi). fold (Element.Cl_at s phi).
  fold (Element.Cd_at s phi). fold (Element.CT s phi).
  fold (Element.CQ s phi).
  set (s0 := BladeSection.set_F F s).
  destruct (div_cases (4 * F * sin phi ^ 2)
              (BladeSection.sigma s * Element.CT s phi) s0) as [Hr|[H1 Hk]];
    [rewrite (bind_raise _ _ _ _ _ Hr); discriminate|].
  rewrite (bind_ok _ _ _ _ _ Hk).
  destruct (div_cases (4 * F * sin phi * cos phi)
              (BladeSection.sigma s * Element.CQ s phi) s0) as [Hr|[H2 Hk']];
    [rewrite (bind_raise _ _ _ _ _ Hr); discriminate|].
  rewrite (bind_ok _ _ _ _ _ Hk').
  fold (Element.kappa s F phi). fold (Element.kappap s F phi).
  destruct (div_cases 1 (Element.kappa s F phi - BladeSection.C s) s0)
    as [Hr|[H3 Ha]];
    [rewrite (bind_raise _ _ _ _ _ Hr); discriminate|].
  rewrite (bind_ok _ _ _ _ _ Ha).
  destruct (div_cases 1 (Element.kappap s F phi + BladeSection.C s) s0)
    as [Hr|[H4 Hap]];
    [rewrite (bind_raise _ _ _ _ _ Hr); discriminate|].
  rewrite (bind_ok _ _ _ _ _ Hap).
  unfold ret. intros H. injection H as <- <- <-.
  repeat split; assumption.
Qed.




(** ** What [forces] returns *)

Lemma forces_inv rotor phi v_inf omega fluid (s s' : BladeSection.t) x y :
  BladeSection.forces rotor phi v_inf omega fluid s = (Ok (x, y), s') ->
  exists F,
    BladeSection.tip_loss rotor phi s = (Ok F, BladeSection.set_F F s)
    /\ BladeSection.sigma s * Element.CT s phi <> 0
    /\ BladeSection.sigma s * Element.CQ s phi <> 0
    /\ Element.kappa s F phi - BladeSection.C s <> 0
    /\ Element.kappap s F phi + BladeSection.C s <> 0
    /\ mu fluid <> 0
    /\ x = Element.dT_at s fluid F phi v_inf omega
    /\ y = Element.dQ_at s fluid F phi v_inf omega
    /\ s' = Element.after_forces s fluid F phi v_inf omega.
Proof.
  intros H.
  destruct (BladeSection.induction_factors rotor phi s)
    as [[[a ap]|e] s1] eqn:Hi.
  - destruct (induction_factors_inv _ _ _ _ _ _ Hi)
      as (F & Htip & H1 & H2 & H3 & H4 & _ & _ & _).
    exists F.
    destruct (Req_dec_T (mu fluid) 0) as [Hmu|Hmu].
    + exfalso. revert H. unfold BladeSection.forces.
      rewrite !bind_gets.
      rewrite (bind_ok _ _ _ _ _
                 (induction_factors_ok _ _ _ _ Htip H1 H2 H3 H4)).
      rewrite (bind_ok _ _ _ _ _ (airfoil_forces_value phi _)).
      cbv zeta.
      rewrite (bind_ok _ _ _ _ _ (sqrt_ok _ _
                 ltac:(apply Rplus_le_le_0_compat; apply pow2_ge_0))).
      rewrite bind_gets.
      rewrite (bind_raise _ _ _ _ _ (div_zero _ _ _ Hmu)). discriminate.
    + rewrite (forces_ok _ _ _ _ _ _ _ Htip H1 H2 H3 H4 Hmu) in H.
      injection H as <- <- <-. repeat split; assumption.
  - exfalso. revert H. unfold BladeSection.forces.
    rewrite !bind_gets, (bind_raise _ _ _ _ _ Hi). discriminate.
Qed.

Lemma element_same_geometry (s s2 : BladeSection.t) fluid F phi v_inf omega :
  same_geometry s s2 ->
  Element.CT s2 phi = Element.CT s phi
  /\ Element.CQ s2 phi = Element.CQ s phi
  /\ Element.kappa s2 F phi = Element.kappa s F phi
  /\ Element.kappap s2 F phi = Element.kappap s F phi
  /\ Element.dT_at s2 fluid F phi v_inf omega
     = Element.dT_at s fluid F phi v_inf omega
  /\ Element.dQ_at s2 fluid F phi v_inf omega
     = Element.dQ_at s fluid F phi v_inf omega
  /\ Element.Re_at s2 fluid F phi v_inf omega
     = Element.Re_at s fluid F phi v_inf omega.
Proof.
  intros (Ha & Hr & Hw & Hp & Hc & HC & Hs).
  unfold Element.dT_at, Element.dQ_at, Element.Re_at, Element.U,
    Element.a_at, Element.ap_at, Element.kappa, Element.kappap, Element.CT,
    Element.CQ, Element.Cl_at, Element.Cd_at, Element.alpha_at.
  rewrite Ha, Hr, Hw, Hp, Hc, HC, Hs. repeat split.
Qed.

Lemma forces_transfer rotor phi v_inf omega fluid
      (s s' s2 : BladeSection.t) x y :
  same_geometry s s2 ->
  BladeSection.forces rotor phi v_inf omega fluid s = (Ok (x, y), s') ->
  exists F,
    s' = Element.after_forces s fluid F phi v_inf omega
    /\ BladeSection.forces rotor phi v_inf omega fluid s2
       = (Ok (x, y), Element.after_forces s2 fluid F phi v_inf omega)
    /\ Element.after_forces s2 fluid F phi v_inf omega
       = BladeSection.set_dQ y
           (BladeSection.set_dT x
              (BladeSection.set_Re (BladeSection.Re s')
                 (BladeSection.set_F (BladeSection.F s') s2))).
Proof.
  intros Hg H.
  destruct (forces_inv _ _ _ _ _ _ _ _ _ H)
    as (F & Htip & H1 & H2 & H3 & H4 & Hmu & -> & -> & ->).
  exists F. split; [reflexivity|].
  destruct (element_same_geometry s s2 fluid F phi v_inf omega Hg)
    as (ECT & ECQ & Ek & Ekp & EdT & EdQ & ERe).
  destruct Hg as (Ha & Hr & Hw & Hp & Hc & HC & Hs).
  split.
  - rewrite <- EdT, <- EdQ. apply forces_ok.
    + now apply (tip_loss_same_radius rotor phi s s2).
    + now rewrite Hs, ECT.
    + now rewrite Hs, ECQ.
    + now rewrite Ek, HC.
    + now rewrite Ekp, HC.
    + exact Hmu.
  - unfold Element.after_forces. simpl. now rewrite EdT, EdQ, ERe.
Qed.

(** X8: The loads that [forces] returns depend on the section through its
    geometry only: on a section of the same geometry, whatever earlier
    calls have left in its per-solve attributes, [forces] returns the same
    (dT, dQ) and stores the same F, Re, dT and dQ. *)
Theorem forces_depends_on_geometry rotor phi v_inf omega fluid
        (s s' s2 : BladeSection.t) x y :
  same_geometry s s2 ->
  BladeSection.forces rotor phi v_inf omega fluid s = (Ok (x, y), s') ->
  exists s2',
    BladeSection.forces rotor phi v_inf omega fluid s2 = (Ok (x, y), s2')
    /\ BladeSection.F s2' = BladeSection.F s'
    /\ BladeSection.Re s2' = BladeSection.Re s'
    /\ BladeSection.dT s2' = BladeSection.dT s'
    /\ BladeSection.dQ s2' = BladeSection.dQ s'
    /\ BladeSection.a s2' = BladeSection.a s2
    /\ BladeSection.ap s2' = BladeSection.ap s2.
Proof.
  intros Hg H.
  destruct (forces_transfer _ _ _ _ _ _ _ _ _ _ Hg H)
    as (F & Hs' & H2 & Hst).
  destruct (forces_returns_stored _ _ _ _ _ _ _ _ H) as [HdT HdQ].
  eexists. split; [exact H2|]. rewrite Hst. simpl.
  repeat split; congruence.
Qed.

(** X9: Calling [forces] a second time with the same arguments returns the
    same loads and changes nothing on the section. *)
Theorem forces_idempotent rotor phi v_inf omega fluid
        (s s' : BladeSection.t) x y :
  BladeSection.forces rotor phi v_inf omega fluid s = (Ok (x, y), s') ->
  BladeSection.forces rotor phi v_inf omega fluid s' = (Ok (x, y), s').
Proof.
  intros H.
  assert (Hg : same_geometry s s').
  { pose proof (forces_geometry rotor phi v_inf omega fluid s) as Hg.
    now rewrite H in Hg. }
  destruct (forces_transfer _ _ _ _ _ _ _ _ _ _ Hg H)
    as (F & Hs' & H2 & Hst).
  rewrite H2. f_equal. rewrite Hst.
  destruct (forces_returns_stored _ _ _ _ _ _ _ _ H) as [<- <-].
  destruct s'. reflexivity.
Qed.

(** X10: With no inflow and no rotation the element sees no flow: when [forces]
    returns, the loads and the Reynolds number are 0. *)
Theorem forces_at_rest rotor phi fluid (s s' : BladeSection.t) x y :
  BladeSection.forces rotor phi 0 0 fluid s = (Ok (x, y), s') ->
  x = 0 /\ y = 0 /\ BladeSection.Re s' = 0.
Proof.
  intros H.
  destruct (forces_inv _ _ _ _ _ _ _ _ _ H)
    as (F & _ & _ & _ & _ & _ & _ & -> & -> & ->).
  assert (HU : Element.U s F phi 0 0 = 0).
  { unfold Element.U.
    replace (((1 + BladeSection.C s * Element.a_at s F phi) * 0) ^ 2
             + ((1 - BladeSection.C s * Element.ap_at s F phi) * 0
                * BladeSection.radius s) ^ 2) with 0 by ring.
    apply sqrt_0. }
  unfold Element.dT_at, Element.dQ_at. simpl.
  unfold Element.Re_at. rewrite HU. unfold Rdiv. repeat split; ring.
Qed.

(** The example section after a residual call has left a = 3/10 and
    a' = 1/5 behind, against the freshly built one. *)
Lemma forces_depends_on_geometry_witness :
  exists x y s' s2',
    BladeSection.forces Example.geometry (PI / 2) 10 (3000 * 2 * PI / 60)
      Example.air Example.mid_section = (Ok (x, y), s')
    /\ BladeSection.forces Example.geometry (PI / 2) 10 (3000 * 2 * PI / 60)
         Example.air
         (BladeSection.set_a (3 / 10)
            (BladeSection.set_ap (1 / 5) Example.mid_section))
       = (Ok (x, y), s2')
    /\ BladeSection.dT s2' = BladeSection.dT s'.
Proof.
  destruct (example_forces Example.geometry "rotor" 10 (3000 * 2 * PI / 60)
              ltac:(repeat split)) as (F & _ & _ & H & _).
  destruct (forces_depends_on_geometry Example.geometry (PI / 2) 10
              (3000 * 2 * PI / 60) Example.air Example.mid_section _
              (BladeSection.set_a (3 / 10)
                 (BladeSection.set_ap (1 / 5) Example.mid_section))
              _ _ ltac:(repeat split) H)
    as (s2' & H2 & _ & _ & HdT & _).
  do 4 eexists. split; [exact H|]. split; [exact H2|exact HdT].
Defined.

(** The example section at phi = pi/2. *)
Lemma forces_idempotent_witness :
  exists x y s',
    BladeSection.forces Example.geometry (PI / 2) 10 (3000 * 2 * PI / 60)
      Example.air Example.mid_section = (Ok (x, y), s')
    /\ BladeSection.forces Example.geometry (PI / 2) 10 (3000 * 2 * PI / 60)
         Example.air s' = (Ok (x, y), s').
Proof.
  destruct (example_forces Example.geometry "rotor" 10 (3000 * 2 * PI / 60)
              ltac:(repeat split)) as (F & _ & _ & H & _).
  do 3 eexists. split; [exact H|].
  exact (forces_idempotent _ _ _ _ _ _ _ _ _ H).
Defined.

(** The example section at phi = pi/2 with the rotor at rest in still
    air. *)
Lemma forces_at_rest_witness :
  exists x y s',
    BladeSection.forces Example.geometry (PI / 2) 0 0 Example.air
      Example.mid_section = (Ok (x, y), s')
    /\ x = 0 /\ y = 0 /\ BladeSection.Re s' = 0.
Proof.
  destruct (example_forces Example.geometry "rotor" 0 0
              ltac:(repeat split)) as (F & _ & _ & H & _).
  do 3 eexists. split; [exact H|].
  exact (forces_at_rest _ _ _ _ _ _ _ H).
Defined.

(** ** The rotor *)

(** X11: [Rotor.precalc] never raises and only recomputes blade radius and disk
    area from the diameter: the area is pi*diameter^2/4, blade count,
    diameter, hub radius and sections are kept, and a second call changes
    nothing. *)
Theorem rotor_precalc_idempotent (rot : Rotor.t) :
  exists rot',
    Rotor.precalc rot = (Ok tt, rot')
    /\ Rotor.precalc rot' = (Ok tt, rot')
    /\ 2 * blade_radius (Rotor.geom rot') = diameter (Rotor.geom rot)
    /\ 4 * area (Rotor.geom rot') = PI * diameter (Rotor.geom rot) ^ 2
    /\ n_blades (Rotor.geom rot') = n_blades (Rotor.geom rot)
    /\ diameter (Rotor.geom rot') = diameter (Rotor.geom rot)
    /\ radius_hub (Rotor.geom rot') = radius_hub (Rotor.geom rot)
    /\ Rotor.sections rot' = Rotor.sections rot.
Proof.
  exists (recomputed rot). split; [reflexivity|].
  split; [reflexivity|].
  split; [simpl; lra|].
  split; [|repeat split].
  simpl. set (d := diameter (Rotor.geom rot)). lra.
Qed.

(** X12: [sections_dataframe] never raises and leaves the rotor as it is; the
    table has the eleven columns radius, chord, pitch, Cl, Cd, dT, dQ, F, a,
    ap, Re in this order, each with one value per section. *)
Theorem sections_dataframe_shape (rot : Rotor.t) :
  exists df,
    Rotor.sections_dataframe rot = (Ok df, rot)
    /\ map fst df = Rotor.columns
    /\ Forall (fun col => List.length (snd col)
                          = List.length (Rotor.sections rot)) df.
Proof.
  exists (summary_of (Rotor.sections rot)).
  split; [apply sections_dataframe_value|].
  split; [reflexivity|].
  unfold summary_of. repeat constructor; apply length_map.
Qed.

(** *** The loop of [Rotor.__init__] *)

Lemma add_section_cases s c r dr mode i (st : Rotor.t) :
  match nth_error s i, nth_error r i, nth_error dr i,
        nth_error (Rotor.alpha st) i, nth_error c i with
  | Some af, Some ri, Some dri, Some al, Some ci =>
      match BladeSection.init af ri dri (Py.radians al) ci (Rotor.geom st)
              mode with
      | Ok sec =>
          Rotor.add_section s c r dr mode i st
          = (Ok tt, Rotor.set_sections (Rotor.sections st ++ [sec]) st)
      | Raise e => Rotor.add_section s c r dr mode i st = (Raise e, st)
      end
  | _, _, _, _, _ =>
      Rotor.add_section s c r dr mode i st = (Raise IndexError, st)
  end.
Proof.
  unfold Rotor.add_section, index, bind, gets, ret, raise, modify.
  destruct (nth_error s i); [|reflexivity].
  destruct (nth_error r i); [|reflexivity].
  destruct (nth_error dr i); [|reflexivity].
  destruct (nth_error (Rotor.alpha st) i); [|reflexivity].
  destruct (nth_error c i); [|reflexivity].
  destruct (BladeSection.init _ _ _ _ _ _ _); reflexivity.
Qed.

Lemma init_inv af r w p c rotor mode sec :
  BladeSection.init af r w p c rotor mode = Ok sec ->
  r <> 0
  /\ sec = BladeSection.set_sigma (IZR (n_blades rotor) * c / (2 * PI * r))
             {| BladeSection.airfoil := af; BladeSection.radius := r;
                BladeSection.width := w; BladeSection.pitch := p;
                BladeSection.chord := c;
                BladeSection.C := BladeSection.C_of_mode mode;
                BladeSection.v := 0; BladeSection.v_theta := 0;
                BladeSection.v_rel := 0; BladeSection.a := 0;
                BladeSection.ap := 0; BladeSection.Re := 0;
                BladeSection.alpha := 0; BladeSection.dT := 0;
                BladeSection.dQ := 0; BladeSection.F := 0;
                BladeSection.Cl := 0; BladeSection.Cd := 0;
                BladeSection.sigma := 0 |}.
Proof.
  unfold BladeSection.init, BladeSection.precalc, bind, gets, modify, ret.
  cbv beta. simpl. unfold Py.div.
  destruct (Req_dec_T (2 * PI * r) 0) as [H0|H0]; simpl; [discriminate|].
  intros H. injection H as <-. split; [|reflexivity].
  intros ->. apply H0. ring.
Qed.

Lemma firstn_skipn_cons {A} (l : list A) k m x :
  nth_error l k = Some x ->
  firstn (S m) (skipn k l) = x :: firstn m (skipn (S k) l).
Proof.
  revert k. induction l as [|y l IH]; intros [|k] H; simpl in H;
    try discriminate.
  - now injection H as ->.
  - apply (IH k H).
Qed.

Lemma nth_error_in_range {A} (l : list A) k :
  (k < List.length l)%nat -> exists x, nth_error l k = Some x.
Proof.
  intros H. destruct (nth_error l k) eqn:E; [eauto|].
  apply nth_error_None in E. lia.
Qed.

Lemma init_fresh af r w p c rotor mode sec :
  BladeSection.init af r w p c rotor mode = Ok sec ->
  BladeSection.airfoil sec = af /\ BladeSection.radius sec = r
  /\ BladeSection.width sec = w /\ BladeSection.pitch sec = p
  /\ BladeSection.chord sec = c
  /\ fresh_section (n_blades rotor) mode sec.
Proof.
  intros H. destruct (init_inv _ _ _ _ _ _ _ _ H) as [Hr ->].
  unfold fresh_section. simpl. repeat split.
  pose proof PI_RGT_0. field. split; lra.
Qed.

Lemma add_sections_ok s c r dr mode m :
  forall k (st : Rotor.t),
    (k + m <= List.length s)%nat -> (k + m <= List.length c)%nat ->
    (k + m <= List.length r)%nat -> (k + m <= List.length dr)%nat ->
    (k + m <= List.length (Rotor.alpha st))%nat ->
    Forall (fun x => x <> 0) (firstn m (skipn k r)) ->
    exists us secs,
      for_keys (Rotor.add_section s c r dr mode) (seq k m) st
      = (Ok us, Rotor.set_sections (Rotor.sections st ++ secs) st)
      /\ map BladeSection.airfoil secs = firstn m (skipn k s)
      /\ map BladeSection.radius secs = firstn m (skipn k r)
      /\ map BladeSection.chord secs = firstn m (skipn k c)
      /\ map BladeSection.width secs = firstn m (skipn k dr)
      /\ map BladeSection.pitch secs
         = map Py.radians (firstn m (skipn k (Rotor.alpha st)))
      /\ Forall (fresh_section (n_blades (Rotor.geom st)) mode) secs.
Proof.
  induction m as [|m IH]; intros k st Hs Hc Hr Hdr Hal Hnz.
  - exists [], []. cbn [seq for_keys]. rewrite app_nil_r.
    split; [destruct st; reflexivity|]. repeat split. constructor.
  - destruct (nth_error_in_range s k ltac:(lia)) as [af Eaf].
    destruct (nth_error_in_range c k ltac:(lia)) as [ci Eci].
    destruct (nth_error_in_range r k ltac:(lia)) as [ri Eri].
    destruct (nth_error_in_range dr k ltac:(lia)) as [dri Edri].
    destruct (nth_error_in_range (Rotor.alpha st) k ltac:(lia)) as [al Eal].
    rewrite (firstn_skipn_cons _ _ _ _ Eri) in Hnz.
    inversion Hnz as [|? ? Hri Hrest]; subst.
    destruct (init_ok af ri dri (Py.radians al) ci (Rotor.geom st) mode Hri)
      as [sec Hsec].
    pose proof (add_section_cases s c r dr mode k st) as Hstep.
    rewrite Eaf, Eri, Edri, Eal, Eci, Hsec in Hstep.
    set (st1 := Rotor.set_sections (Rotor.sections st ++ [sec]) st) in *.
    destruct (IH (S k) st1 ltac:(lia) ltac:(lia) ltac:(lia) ltac:(lia)
                ltac:(simpl; lia) Hrest)
      as (us & secs & Hloop & Ha & Hrad & Hch & Hw & Hp & Hfresh).
    exists (tt :: us), (sec :: secs).
    destruct (init_fresh _ _ _ _ _ _ _ _ Hsec)
      as (Fa & Fr & Fw & Fp & Fc & Ffresh).
    split.
    + cbn [seq for_keys]. rewrite (bind_ok _ _ _ _ _ Hstep).
      rewrite (bind_ok _ _ _ _ _ Hloop). unfold ret, st1. simpl.
      now rewrite <- app_assoc.
    + rewrite (firstn_skipn_cons _ _ _ _ Eaf), (firstn_skipn_cons _ _ _ _ Eri),
        (firstn_skipn_cons _ _ _ _ Eci), (firstn_skipn_cons _ _ _ _ Edri),
        (firstn_skipn_cons _ _ _ _ Eal).
      cbn [map]. rewrite Ha, Hrad, Hch, Hw, Hp, Fa, Fr, Fc, Fw, Fp.
      repeat split. constructor; assumption.
Qed.

Lemma add_sections_widths s c r mode x n m :
  forall k (st st' : Rotor.t) us,
    for_keys (Rotor.add_section s c r (repeat x n) mode) (seq k m) st
    = (Ok us, st') ->
    Forall (fun sec => BladeSection.width sec = x) (Rotor.sections st) ->
    Forall (fun sec => BladeSection.width sec = x) (Rotor.sections st')
    /\ Rotor.geom st' = Rotor.geom st.
Proof.
  induction m as [|m IH]; intros k st st' us H Hall.
  - cbn in H. injection H as <- <-. now split.
  - cbn [seq for_keys] in H.
    pose proof (add_section_cases s c r (repeat x n) mode k st) as Hstep.
    destruct (nth_error s k); [|rewrite (bind_raise _ _ _ _ _ Hstep) in H;
                                 discriminate].
    destruct (nth_error r k); [|rewrite (bind_raise _ _ _ _ _ Hstep) in H;
                                 discriminate].
    destruct (nth_error (repeat x n) k) as [dri|] eqn:Edr;
      [|rewrite (bind_raise _ _ _ _ _ Hstep) in H; discriminate].
    destruct (nth_error (Rotor.alpha st) k);
      [|rewrite (bind_raise _ _ _ _ _ Hstep) in H; discriminate].
    destruct (nth_error c k);
      [|rewrite (bind_raise _ _ _ _ _ Hstep) in H; discriminate].
    destruct (BladeSection.init _ _ _ _ _ _ _) as [sec|e] eqn:Hsec;
      [|rewrite (bind_raise _ _ _ _ _ Hstep) in H; discriminate].
    rewrite (bind_ok _ _ _ _ _ Hstep) in H.
    destruct (for_keys (Rotor.add_section s c r (repeat x n) mode)
                (seq (S k) m)
                (Rotor.set_sections (Rotor.sections st ++ [sec]) st))
      as [[us'|e] st2] eqn:Hloop;
      [|rewrite (bind_raise _ _ _ _ _ Hloop) in H; discriminate].
    rewrite (bind_ok _ _ _ _ _ Hloop) in H. injection H as <- <-.
    assert (Hx : dri = x).
    { apply nth_error_In in Edr. now apply repeat_spec in Edr. }
    destruct (init_fresh _ _ _ _ _ _ _ _ Hsec) as (_ & _ & Fw & _).
    destruct (IH _ _ _ _ Hloop) as [Hall' Hg].
    + simpl. apply Forall_app. split; [exact Hall|].
      constructor; [congruence|constructor].
    + split; [exact Hall'|exact Hg].
Qed.

(** X13: [Rotor.__init__] with the option dr: when chord, radius, dr and pitch
    have at least as many entries as there are airfoils in section and none
    of the radii used is 0, the rotor is built with exactly one section per
    airfoil, in the order of the lists: section i has radius r[i], chord
    c[i], width dr[i] and pitch radians(pitch[i]), the sign convention of
    the mode, the solidity of its radius, and all per-solve attributes at 0;
    blade radius and disk area are those of the diameter.  Entries of the
    lists beyond the number of airfoils are ignored. *)
Theorem rotor_init_sections nblades d s c r l pitch hub mode :
  (List.length s <= List.length c)%nat ->
  (List.length s <= List.length r)%nat ->
  (List.length s <= List.length l)%nat ->
  (List.length s <= List.length pitch)%nat ->
  Forall (fun x => x <> 0) (firstn (List.length s) r) ->
  exists rot,
    Rotor.init nblades d s c r (Some l) pitch hub mode = Ok rot
    /\ Rotor.n_sections rot = List.length s
    /\ map BladeSection.airfoil (Rotor.sections rot) = s
    /\ map BladeSection.radius (Rotor.sections rot)
       = firstn (List.length s) r
    /\ map BladeSection.chord (Rotor.sections rot)
       = firstn (List.length s) c
    /\ map BladeSection.width (Rotor.sections rot)
       = firstn (List.length s) l
    /\ map BladeSection.pitch (Rotor.sections rot)
       = map Py.radians (firstn (List.length s) pitch)
    /\ Forall (fresh_section nblades mode) (Rotor.sections rot)
    /\ Rotor.geom rot
       = {| n_blades := nblades; diameter := d; radius_hub := hub;
            blade_radius := 0.5 * d; area := PI * (0.5 * d) ^ 2 |}.
Proof.
  intros Hc Hr Hl Hp Hnz.
  set (st0 := Rotor.set_sections []
                (Rotor.set_alpha pitch
                   (Rotor.set_n_sections (List.length s)
                      (Rotor.blank nblades d)))).
  destruct (add_sections_ok s c r l mode (List.length s) 0 st0
              ltac:(lia) ltac:(lia) ltac:(lia) ltac:(lia)
              ltac:(simpl; lia) Hnz)
    as (us & secs & Hloop & Ha & Hrad & Hch & Hw & Hpi & Hfresh).
  eexists. split.
  - unfold Rotor.init.
    rewrite bind_modify, bind_gets, bind_ret, bind_modify, bind_modify.
    change (Rotor.n_sections
              (Rotor.set_n_sections (List.length s) (Rotor.blank nblades d)))
      with (List.length s).
    fold st0. rewrite (bind_ok _ _ _ _ _ Hloop). rewrite bind_modify.
    reflexivity.
  - simpl. rewrite Ha, Hrad, Hch, Hw, Hpi. simpl.
    rewrite firstn_all. repeat split. exact Hfresh.
Qed.

(** Four airfoils for three chords, radii, widths and pitches would stop
    with IndexError; here the lists are longer than needed. *)
Lemma rotor_init_sections_witness :
  exists rot,
    Rotor.init 2 1 [Example.constant_airfoil; Example.constant_airfoil]
      [0.05; 0.04; 0.03] [0.2; 0.3; 0.4] (Some [0.1; 0.1; 0.1])
      [12; 10; 8] 0.1 "rotor" = Ok rot
    /\ map BladeSection.radius (Rotor.sections rot) = [0.2; 0.3]
    /\ map BladeSection.chord (Rotor.sections rot) = [0.05; 0.04].
Proof.
  destruct (rotor_init_sections 2 1
              [Example.constant_airfoil; Example.constant_airfoil]
              [0.05; 0.04; 0.03] [0.2; 0.3; 0.4] [0.1; 0.1; 0.1]
              [12; 10; 8] 0.1 "rotor")
    as (rot & H & _ & _ & Hr & Hc & _);
    [simpl; lia|simpl; lia|simpl; lia|simpl; lia| |].
  - repeat constructor; lra.
  - exists rot. repeat split; assumption.
Defined.

(** X14: [Rotor.__init__] without the option dr: the width of every section is
    r[1] - r[0], so a rotor described by fewer than two radii cannot be
    built, not even one of a single section: IndexError.  When the rotor is
    built, all its sections have that one width. *)
Theorem rotor_init_default_width nblades d s c r pitch hub mode :
  ((List.length r < 2)%nat ->
   Rotor.init nblades d s c r None pitch hub mode = Raise IndexError)
  /\ (forall rot,
        Rotor.init nblades d s c r None pitch hub mode = Ok rot ->
        exists r0 r1 rest,
          r = r0 :: r1 :: rest
          /\ Forall (fun sec => BladeSection.width sec = r1 - r0)
                    (Rotor.sections rot)).
Proof.
  split.
  - intros Hlen. destruct r as [|r0 [|r1 rest]]; [reflexivity..|].
    simpl in Hlen. lia.
  - intros rot H. destruct r as [|r0 [|r1 rest]];
      [discriminate H..|].
    exists r0, r1, rest. split; [reflexivity|].
    unfold Rotor.init in H.
    unfold index in H. cbn [nth_error] in H.
    unfold bind, ret, modify, gets in H.
    match type of H with
    | context [for_keys ?f ?ks ?st] =>
        destruct (for_keys f ks st) as [[us|e] st'] eqn:Hloop
    end; [|discriminate].
    destruct (add_sections_widths _ _ _ _ _ _ _ _ _ _ _ Hloop
                ltac:(constructor)) as [Hall _].
    simpl in H. injection H as <-. exact Hall.
Qed.

(** A rotor of one section described by its single radius. *)
Lemma rotor_init_default_width_witness :
  Rotor.init 2 1 [Example.constant_airfoil] [0.05] [0.3] None [10] 0.1
    "rotor" = Raise IndexError.
Proof.
  apply (proj1 (rotor_init_default_width 2 1 [Example.constant_airfoil]
                  [0.05] [0.3] [10] 0.1 "rotor")).
  simpl. lia.
Defined.

(** ** The non-dimensional coefficients *)

Lemma rotor_coeffs_inv T Q P (s s' : Solver.t) J CT CQ CP eta :
  Solver.rotor_coeffs T Q P s = (Ok (J, CT, CQ, CP, eta), s') ->
  let D := diameter (Rotor.geom (Solver.rotor s)) in
  let n := Solver.rpm s / 60 in
  let rh := rho (Solver.fluid s) in
  s' = s
  /\ n * D <> 0 /\ rh * n ^ 2 * D ^ 4 <> 0 /\ rh * n ^ 2 * D ^ 5 <> 0
  /\ CP <> 0
  /\ J = Solver.v_inf s / (n * D)
  /\ CT = T / (rh * n ^ 2 * D ^ 4)
  /\ CQ = Q / (rh * n ^ 2 * D ^ 5)
  /\ CP = 2 * PI * CQ
  /\ eta = (if Req_dec_T J 0 then CT / CP else CT / CP * J).
Proof.
  intros H D n rh. revert H. unfold Solver.rotor_coeffs.
  rewrite !bind_gets. fold D n rh. cbv zeta.
  destruct (div_cases (Solver.v_inf s) (n * D) s) as [E|[H1 E]];
    [rewrite (bind_raise _ _ _ _ _ E); discriminate|].
  rewrite (bind_ok _ _ _ _ _ E). clear E.
  destruct (div_cases T (rh * n ^ 2 * D ^ 4) s) as [E|[H2 E]];
    [rewrite (bind_raise _ _ _ _ _ E); discriminate|].
  rewrite (bind_ok _ _ _ _ _ E). clear E.
  destruct (div_cases Q (rh * n ^ 2 * D ^ 5) s) as [E|[H3 E]];
    [rewrite (bind_raise _ _ _ _ _ E); discriminate|].
  rewrite (bind_ok _ _ _ _ _ E). clear E.
  destruct (Req_dec_T (Solver.v_inf s / (n * D)) 0) as [HJ|HJ].
  - destruct (div_cases (T / (rh * n ^ 2 * D ^ 4))
                (2 * PI * (Q / (rh * n ^ 2 * D ^ 5))) s) as [E|[H4 E]];
      [rewrite (bind_raise _ _ _ _ _ E); discriminate|].
    rewrite (bind_ok _ _ _ _ _ E). unfold ret. intros H.
    injection H as <- <- <- <- <- <-.
    destruct (Req_dec_T (Solver.v_inf s / (n * D)) 0); [|contradiction].
    repeat split; assumption.
  - unfold bind at 1.
    destruct (div_cases (T / (rh * n ^ 2 * D ^ 4))
                (2 * PI * (Q / (rh * n ^ 2 * D ^ 5))) s) as [E|[H4 E]].
    + rewrite (bind_raise _ _ _ _ _ E). discriminate.
    + rewrite (bind_ok _ _ _ _ _ E). unfold ret. intros H.
      injection H as <- <- <- <- <- <-.
      destruct (Req_dec_T (Solver.v_inf s / (n * D)) 0); [contradiction|].
      repeat split; assumption.
Qed.

Lemma rotor_coeffs_returns T Q (s : Solver.t) :
  Solver.rpm s <> 0 -> diameter (Rotor.geom (Solver.rotor s)) <> 0 ->
  rho (Solver.fluid s) <> 0 -> Q <> 0 ->
  exists c, forall P, Solver.rotor_coeffs T Q P s = (Ok c, s).
Proof.
  set (D := diameter (Rotor.geom (Solver.rotor s))).
  set (n := Solver.rpm s / 60).
  set (rh := rho (Solver.fluid s)).
  assert (Hn : n = 0 <-> Solver.rpm s = 0) by (unfold n; lra).
  pose proof PI_RGT_0 as HPI.
  intros Hrpm HD Hrho HQ.
  assert (Hn0 : n <> 0) by tauto.
  assert (H1 : n * D <> 0)
    by (apply Rmult_integral_contrapositive_currified; assumption).
  assert (H2 : rh * n ^ 2 * D ^ 4 <> 0)
    by (apply Rmult_integral_contrapositive_currified;
        [apply Rmult_integral_contrapositive_currified;
         [assumption|apply pow_nonzero; assumption]
        |apply pow_nonzero; assumption]).
  assert (H3 : rh * n ^ 2 * D ^ 5 <> 0)
    by (apply Rmult_integral_contrapositive_currified;
        [apply Rmult_integral_contrapositive_currified;
         [assumption|apply pow_nonzero; assumption]
        |apply pow_nonzero; assumption]).
  assert (H4 : 2 * PI * (Q / (rh * n ^ 2 * D ^ 5)) <> 0).
  { apply Rmult_integral_contrapositive_currified; [lra|].
    unfold Rdiv. apply Rmult_integral_contrapositive_currified;
      [assumption|now apply Rinv_neq_0_compat]. }
  exists (Solver.v_inf s / (n * D),
          T / (rh * n ^ 2 * D ^ 4),
          Q / (rh * n ^ 2 * D ^ 5),
          2 * PI * (Q / (rh * n ^ 2 * D ^ 5)),
          if Req_dec_T (Solver.v_inf s / (n * D)) 0
          then T / (rh * n ^ 2 * D ^ 4)
               / (2 * PI * (Q / (rh * n ^ 2 * D ^ 5)))
          else T / (rh * n ^ 2 * D ^ 4)
               / (2 * PI * (Q / (rh * n ^ 2 * D ^ 5)))
               * (Solver.v_inf s / (n * D))).
  intros P'. unfold Solver.rotor_coeffs.
  rewrite !bind_gets. fold D n rh. cbv zeta.
  rewrite (bind_ok _ _ _ _ _ (div_ok _ _ s H1)).
  rewrite (bind_ok _ _ _ _ _ (div_ok _ _ s H2)).
  rewrite (bind_ok _ _ _ _ _ (div_ok _ _ s H3)).
  destruct (Req_dec_T (Solver.v_inf s / (n * D)) 0).
  - rewrite (bind_ok _ _ _ _ _ (div_ok _ _ s H4)). reflexivity.
  - unfold bind at 1.
    rewrite (bind_ok _ _ _ _ _ (div_ok _ _ s H4)). reflexivity.
Qed.

(** X15: [rotor_coeffs] returns exactly when rpm, diameter, density and the
    torque Q are all non-zero, and raises ZeroDivisionError otherwise; it
    never changes the solver, and never reads its argument P. *)
Theorem rotor_coeffs_outcome T Q P (s : Solver.t) :
  (Solver.rpm s <> 0 /\ diameter (Rotor.geom (Solver.rotor s)) <> 0
   /\ rho (Solver.fluid s) <> 0 /\ Q <> 0 ->
   exists c, forall P', Solver.rotor_coeffs T Q P' s = (Ok c, s))
  /\ (Solver.rpm s = 0 \/ diameter (Rotor.geom (Solver.rotor s)) = 0
      \/ rho (Solver.fluid s) = 0 \/ Q = 0 ->
      Solver.rotor_coeffs T Q P s = (Raise ZeroDivisionError, s)).
Proof.
  set (D := diameter (Rotor.geom (Solver.rotor s))).
  set (n := Solver.rpm s / 60).
  set (rh := rho (Solver.fluid s)).
  assert (Hn : n = 0 <-> Solver.rpm s = 0) by (unfold n; lra).
  pose proof PI_RGT_0 as HPI.
  split.
  - intros (Hrpm & HD & Hrho & HQ).
    now apply rotor_coeffs_returns.
  - intros Hz.
    destruct (Solver.rotor_coeffs T Q P s) as [[c|e] s'] eqn:E.
    + exfalso. destruct c as [[[[J CT] CQ] CP] eta].
      destruct (rotor_coeffs_inv _ _ _ _ _ _ _ _ _ _ E)
        as (_ & H1 & H2 & H3 & H4 & _ & _ & HCQ & HCP & _).
      fold D n rh in H1, H2, H3, HCQ.
      assert (Hn0 : n <> 0) by (intros K; apply H1; rewrite K; ring).
      assert (HD : D <> 0) by (intros K; apply H1; rewrite K; ring).
      assert (Hrh : rh <> 0) by (intros K; apply H2; rewrite K; ring).
      assert (HQ : Q <> 0).
      { intros K. apply H4. rewrite HCP, HCQ, K. unfold Rdiv. ring. }
      tauto.
    + revert E. unfold Solver.rotor_coeffs.
      rewrite !bind_gets. fold D n rh. cbv zeta.
      destruct (div_cases (Solver.v_inf s) (n * D) s) as [E|[H1 E]];
        [rewrite (bind_raise _ _ _ _ _ E); congruence|].
      rewrite (bind_ok _ _ _ _ _ E). clear E.
      destruct (div_cases T (rh * n ^ 2 * D ^ 4) s) as [E|[H2 E]];
        [rewrite (bind_raise _ _ _ _ _ E); congruence|].
      rewrite (bind_ok _ _ _ _ _ E). clear E.
      destruct (div_cases Q (rh * n ^ 2 * D ^ 5) s) as [E|[H3 E]];
        [rewrite (bind_raise _ _ _ _ _ E); congruence|].
      rewrite (bind_ok _ _ _ _ _ E). clear E.
      destruct (div_cases (T / (rh * n ^ 2 * D ^ 4))
                  (2 * PI * (Q / (rh * n ^ 2 * D ^ 5))) s) as [E|[H4 E]].
      * destruct (Req_dec_T (Solver.v_inf s / (n * D)) 0).
        -- rewrite (bind_raise _ _ _ _ _ E). congruence.
        -- unfold bind at 1. rewrite (bind_raise _ _ _ _ _ E). congruence.
      * destruct (Req_dec_T (Solver.v_inf s / (n * D)) 0).
        -- rewrite (bind_ok _ _ _ _ _ E). discriminate.
        -- unfold bind at 1. rewrite (bind_ok _ _ _ _ _ E). discriminate.
Qed.

(** X16: What [rotor_coeffs] returns: CP = 2*pi*CQ, the advance ratio J is 0
    exactly when v_inf is, and eta is the propulsive efficiency
    T*v_inf/(Q*omega), omega = rpm*2*pi/60, whenever v_inf is not 0; at
    v_inf = 0 the value returned as eta is CT/CP = T*D/(2*pi*Q) instead. *)
Theorem rotor_coeffs_efficiency T Q P (s s' : Solver.t) J CT CQ CP eta :
  Solver.rotor_coeffs T Q P s = (Ok (J, CT, CQ, CP, eta), s') ->
  CP = 2 * PI * CQ
  /\ (J = 0 <-> Solver.v_inf s = 0)
  /\ (Solver.v_inf s <> 0 ->
      eta * (Q * (Solver.rpm s * 2 * PI / 60)) = T * Solver.v_inf s)
  /\ (Solver.v_inf s = 0 ->
      eta * (2 * PI * Q)
      = T * diameter (Rotor.geom (Solver.rotor s))).
Proof.
  intros H.
  destruct (rotor_coeffs_inv _ _ _ _ _ _ _ _ _ _ H)
    as (_ & H1 & H2 & H3 & H4 & HJ & HCT & HCQ & HCP & Heta).
  set (D := diameter (Rotor.geom (Solver.rotor s))) in *.
  set (rpm := Solver.rpm s) in *.
  set (rh := rho (Solver.fluid s)) in *.
  set (v := Solver.v_inf s) in *.
  pose proof PI_RGT_0 as HPI.
  assert (Hrpm : rpm <> 0) by (intros K; apply H1; rewrite K; field).
  assert (HD : D <> 0) by (intros K; apply H1; rewrite K; ring).
  assert (Hrh : rh <> 0) by (intros K; apply H2; rewrite K; ring).
  assert (HQ : Q <> 0).
  { intros K. apply H4. rewrite HCP, HCQ, K. unfold Rdiv. ring. }
  assert (HJ0 : J = 0 <-> v = 0).
  { rewrite HJ. split.
    - intros K. apply (Rmult_eq_compat_r (rpm / 60 * D)) in K.
      unfold Rdiv in K. rewrite Rmult_assoc, Rinv_l in K by exact H1. lra.
    - intros ->. unfold Rdiv. ring. }
  split; [exact HCP|]. split; [exact HJ0|]. split.
  - intros Hv. destruct (Req_dec_T J 0) as [K|_]; [tauto|].
    rewrite Heta, HCP, HCQ, HCT, HJ. field. repeat split; try assumption; lra.
  - intros Hv. destruct (Req_dec_T J 0) as [_|K]; [|tauto].
    rewrite Heta, HCP, HCQ, HCT. field. repeat split; try assumption; lra.
Qed.

Lemma turbine_coeffs_inv T Q P (s s' : Solver.t) TSR CP CT :
  Solver.turbine_coeffs T Q P s = (Ok (TSR, CP, CT), s') ->
  let V := Solver.v_inf s in
  let rh := rho (Solver.fluid s) in
  let ar := area (Rotor.geom (Solver.rotor s)) in
  s' = s /\ V <> 0 /\ 0.5 * rh * ar * V ^ 2 <> 0
  /\ 0.5 * rh * ar * V ^ 3 <> 0
  /\ TSR = Solver.rpm s * 2 * PI / 60
           * blade_radius (Rotor.geom (Solver.rotor s)) / V
  /\ CT = T / (0.5 * rh * ar * V ^ 2)
  /\ CP = P / (0.5 * rh * ar * V ^ 3).
Proof.
  intros H V rh ar. revert H. unfold Solver.turbine_coeffs.
  rewrite !bind_gets. fold V rh ar. cbv zeta.
  destruct (div_cases (Solver.rpm s * 2 * PI / 60
                       * blade_radius (Rotor.geom (Solver.rotor s))) V s)
    as [E|[H1 E]]; [rewrite (bind_raise _ _ _ _ _ E); discriminate|].
  rewrite (bind_ok _ _ _ _ _ E), bind_gets. fold ar. clear E.
  destruct (div_cases T (0.5 * rh * ar * V ^ 2) s) as [E|[H2 E]];
    [rewrite (bind_raise _ _ _ _ _ E); discriminate|].
  rewrite (bind_ok _ _ _ _ _ E), bind_gets. fold ar. clear E.
  destruct (div_cases P (0.5 * rh * ar * V ^ 3) s) as [E|[H3 E]];
    [rewrite (bind_raise _ _ _ _ _ E); discriminate|].
  rewrite (bind_ok _ _ _ _ _ E). unfold ret. intros H.
  injection H as <- <- <- <-. repeat split; assumption.
Qed.

(** X17: [turbine_coeffs] returns exactly when v_inf and rho*area are non-zero
    and raises ZeroDivisionError otherwise, never changing the solver.  The
    tip speed ratio it returns is omega*blade_radius/v_inf, and power and
    thrust coefficient are tied by CP*v_inf*T = CT*P. *)
Theorem turbine_coeffs_outcome T Q P (s : Solver.t) :
  (Solver.v_inf s <> 0
   /\ rho (Solver.fluid s) * area (Rotor.geom (Solver.rotor s)) <> 0 ->
   exists TSR CP CT,
     Solver.turbine_coeffs T Q P s = (Ok (TSR, CP, CT), s)
     /\ TSR * Solver.v_inf s
        = Solver.rpm s * 2 * PI / 60
          * blade_radius (Rotor.geom (Solver.rotor s))
     /\ CP * Solver.v_inf s * T = CT * P)
  /\ (Solver.v_inf s = 0
      \/ rho (Solver.fluid s) * area (Rotor.geom (Solver.rotor s)) = 0 ->
      Solver.turbine_coeffs T Q P s = (Raise ZeroDivisionError, s)).
Proof.
  set (V := Solver.v_inf s).
  set (rh := rho (Solver.fluid s)).
  set (ar := area (Rotor.geom (Solver.rotor s))).
  split.
  - intros [HV Hra].
    assert (H2 : 0.5 * rh * ar * V ^ 2 <> 0).
    { replace (0.5 * rh * ar * V ^ 2) with (0.5 * ((rh * ar) * V ^ 2)) by ring.
      apply Rmult_integral_contrapositive_currified; [lra|].
      apply Rmult_integral_contrapositive_currified;
        [assumption|now apply pow_nonzero]. }
    assert (H3 : 0.5 * rh * ar * V ^ 3 <> 0).
    { replace (0.5 * rh * ar * V ^ 3) with (0.5 * ((rh * ar) * V ^ 3)) by ring.
      apply Rmult_integral_contrapositive_currified; [lra|].
      apply Rmult_integral_contrapositive_currified;
        [assumption|now apply pow_nonzero]. }
    do 3 eexists. split; [|split].
    + unfold Solver.turbine_coeffs. rewrite !bind_gets. fold V rh ar.
      cbv zeta.
      rewrite (bind_ok _ _ _ _ _ (div_ok _ _ s HV)), bind_gets. fold ar.
      rewrite (bind_ok _ _ _ _ _ (div_ok _ _ s H2)), bind_gets. fold ar.
      rewrite (bind_ok _ _ _ _ _ (div_ok _ _ s H3)). reflexivity.
    + field. exact HV.
    + set (h := 0.5) in *.
      assert (Hh : h <> 0) by (unfold h; lra).
      assert (Hrh : rh <> 0) by (intros K; apply Hra; rewrite K; ring).
      assert (Har : ar <> 0) by (intros K; apply Hra; rewrite K; ring).
      field. repeat split; assumption.
  - intros Hz.
    unfold Solver.turbine_coeffs. rewrite !bind_gets. fold V rh ar.
    cbv zeta.
    destruct (div_cases (Solver.rpm s * 2 * PI / 60
                         * blade_radius (Rotor.geom (Solver.rotor s))) V s)
      as [E|[H1 E]]; [now rewrite (bind_raise _ _ _ _ _ E)|].
    rewrite (bind_ok _ _ _ _ _ E), bind_gets. fold ar. clear E.
    destruct Hz as [Hz|Hz]; [contradiction|].
    apply bind_raise, div_zero.
    replace (0.5 * rh * ar * V ^ 2) with (0.5 * (rh * ar) * V ^ 2) by ring.
    rewrite Hz. ring.
Qed.

(** The example propeller at 3000 rpm in 10 m/s, with a thrust of 20 N and
    a torque of 1 Nm. *)
Lemma rotor_coeffs_efficiency_witness :
  exists J CT CQ CP eta,
    Solver.rotor_coeffs 20 1 314 (Example.case "rotor" false "bisect")
    = (Ok (J, CT, CQ, CP, eta), Example.case "rotor" false "bisect")
    /\ eta * (1 * (3000 * 2 * PI / 60)) = 20 * 10.
Proof.
  destruct (rotor_coeffs_returns 20 1 (Example.case "rotor" false "bisect"))
    as [[[[[J CT] CQ] CP] eta] H]; [simpl; lra..|].
  exists J, CT, CQ, CP, eta. split; [apply H|].
  destruct (rotor_coeffs_efficiency _ _ _ _ _ _ _ _ _ _ (H 314))
    as (_ & _ & He & _).
  apply He. simpl. lra.
Defined.

(** ** The solve *)

Lemma comprehension_ext {A B} (f g : M A B) (l : list A) :
  Forall (fun x => f x = g x) l -> comprehension f l = comprehension g l.
Proof.
  induction 1 as [|x l Hx _ IH]; [reflexivity|].
  cbn [comprehension]. now rewrite Hx, IH.
Qed.

(** X18: A section at or beyond the inflow radius is solved with zero inflow:
    when no section of the rotor lies inside r_inflow, [solve] does the
    same whatever v_inflow is; it returns the same values or raises the
    same exception, and leaves the same rotor. *)
Theorem solve_outside_inflow_disk
        (bisect : forall S : Type, (R -> M S R) -> R -> R -> M S R)
        (self : Solver.t) (rpm v1 v2 r_inflow : R) (rot : Rotor.t) :
  Forall (fun sec => r_inflow <= BladeSection.radius sec)
         (Rotor.sections rot) ->
  Solver.solve bisect self rpm v1 r_inflow rot
  = Solver.solve bisect self rpm v2 r_inflow rot.
Proof.
  intros Hout. rewrite !solve_spec_unfold.
  rewrite (comprehension_ext
             (Spec.section_loads bisect self (Rotor.geom (recomputed rot))
                (rpm * 2 * PI / 60) v1 r_inflow)
             (Spec.section_loads bisect self (Rotor.geom (recomputed rot))
                (rpm * 2 * PI / 60) v2 r_inflow)); [reflexivity|].
  eapply Forall_impl; [|exact Hout].
  intros sec Hsec. unfold Spec.section_loads. rewrite !bind_gets.
  unfold Solver.inflow.
  destruct (Rlt_dec (BladeSection.radius sec) r_inflow); [lra|reflexivity].
Qed.

(** The example rotor, whose section is at radius 0.3, in a slipstream of
    radius 0.25. *)
Lemma solve_outside_inflow_disk_witness :
  Solver.solve Example.oracle (Example.case "rotor" true "bisect") 3000 10
    0.25 (Example.rotor_of "rotor")
  = Solver.solve Example.oracle (Example.case "rotor" true "bisect") 3000 0
      0.25 (Example.rotor_of "rotor").
Proof.
  apply solve_outside_inflow_disk.
  constructor; [simpl; lra|constructor].
Defined.

(** *** What a solve and a run keep *)

Lemma Forall2_same {A} (rel : A -> A -> Prop) (l : list A) :
  (forall x, rel x x) -> Forall2 rel l l.
Proof. intros H. induction l; constructor; auto. Qed.

Lemma Forall2_chain {A} (rel : A -> A -> Prop) :
  (forall x y z, rel x y -> rel y z -> rel x z) ->
  forall l1 l2 l3, Forall2 rel l1 l2 -> Forall2 rel l2 l3 -> Forall2 rel l1 l3.
Proof.
  intros Ht l1 l2 l3 H12. revert l3.
  induction H12 as [|x y l1 l2 Hxy _ IH]; intros l3 H23;
    inversion H23; subst; constructor; eauto.
Qed.

Lemma for_each_respects {A B} (rel : A -> A -> Prop) (body : B -> M A B) :
  (forall x, rel x x) ->
  (forall acc, respects rel (body acc)) ->
  forall xs acc, Forall2 rel xs (snd (for_each body acc xs)).
Proof.
  intros Hr Hb. induction xs as [|x xs IH]; intros acc; cbn [for_each].
  - constructor.
  - pose proof (Hb acc x) as Hx.
    destruct (body acc x) as [[acc'|e] x']; simpl in Hx.
    + specialize (IH acc').
      destruct (for_each body acc' xs) as [r rest']. simpl in *.
      now constructor.
    + simpl. constructor; [exact Hx|now apply Forall2_same].
Qed.

Lemma brute_residuals_respects {S} (rel : S -> S -> Prop)
      (func : R -> R -> R -> M S Np.float64) (v omega : R) :
  (forall s, rel s s) ->
  (forall s1 s2 s3, rel s1 s2 -> rel s2 s3 -> rel s1 s3) ->
  (forall phi, respects rel (func phi v omega)) ->
  forall phis, respects rel (Solver.brute_residuals func v omega phis).
Proof.
  intros Hr Ht Hf. induction phis as [|phi phis IH];
    cbn [Solver.brute_residuals].
  - now apply respects_ret.
  - repeat (respects_step || apply Hf || apply IH).
Qed.

Lemma brute_solve_respects {S} (rel : S -> S -> Prop)
      (func : R -> R -> R -> M S Np.float64) (v omega : R) (n : nat) :
  (forall s, rel s s) ->
  (forall s1 s2 s3, rel s1 s2 -> rel s2 s3 -> rel s1 s3) ->
  (forall phi, respects rel (func phi v omega)) ->
  respects rel (Solver.brute_solve func v omega n).
Proof.
  intros Hr Ht Hf. unfold Solver.brute_solve.
  apply respects_bind; [assumption..| |intros resid].
  - now apply brute_residuals_respects.
  - apply respects_bind; [assumption..| |intros i].
    + unfold Np.argmin. destruct (map Np.fabs resid);
        [now apply respects_raise|now apply respects_ret].
    + now apply respects_ret.
Qed.

Lemma find_phi_geometry bisect self rg v omega :
  calls_only bisect ->
  respects same_geometry (Solver.find_phi bisect self rg v omega).
Proof.
  intros Hb.
  pose proof same_geometry_refl as Hr. pose proof same_geometry_trans as Ht.
  assert (Hbrute : respects same_geometry
                     (Solver.brute_solve (Solver.section_func rg) v omega
                        3600)).
  { apply brute_solve_respects; [assumption..|].
    intros phi. unfold Solver.section_func.
    repeat (respects_step || apply func_geometry). }
  unfold Solver.find_phi.
  destruct (String.eqb (Solver.solver self) "brute"); [exact Hbrute|].
  apply respects_except; [assumption..| |exact Hbrute].
  apply Hb; [assumption..|]. intros phi. apply func_geometry.
Qed.

Lemma solve_section_geometry bisect self rg omega v_inflow r_inflow acc :
  calls_only bisect ->
  respects same_geometry
    (Solver.solve_section bisect self rg omega v_inflow r_inflow acc).
Proof.
  intros Hb.
  pose proof same_geometry_refl as Hr. pose proof same_geometry_trans as Ht.
  unfold Solver.solve_section. destruct acc as [T Q].
  repeat (respects_step || apply find_phi_geometry
          || apply forces_geometry); assumption.
Qed.

Lemma rotor_kept_refl rot : rotor_kept rot rot.
Proof.
  repeat split. apply Forall2_same, same_geometry_refl.
Qed.

Lemma rotor_kept_trans r1 r2 r3 :
  rotor_kept r1 r2 -> rotor_kept r2 r3 -> rotor_kept r1 r3.
Proof.
  intros (A1 & A2 & A3 & A4 & A5 & A6) (B1 & B2 & B3 & B4 & B5 & B6).
  repeat split; try congruence.
  eapply Forall2_chain; [apply same_geometry_trans|eassumption..].
Qed.

Lemma solve_rotor_kept bisect self rpm v_inflow r_inflow :
  calls_only bisect ->
  respects rotor_kept (Solver.solve bisect self rpm v_inflow r_inflow).
Proof.
  intros Hb rot. unfold Solver.solve.
  rewrite (bind_ok _ _ _ _ _ (precalc_value rot)), bind_gets.
  unfold bind, zoom.
  pose proof (for_each_respects same_geometry
                (Solver.solve_section bisect self
                   (Rotor.geom (recomputed rot)) (rpm * 2 * PI / 60)
                   v_inflow r_inflow)
                same_geometry_refl
                (fun acc => solve_section_geometry bisect self _ _ _ _ acc Hb)
                (Rotor.sections (recomputed rot)) (0, 0)) as Hloop.
  destruct (for_each _ _ (Rotor.sections (recomputed rot)))
    as [[[T Q]|e] l']; simpl in *; repeat split; exact Hloop.
Qed.

(** X19: Whatever happens in [solve], whether it returns or raises, the rotor
    it was given keeps its blade count, diameter, hub radius and number of
    sections, and every section keeps airfoil, radius, width, pitch, chord,
    sign convention and solidity.  The root finder is assumed to touch the
    section only through the residual function it is given. *)
Theorem solve_keeps_blades
        (bisect : forall S : Type, (R -> M S R) -> R -> R -> M S R)
        (self : Solver.t) (rpm v_inflow r_inflow : R) (rot : Rotor.t) :
  calls_only bisect ->
  let rot' := snd (Solver.solve bisect self rpm v_inflow r_inflow rot) in
  n_blades (Rotor.geom rot') = n_blades (Rotor.geom rot)
  /\ diameter (Rotor.geom rot') = diameter (Rotor.geom rot)
  /\ radius_hub (Rotor.geom rot') = radius_hub (Rotor.geom rot)
  /\ List.length (Rotor.sections rot') = List.length (Rotor.sections rot)
  /\ Forall2 same_geometry (Rotor.sections rot) (Rotor.sections rot').
Proof.
  intros Hb rot'.
  destruct (solve_rotor_kept bisect self rpm v_inflow r_inflow Hb rot)
    as (H1 & H2 & H3 & _ & _ & H6).
  fold rot' in H1, H2, H3, H6. repeat split; try assumption.
  symmetry. exact (Forall2_length H6).
Qed.

Lemma oracle_calls_only : calls_only Example.oracle.
Proof.
  intros S rel Hr Ht f a b Hf. unfold Example.oracle.
  now apply respects_ret.
Qed.

(** The example rotor solved with the stand-in root finder. *)
Lemma solve_keeps_blades_witness :
  Forall2 same_geometry (Rotor.sections (Example.rotor_of "rotor"))
    (Rotor.sections
       (snd (Solver.solve Example.oracle (Example.case "rotor" false "bisect")
               3000 10 1 (Example.rotor_of "rotor")))).
Proof.
  exact (proj2 (proj2 (proj2 (proj2
           (solve_keeps_blades Example.oracle
              (Example.case "rotor" false "bisect") 3000 10 1
              (Example.rotor_of "rotor") oracle_calls_only))))).
Defined.

Lemma respects_zoom {S T A} (rel : S -> S -> Prop) (relT : T -> T -> Prop)
      (get : S -> T) (set : T -> S -> S) (m : M T A) :
  respects relT m ->
  (forall s t', relT (get s) t' -> rel s (set t' s)) ->
  respects rel (zoom get set m).
Proof.
  intros Hm Hset s. unfold zoom. specialize (Hm (get s)).
  destruct (m (get s)) as [r t']. simpl in *. now apply Hset.
Qed.

Lemma respects_with_self {A} (rel : Solver.t -> Solver.t -> Prop)
      (f : Solver.t -> M Solver.t A) :
  (forall self, respects rel (f self)) -> respects rel (Solver.with_self f).
Proof. intros H s. apply (H s s). Qed.

Lemma case_kept_refl s : case_kept s s.
Proof. repeat split; apply Forall2_same, same_geometry_refl. Qed.

Lemma case_kept_trans s1 s2 s3 :
  case_kept s1 s2 -> case_kept s2 s3 -> case_kept s1 s3.
Proof.
  intros (A1 & A2 & A3 & A4 & A5 & A6 & A7 & A8 & A9 & A10 & A11)
         (B1 & B2 & B3 & B4 & B5 & B6 & B7 & B8 & B9 & B10 & B11).
  unfold case_kept.
  repeat (split; [congruence|]).
  split; eapply rotor_kept_trans; eassumption.
Qed.

Lemma slipstream_pure {rel : Solver.t -> Solver.t -> Prop} :
  (forall s, rel s s) ->
  (forall s1 s2 s3, rel s1 s2 -> rel s2 s3 -> rel s1 s3) ->
  respects rel Solver.slipstream.
Proof.
  intros Hr Ht. unfold Solver.slipstream. repeat respects_step.
Qed.

Lemma run_case_kept bisect :
  calls_only bisect -> respects case_kept (Solver.run bisect).
Proof.
  intros Hb.
  pose proof case_kept_refl as Hr. pose proof case_kept_trans as Ht.
  assert (Hsolve1 : forall self rpm v r,
             respects case_kept
               (zoom Solver.rotor Solver.set_rotor
                  (Solver.solve bisect self rpm v r))).
  { intros. eapply respects_zoom; [now apply solve_rotor_kept|].
    intros s t' Hk. repeat split; try apply Hk.
    apply Forall2_same, same_geometry_refl. }
  assert (Hsolve2 : forall self rpm v r,
             respects case_kept
               (zoom Solver.rotor2 Solver.set_rotor2
                  (Solver.solve bisect self rpm v r))).
  { intros. eapply respects_zoom; [now apply solve_rotor_kept|].
    intros s t' Hk. repeat split; try apply Hk.
    apply Forall2_same, same_geometry_refl. }
  assert (Hdf1 : respects case_kept
                   (zoom Solver.rotor Solver.set_rotor
                      Rotor.sections_dataframe)).
  { intros s. unfold zoom. rewrite sections_dataframe_value. simpl.
    destruct s. apply Hr. }
  assert (Hdf2 : respects case_kept
                   (zoom Solver.rotor2 Solver.set_rotor2
                      Rotor.sections_dataframe)).
  { intros s. unfold zoom. rewrite sections_dataframe_value. simpl.
    destruct s. apply Hr. }
  assert (Hmod : forall f : Solver.t -> Solver.t,
             (forall s, Solver.v_inf (f s) = Solver.v_inf s
                        /\ Solver.rpm (f s) = Solver.rpm s
                        /\ Solver.rpm2 (f s) = Solver.rpm2 s
                        /\ Solver.coaxial (f s) = Solver.coaxial s
                        /\ Solver.mode (f s) = Solver.mode s
                        /\ Solver.fluid (f s) = Solver.fluid s
                        /\ Solver.solver (f s) = Solver.solver s
                        /\ Solver.Cs (f s) = Solver.Cs s
                        /\ Solver.zD (f s) = Solver.zD s
                        /\ Solver.rotor (f s) = Solver.rotor s
                        /\ Solver.rotor2 (f s) = Solver.rotor2 s) ->
             respects case_kept (modify f)).
  { intros f Hf. apply respects_modify. intros s.
    destruct (Hf s) as (E1 & E2 & E3 & E4 & E5 & E6 & E7 & E8 & E9 & E10
                        & E11).
    unfold case_kept. rewrite E10, E11.
    repeat (split; [assumption|]). split; apply rotor_kept_refl. }
  unfold Solver.run.
  repeat
    lazymatch goal with
    | |- respects _ (bind _ _) => respects_step
    | |- respects _ (gets _) => respects_step
    | |- respects _ (ret _) => respects_step
    | |- respects _ (if _ then _ else _) => respects_step
    | |- respects _ (Solver.with_self _) =>
        apply respects_with_self; intros ?
    | |- respects _ (zoom Solver.rotor _ (Solver.solve _ _ _ _ _)) =>
        apply Hsolve1
    | |- respects _ (zoom Solver.rotor2 _ (Solver.solve _ _ _ _ _)) =>
        apply Hsolve2
    | |- respects _ (zoom Solver.rotor _ Rotor.sections_dataframe) =>
        exact Hdf1
    | |- respects _ (zoom Solver.rotor2 _ Rotor.sections_dataframe) =>
        exact Hdf2
    | |- respects _ Solver.slipstream =>
        exact (slipstream_pure Hr Ht)
    | |- respects _ (modify (_ ?x)) =>
        try (destruct x as [[? ?] ?]); apply Hmod; intros s; repeat split
    end.
Qed.

(** X20: Whatever happens in [run], whether it returns or raises, the case stays
    as it was (v_inf, rpm, rpm2, the coaxial flag, mode, fluid, choice of
    solver, Cs) and both rotors keep their geometry: a run only stores
    results.  The root finder is assumed to touch a section only through
    the residual function it is given. *)
Theorem run_keeps_case
        (bisect : forall S : Type, (R -> M S R) -> R -> R -> M S R)
        (self : Solver.t) :
  calls_only bisect ->
  let self' := snd (Solver.run bisect self) in
  Solver.v_inf self' = Solver.v_inf self
  /\ Solver.rpm self' = Solver.rpm self
  /\ Solver.rpm2 self' = Solver.rpm2 self
  /\ Solver.coaxial self' = Solver.coaxial self
  /\ Solver.mode self' = Solver.mode self
  /\ Solver.fluid self' = Solver.fluid self
  /\ Solver.solver self' = Solver.solver self
  /\ Solver.Cs self' = Solver.Cs self
  /\ Forall2 same_geometry (Rotor.sections (Solver.rotor self))
       (Rotor.sections (Solver.rotor self'))
  /\ Forall2 same_geometry (Rotor.sections (Solver.rotor2 self))
       (Rotor.sections (Solver.rotor2 self')).
Proof.
  intros Hb self'.
  destruct (run_case_kept bisect Hb self)
    as (E1 & E2 & E3 & E4 & E5 & E6 & E7 & E8 & _ & K1 & K2).
  fold self' in E1, E2, E3, E4, E5, E6, E7, E8, K1, K2.
  repeat (split; [assumption|]).
  split; [apply K1|apply K2].
Qed.

(** The coaxial example run with the stand-in root finder. *)
Lemma run_keeps_case_witness :
  Solver.rpm (snd (Solver.run Example.oracle
                     (Example.case "rotor" true "bisect"))) = 3000
  /\ Solver.coaxial (snd (Solver.run Example.oracle
                            (Example.case "rotor" true "bisect"))) = true.
Proof.
  destruct (run_keeps_case Example.oracle
              (Example.case "rotor" true "bisect") oracle_calls_only)
    as (_ & E2 & _ & E4 & _).
  split; [exact E2|exact E4].
Defined.

(** *** What a run reports *)

Lemma slipstream_state (s : Solver.t) : snd (Solver.slipstream s) = s.
Proof.
  symmetry.
  exact (slipstream_pure (rel := eq) (fun _ => eq_refl)
           (fun _ _ _ => @eq_trans _ _ _ _) s).
Qed.

Lemma run_inv bisect (self self' : Solver.t) r :
  Solver.run bisect self = (Ok r, self') ->
  exists T Q P rot',
    primary_solve bisect self = (Ok (T, Q, P), rot')
    /\ ((Solver.coaxial self = false
         /\ r = Single T Q P (summary_of (Rotor.sections rot'))
         /\ self' = after_primary self (T, Q, P) rot')
        \/ (Solver.coaxial self = true
            /\ exists r_s v_s T2 Q2 P2 rot2',
                 Solver.slipstream (after_primary self (T, Q, P) rot')
                 = (Ok (r_s, v_s), after_primary self (T, Q, P) rot')
                 /\ Solver.solve bisect
                      (Solver.set_slipstream (r_s, v_s)
                         (after_primary self (T, Q, P) rot'))
                      (Solver.rpm2 self) v_s r_s (Solver.rotor2 self)
                    = (Ok (T2, Q2, P2), rot2')
                 /\ r = Coaxial T Q P (summary_of (Rotor.sections rot'))
                          T2 Q2 P2 (summary_of (Rotor.sections rot2'))
                 /\ self' = Solver.set_TQP2 (T2, Q2, P2)
                              (Solver.set_rotor2 rot2'
                                 (Solver.set_slipstream (r_s, v_s)
                                    (after_primary self (T, Q, P) rot'))))).
Proof.
  intros H.
  destruct (primary_solve bisect self) as [[[[T Q] P]|e] rot'] eqn:Hp.
  - exists T, Q, P, rot'. split; [reflexivity|].
    destruct (Solver.coaxial self) eqn:Hc.
    + right. split; [reflexivity|].
      pose proof (slipstream_state (after_primary self (T, Q, P) rot'))
        as Hst.
      destruct (Solver.slipstream (after_primary self (T, Q, P) rot'))
        as [[[r_s v_s]|e] s1] eqn:Hs; simpl in Hst; subst s1.
      * pose proof (run_coaxial bisect self T Q P rot' r_s v_s Hc Hp Hs)
          as Hrun.
        cbv zeta in Hrun. rewrite Hrun in H.
        destruct (Solver.solve bisect _ (Solver.rpm2 self) v_s r_s
                    (Solver.rotor2 self))
          as [[[[T2 Q2] P2]|e] rot2'] eqn:Hs2; [|discriminate].
        injection H as <- <-.
        exists r_s, v_s, T2, Q2, P2, rot2'. repeat split. exact Hs2.
      * rewrite (run_slipstream_raises bisect self T Q P rot' e Hc Hp Hs)
          in H.
        discriminate.
    + left. split; [reflexivity|].
      rewrite (run_single bisect self T Q P rot' Hc Hp) in H.
      injection H as <- <-. split; reflexivity.
  - exfalso. revert H. unfold primary_solve in Hp.
    unfold Solver.run, Solver.with_self, bind at 1, zoom at 1.
    rewrite Hp. discriminate.
Qed.

(** X21: What [run] returns is what it has stored: T, Q and P are the
    attributes of the solver after the run, the summary is the table of the
    primary rotor's sections as the run leaves them, T and Q are the sums
    of its dT and dQ columns, and P = Q*omega.  Four values come back
    exactly when the case is not coaxial; for a coaxial case the same holds
    for the secondary rotor with T2, Q2, P2 and rpm2. *)
Theorem run_reports_stored
        (bisect : forall S : Type, (R -> M S R) -> R -> R -> M S R)
        (self self' : Solver.t) (r : RunResult) :
  Solver.run bisect self = (Ok r, self') ->
  match r with
  | Single T Q P df =>
      Solver.coaxial self = false
      /\ Solver.T self' = T /\ Solver.Q self' = Q /\ Solver.P self' = P
      /\ Rotor.sections_dataframe (Solver.rotor self')
         = (Ok df, Solver.rotor self')
      /\ T = Rsum (column "dT" df) /\ Q = Rsum (column "dQ" df)
      /\ P = Q * (Solver.rpm self * 2 * PI / 60)
  | Coaxial T Q P df T2 Q2 P2 df2 =>
      Solver.coaxial self = true
      /\ Solver.T self' = T /\ Solver.Q self' = Q /\ Solver.P self' = P
      /\ Rotor.sections_dataframe (Solver.rotor self')
         = (Ok df, Solver.rotor self')
      /\ T = Rsum (column "dT" df) /\ Q = Rsum (column "dQ" df)
      /\ P = Q * (Solver.rpm self * 2 * PI / 60)
      /\ Solver.T2 self' = T2 /\ Solver.Q2 self' = Q2
      /\ Solver.P2 self' = P2
      /\ Rotor.sections_dataframe (Solver.rotor2 self')
         = (Ok df2, Solver.rotor2 self')
      /\ T2 = Rsum (column "dT" df2) /\ Q2 = Rsum (column "dQ" df2)
      /\ P2 = Q2 * (Solver.rpm2 self * 2 * PI / 60)
  end.
Proof.
  intros H.
  destruct (run_inv _ _ _ _ H) as (T & Q & P & rot' & Hp & Hcase).
  unfold primary_solve in Hp.
  destruct (solve_returns _ _ _ _ _ _ _ _ _ _ Hp)
    as (_ & _ & HT & HQ & HP & _).
  destruct Hcase as [(Hc & -> & ->)
                    |(Hc & r_s & v_s & T2 & Q2 & P2 & rot2' & _ & Hs2
                      & -> & ->)].
  - repeat split; try assumption. apply sections_dataframe_value.
  - destruct (solve_returns _ _ _ _ _ _ _ _ _ _ Hs2)
      as (_ & _ & HT2 & HQ2 & HP2 & _).
    repeat split; try assumption; apply sections_dataframe_value.
Qed.

(** The example propeller, run with the stand-in root finder. *)
Lemma run_reports_stored_witness :
  exists T Q P df self',
    Solver.run Example.oracle (Example.case "rotor" false "bisect")
    = (Ok (Single T Q P df), self')
    /\ Solver.T self' = T /\ T = Rsum (column "dT" df).
Proof.
  destruct (example_solve "rotor" (Example.case "rotor" false "bisect")
              3000 10 1 eq_refl eq_refl ltac:(lra))
    as (T & Q & P & rot' & Hs & _).
  pose proof (run_single Example.oracle
                (Example.case "rotor" false "bisect") T Q P rot'
                eq_refl Hs) as Hrun.
  do 5 eexists. split; [exact Hrun|].
  destruct (run_reports_stored _ _ _ _ Hrun) as (_ & HT & _ & _ & _ & HS & _).
  split; [exact HT|exact HS].
Defined.

(** ** The parameter sweep *)

Lemma ensures_seq {S A B} (m : M S A) (k : A -> M S B) (Qa : A -> Prop)
      (post : B -> S -> Prop) :
  ensures m (fun a _ => Qa a) ->
  (forall a, Qa a -> ensures (k a) post) ->
  ensures (bind m k) post.
Proof.
  intros Hm Hk s b s' H. unfold bind in H.
  destruct (m s) as [[a|e] s1] eqn:E; [|discriminate].
  exact (Hk a (Hm _ _ _ E) s1 b s' H).
Qed.

Lemma ensures_raise {S A} (e : exn) (post : A -> S -> Prop) :
  ensures (raise e) post.
Proof. intros s a s' H. discriminate. Qed.

Lemma iloc_set_shape i row df :
  ensures (Solver.iloc_set i row df)
    (fun df' _ =>
       List.length row = List.length (sweep_columns df)
       /\ (i < List.length (sweep_rows df))%nat
       /\ df' = {| sweep_columns := sweep_columns df;
                   sweep_rows := Solver.set_nth i (Some row)
                                   (sweep_rows df) |}).
Proof.
  intros s df' s'. unfold Solver.iloc_set.
  destruct (Nat.eqb (List.length row) (List.length (sweep_columns df)))
    eqn:E1; cbn [negb]; [|discriminate].
  destruct (Nat.ltb i (List.length (sweep_rows df))) eqn:E2; cbn [negb];
    [|discriminate].
  unfold ret. intros H. injection H as <- <-.
  apply Nat.eqb_eq in E1. apply Nat.ltb_lt in E2. repeat split; assumption.
Qed.

Lemma iloc_set_ok i row df (s : Solver.t) :
  List.length row = List.length (sweep_columns df) ->
  (i < List.length (sweep_rows df))%nat ->
  Solver.iloc_set i row df s
  = (Ok {| sweep_columns := sweep_columns df;
           sweep_rows := Solver.set_nth i (Some row) (sweep_rows df) |}, s).
Proof.
  intros H1 H2. unfold Solver.iloc_set.
  apply Nat.eqb_eq in H1. apply Nat.ltb_lt in H2. now rewrite H1, H2.
Qed.

Lemma sweep_step_shape bisect parameter df secs i p :
  ensures (Solver.sweep_step bisect parameter (df, secs) (i, p))
    (fun acc _ =>
       row_stored df i p (fst acc)
       /\ exists sec_df, snd acc = secs ++ [sec_df]).
Proof.
  unfold Solver.sweep_step.
  apply ensures_bind. intros _. apply ensures_bind. intros md.
  apply (ensures_seq _ _ (fun x => row_stored df i p (fst x))).
  - destruct (String.eqb md "turbine").
    + apply ensures_bind. intros r. apply ensures_bind.
      intros [[[T Q] P] sec_df]. apply ensures_bind. intros [[TSR CP] CT].
      apply (ensures_seq _ _ _ _ (iloc_set_shape _ _ _)).
      intros df' (H1 & H2 & ->) s x s' H. unfold ret in H.
      injection H as <- <-. simpl. eexists. eauto.
    + apply ensures_bind. intros [|].
      * apply ensures_bind. intros r. apply ensures_bind.
        intros [[[[T Q] P] sec_df] [[[T2 Q2] P2] sec_df2]].
        apply ensures_bind. intros [[[[J CT] CQ] CP] eta].
        apply ensures_bind. intros [[[[J' CT2] CQ2] CP2] eta'].
        apply ensures_raise.
      * apply ensures_bind. intros r. apply ensures_bind.
        intros [[[T Q] P] sec_df].
        apply ensures_bind. intros [[[[J CT] CQ] CP] eta].
        apply (ensures_seq _ _ _ _ (iloc_set_shape _ _ _)).
        intros df' (H1 & H2 & ->) s x s' H. unfold ret in H.
        injection H as <- <-. simpl. eexists. eauto.
  - intros [df' sec_df] Hrow s x s' H. unfold ret in H.
    injection H as <- <-. simpl. eauto.
Qed.

Lemma set_nth_app {A} (done : list A) (x y : A) (l : list A) :
  Solver.set_nth (List.length done) x (done ++ y :: l) = done ++ x :: l.
Proof.
  induction done as [|d done IH]; [reflexivity|].
  cbn [List.length app Solver.set_nth]. now rewrite IH.
Qed.

Lemma sweep_fold_shape bisect parameter cols :
  forall pts done secs (s s' : Solver.t) df' secs',
    fold_keys (Solver.sweep_step bisect parameter)
      ({| sweep_columns := cols;
          sweep_rows := done ++ repeat None (List.length pts) |}, secs)
      (combine (seq (List.length done) (List.length pts)) pts) s
    = (Ok (df', secs'), s') ->
    exists filled,
      sweep_columns df' = cols
      /\ sweep_rows df' = done ++ filled
      /\ List.length secs' = (List.length secs + List.length pts)%nat
      /\ Forall2 (row_of cols) filled pts.
Proof.
  induction pts as [|p pts IH]; intros done secs s s' df' secs' H.
  - cbn in H. injection H as <- <- <-. exists []. cbn.
    repeat split; [lia|constructor].
  - cbn [List.length seq combine fold_keys repeat] in H.
    unfold bind at 1 in H.
    destruct (Solver.sweep_step bisect parameter _ (List.length done, p) s)
      as [[[df1 secs1]|e] s1] eqn:Hstep; [|discriminate].
    destruct (sweep_step_shape _ _ _ _ _ _ _ _ _ Hstep)
      as [(rest & Hlen & _ & Hdf1) (sec_df & Hsecs1)].
    simpl in Hdf1, Hsecs1, Hlen. subst df1 secs1.
    rewrite set_nth_app in H.
    replace (done ++ Some (p :: rest) :: repeat None (List.length pts))
      with ((done ++ [Some (p :: rest)]) ++ repeat None (List.length pts))
      in H by (now rewrite <- app_assoc).
    replace (S (List.length done))
      with (List.length (done ++ [Some (p :: rest)])) in H
      by (rewrite length_app; simpl; lia).
    destruct (IH _ _ _ _ _ _ H) as (filled & Hc & Hr & Hl & Hf).
    exists (Some (p :: rest) :: filled).
    split; [exact Hc|]. split; [now rewrite Hr, <- app_assoc|].
    split; [rewrite Hl, length_app; simpl; lia|].
    constructor; [|exact Hf]. exists rest. split; [reflexivity|exact Hlen].
Qed.

Lemma sweep_step_turbine_coaxial_fails bisect parameter acc ip
      (s : Solver.t) :
  Solver.coaxial s = true ->
  String.eqb (Solver.mode s) "turbine" = true ->
  fails (Solver.sweep_step bisect parameter acc ip) s.
Proof.
  intros Hc Hm. unfold Solver.sweep_step.
  destruct acc as [df sections]. destruct ip as [i p].
  apply fails_bind. intros [] s1 Hset.
  destruct (setattr_keeps_mode _ _ _ _ Hset) as [Hm1 Hc1].
  apply fails_gets_bind. rewrite Hm1, Hm.
  apply fails_bind. intros [df' sec_df] s2 H. exfalso. revert H.
  unfold bind at 1.
  destruct (Solver.run bisect s1) as [[r|e] s3] eqn:Hrun; [|discriminate].
  destruct (run_inv _ _ _ _ Hrun)
    as (T & Q & P & rot' & _ & [(Hc0 & _)|(_ & r_s & v_s & T2 & Q2 & P2
                                           & rot2' & _ & _ & -> & _)]).
  - congruence.
  - cbn [Solver.unpack4]. unfold bind, raise. discriminate.
Qed.

Lemma run_sweep_first_step bisect parameter n low high (self : Solver.t) :
  (1 <= n)%nat ->
  (forall acc ip, fails (Solver.sweep_step bisect parameter acc ip) self) ->
  fails (Solver.run_sweep bisect parameter n low high) self.
Proof.
  intros Hn Hstep. unfold Solver.run_sweep.
  apply fails_bind. intros df s1 Hdf.
  unfold Solver.with_self, ret in Hdf. injection Hdf as <- <-.
  assert (Hl : exists p rest,
             enumerate (Np.linspace low high n) = (0%nat, p) :: rest).
  { destruct n as [|[|k]]; [lia| |].
    - cbn. eauto.
    - destruct (linspace_cons low high k) as (p & rest & ->).
      unfold enumerate. cbn [List.length seq combine]. eauto. }
  destruct Hl as (p & rest & ->). cbn [fold_keys].
  apply fails_bind. intros acc s1 H. exfalso.
  match type of H with
  | Solver.sweep_step _ _ ?a ?ip _ = _ =>
      destruct (Hstep a ip) as (e & s2 & Hf)
  end.
  rewrite Hf in H. discriminate.
Qed.

(** X22: When [run_sweep] returns, the table has the columns of the mode, one
    row per sample of the parameter, in the order of the samples; every row
    is filled, starts with its sample and has one value per column; and
    there is one sections summary per sample.  It returns with at least
    one sample only for a case that is not coaxial.  The parameter swept is
    a number of the case. *)
Theorem run_sweep_table
        (bisect : forall S : Type, (R -> M S R) -> R -> R -> M S R)
        (parameter : string) (n : nat) (low high : R)
        (self self' : Solver.t) (df : SweepFrame) (secs : list DataFrame) :
  scalar_parameter parameter ->
  Solver.run_sweep bisect parameter n low high self = (Ok (df, secs), self') ->
  sweep_columns df = Solver.sweep_cols self parameter
  /\ List.length secs = n
  /\ Forall2 (row_of (sweep_columns df)) (sweep_rows df)
       (Np.linspace low high n)
  /\ ((1 <= n)%nat -> Solver.coaxial self = false).
Proof.
  intros _ H.
  assert (Hcx : (1 <= n)%nat -> Solver.coaxial self = false).
  { intros Hn. destruct (Solver.coaxial self) eqn:Hc; [exfalso|reflexivity].
    assert (Hf : fails (Solver.run_sweep bisect parameter n low high) self).
    { apply run_sweep_first_step; [exact Hn|]. intros acc ip.
      destruct (String.eqb (Solver.mode self) "turbine") eqn:Hm.
      - now apply sweep_step_turbine_coaxial_fails.
      - now apply sweep_step_coaxial_fails. }
    destruct Hf as (e & s2 & Hf). rewrite Hf in H. discriminate. }
  unfold Solver.run_sweep in H.
  unfold bind at 1, Solver.with_self, ret at 1 in H.
  unfold Solver.new_frame, enumerate in H.
  pose proof (linspace_length low high n) as Hlen.
  set (pts := Np.linspace low high n) in *.
  rewrite <- Hlen in H at 1.
  destruct (sweep_fold_shape bisect parameter
              (Solver.sweep_cols self parameter) pts [] [] self self' df
              secs H) as (filled & Hc & Hr & Hl & Hf).
  simpl in Hr, Hl. rewrite Hc, Hr.
  repeat split; [lia|exact Hf|exact Hcx].
Qed.

Lemma bind_assoc {S A B C} (m : M S A) (k1 : A -> M S B) (k2 : B -> M S C)
      (s : S) :
  bind (bind m k1) k2 s = bind m (fun a => bind (k1 a) k2) s.
Proof. unfold bind. destruct (m s) as [[a|e] s1]; reflexivity. Qed.

Lemma turbine_coeffs_returns T Q P (s : Solver.t) :
  Solver.v_inf s <> 0 ->
  rho (Solver.fluid s) * area (Rotor.geom (Solver.rotor s)) <> 0 ->
  exists c, Solver.turbine_coeffs T Q P s = (Ok c, s).
Proof.
  intros HV Hra.
  set (V := Solver.v_inf s) in *.
  set (rh := rho (Solver.fluid s)) in *.
  set (ar := area (Rotor.geom (Solver.rotor s))) in *.
  assert (H2 : 0.5 * rh * ar * V ^ 2 <> 0).
  { replace (0.5 * rh * ar * V ^ 2) with (0.5 * ((rh * ar) * V ^ 2)) by ring.
    apply Rmult_integral_contrapositive_currified; [lra|].
    apply Rmult_integral_contrapositive_currified;
      [assumption|now apply pow_nonzero]. }
  assert (H3 : 0.5 * rh * ar * V ^ 3 <> 0).
  { replace (0.5 * rh * ar * V ^ 3) with (0.5 * ((rh * ar) * V ^ 3)) by ring.
    apply Rmult_integral_contrapositive_currified; [lra|].
    apply Rmult_integral_contrapositive_currified;
      [assumption|now apply pow_nonzero]. }
  eexists. unfold Solver.turbine_coeffs. rewrite !bind_gets. fold V rh ar.
  cbv zeta.
  rewrite (bind_ok _ _ _ _ _ (div_ok _ _ s HV)), bind_gets. fold ar.
  rewrite (bind_ok _ _ _ _ _ (div_ok _ _ s H2)), bind_gets. fold ar.
  rewrite (bind_ok _ _ _ _ _ (div_ok _ _ s H3)). reflexivity.
Qed.

(** The example turbine swept over a single rotation speed. *)
Lemma example_sweep_point :
  exists df secs s',
    Solver.run_sweep Example.oracle "rpm" 1 3000 5000
      (Example.case "turbine" false "bisect") = (Ok (df, secs), s').
Proof.
  set (self := Example.case "turbine" false "bisect").
  destruct (example_solve "turbine" self 3000 10 1 eq_refl eq_refl
              ltac:(lra)) as (T & Q & P & rot' & Hs & _).
  pose proof (run_single Example.oracle self T Q P rot' eq_refl Hs) as Hrun.
  destruct (solve_returns _ _ _ _ _ _ _ _ _ _ Hs) as (_ & Har & _).
  destruct (turbine_coeffs_returns T Q P (after_primary self (T, Q, P) rot'))
    as [[[TSR CP] CT] Hc].
  { simpl. lra. }
  { change (area (Rotor.geom
                    (Solver.rotor (after_primary self (T, Q, P) rot'))))
      with (area (Rotor.geom rot')).
    rewrite Har. pose proof PI_RGT_0. simpl. nra. }
  assert (Hset : Solver.setattr "rpm" 3000 self = (Ok tt, self))
    by reflexivity.
  do 3 eexists. unfold Solver.run_sweep.
  unfold bind at 1, Solver.with_self, ret at 1.
  change (enumerate (Np.linspace 3000 5000 1)) with [(0%nat, 3000)].
  cbn [fold_keys]. unfold Solver.sweep_step at 1.
  rewrite bind_assoc, (bind_ok _ _ _ _ _ Hset).
  rewrite bind_assoc, bind_gets.
  change (String.eqb (Solver.mode self) "turbine") with true. cbv iota.
  rewrite !bind_assoc, (bind_ok _ _ _ _ _ Hrun).
  cbn [Solver.unpack4]. rewrite !bind_assoc, bind_ret.
  rewrite !bind_assoc, (bind_ok _ _ _ _ _ Hc).
  rewrite !bind_assoc.
  match goal with
  | |- bind (Solver.iloc_set ?i ?row ?df) _ ?s = _ =>
      rewrite (bind_ok _ _ _ _ _
                 (iloc_set_ok i row df s eq_refl (Nat.lt_0_succ 0)))
  end.
  reflexivity.
Qed.

Lemma rpm_scalar : scalar_parameter "rpm".
Proof.
  intros H. cbn [In] in H.
  repeat (destruct H as [H|H]; [discriminate H|]). exact H.
Qed.

(** The example turbine swept over a single rotation speed, 3000 rpm. *)
Lemma run_sweep_table_witness :
  exists df secs s',
    Solver.run_sweep Example.oracle "rpm" 1 3000 5000
      (Example.case "turbine" false "bisect") = (Ok (df, secs), s')
    /\ List.length secs = 1%nat
    /\ Forall2 (row_of (sweep_columns df)) (sweep_rows df) [3000].
Proof.
  destruct example_sweep_point as (df & secs & s' & H).
  exists df, secs, s'. split; [exact H|].
  destruct (run_sweep_table _ _ _ _ _ _ _ _ _ rpm_scalar H)
    as (_ & Hl & Hf & _).
  split; [exact Hl|exact Hf].
Defined.

(** X23: In a coaxial turbine case [run_sweep] never returns a table for one
    sample or more of a number of the case: the first iteration unpacks
    the eight values of a coaxial [run] into four names, so that it raises
    as soon as the run itself has not. *)
Theorem run_sweep_turbine_coaxial_raises
        (bisect : forall S : Type, (R -> M S R) -> R -> R -> M S R)
        (self : Solver.t) (parameter : string) (n : nat) (low high : R) :
  scalar_parameter parameter ->
  Solver.coaxial self = true ->
  String.eqb (Solver.mode self) "turbine" = true ->
  (1 <= n)%nat ->
  exists e s',
    Solver.run_sweep bisect parameter n low high self = (Raise e, s').
Proof.
  intros _ Hc Hm Hn.
  apply (run_sweep_first_step bisect parameter n low high self Hn).
  intros acc ip. now apply sweep_step_turbine_coaxial_fails.
Qed.

(** Two example turbines, swept over the wind speed. *)
Lemma run_sweep_turbine_coaxial_raises_witness :
  exists e s',
    Solver.run_sweep Example.oracle "v_inf" 5 5 15
      (Example.case "turbine" true "bisect") = (Raise e, s').
Proof.
  apply run_sweep_turbine_coaxial_raises; [|reflexivity|reflexivity|lia].
  intros H. cbn [In] in H.
  repeat (destruct H as [H|H]; [discriminate H|]). exact H.
Defined.

(** ** The objective of the pitch optimization *)

Lemma set_pitches_pitch (x : list R) :
  forall secs,
    map BladeSection.pitch (Solver.set_pitches x secs)
    = map Py.radians (firstn (List.length secs) x)
      ++ skipn (List.length x) (map BladeSection.pitch secs).
Proof.
  induction x as [|p x IH]; intros [|sec secs]; try reflexivity.
  cbn [Solver.set_pitches List.length firstn map skipn app].
  now rewrite IH.
Qed.

Lemma same_geometry_pitches (l l' : list BladeSection.t) :
  Forall2 same_geometry l l' ->
  map BladeSection.pitch l' = map BladeSection.pitch l.
Proof.
  induction 1 as [|s s' l l' (_ & _ & _ & Hp & _) _ IH]; [reflexivity|].
  cbn [map]. now rewrite Hp, IH.
Qed.

(** X24: When the objective [run_bemt(x)] returns, the case is not coaxial (a
    coaxial [run] gives eight values for four names), the value is the
    negated power stored by the run for a turbine and the negated thrust
    otherwise, and the sections are left with the pitches of [x] converted
    to radians, as far as both [x] and the sections go: values of [x]
    beyond the number of sections are ignored and sections beyond the
    length of [x] keep their pitch.  The root finder is assumed to touch a
    section only through the residual function it is given. *)
Theorem run_bemt_objective
        (bisect : forall S : Type, (R -> M S R) -> R -> R -> M S R)
        (x : list R) (self self' : Solver.t) (y : R) :
  calls_only bisect ->
  Solver.run_bemt bisect x self = (Ok y, self') ->
  Solver.coaxial self = false
  /\ y = (if String.eqb (Solver.mode self) "turbine"
          then - Solver.P self' else - Solver.T self')
  /\ map BladeSection.pitch (Rotor.sections (Solver.rotor self'))
     = map Py.radians
         (firstn (List.length (Rotor.sections (Solver.rotor self))) x)
       ++ skipn (List.length x)
            (map BladeSection.pitch (Rotor.sections (Solver.rotor self))).
Proof.
  intros Hb H. unfold Solver.run_bemt in H. rewrite bind_modify in H.
  set (s0 := Solver.set_rotor
               (Rotor.set_sections
                  (Solver.set_pitches x (Rotor.sections (Solver.rotor self)))
                  (Solver.rotor self)) self) in *.
  unfold bind at 1 in H.
  destruct (Solver.run bisect s0) as [[r|e] s1] eqn:Hrun; [|discriminate].
  destruct (run_inv _ _ _ _ Hrun)
    as (T & Q & P & rot' & Hp
        & [(Hc & -> & ->)|(_ & r_s & v_s & T2 & Q2 & P2 & rot2' & _ & _
                           & -> & _)]).
  - cbn [Solver.unpack4] in H. rewrite bind_ret, bind_gets in H.
    change (Solver.mode (after_primary s0 (T, Q, P) rot'))
      with (Solver.mode self) in H.
    split; [exact Hc|]. split.
    + destruct (String.eqb (Solver.mode self) "turbine");
        unfold ret in H; injection H as <- <-; reflexivity.
    + assert (Hs1 : Rotor.sections (Solver.rotor self')
                    = Rotor.sections rot').
      { destruct (String.eqb (Solver.mode self) "turbine");
          unfold ret in H; injection H as <- <-; reflexivity. }
      rewrite Hs1. unfold primary_solve in Hp.
      pose proof (solve_rotor_kept bisect s0 (Solver.rpm s0)
                    (Solver.v_inf s0)
                    (diameter (Rotor.geom (Solver.rotor s0))) Hb
                    (Solver.rotor s0)) as Hk.
      rewrite Hp in Hk. destruct Hk as (_ & _ & _ & _ & _ & Hk).
      simpl in Hk. rewrite (same_geometry_pitches _ _ Hk).
      apply set_pitches_pitch.
  - cbn [Solver.unpack4] in H. unfold bind, raise in H. discriminate.
Qed.

(** The example propeller with the pitch of its section set to 10
    degrees. *)
Lemma run_bemt_objective_witness :
  exists y self',
    Solver.run_bemt Example.oracle [10] (Example.case "rotor" false "bisect")
    = (Ok y, self')
    /\ y = - Solver.T self'
    /\ map BladeSection.pitch (Rotor.sections (Solver.rotor self'))
       = [Py.radians 10].
Proof.
  destruct (example_solve "rotor" (Example.case "rotor" false "bisect")
              3000 10 1 eq_refl eq_refl ltac:(lra))
    as (T & Q & P & rot' & Hs & _).
  pose proof (run_single Example.oracle
                (Example.case "rotor" false "bisect") T Q P rot'
                eq_refl Hs) as Hrun.
  assert (H : Solver.run_bemt Example.oracle [10]
                (Example.case "rotor" false "bisect")
              = (Ok (- T),
                 after_primary (Example.case "rotor" false "bisect")
                   (T, Q, P) rot')).
  { unfold Solver.run_bemt. rewrite bind_modify.
    change (Solver.set_rotor _ (Example.case "rotor" false "bisect"))
      with (Example.case "rotor" false "bisect").
    rewrite (bind_ok _ _ _ _ _ Hrun). reflexivity. }
  do 2 eexists. split; [exact H|].
  destruct (run_bemt_objective _ _ _ _ _ oracle_calls_only H)
    as (_ & Hy & Hpitch).
  split; [exact Hy|exact Hpitch].
Defined.
